(** * SVG-CSV map editor (src/loucura.jsx): the CSV parser, the lookup
    builder and the attribute merger, embedded as Rocq functions.

    JavaScript strings are sequences of UTF-16 code units; a code unit is
    modelled as an [N] and a string as a [list N].  The regular expressions
    of the source are values of a small syntax interpreted by a backtracking
    matcher that follows ECMAScript's semantics for the constructs the
    source uses (literal characters, \s, negated one-character classes,
    greedy * and +, \b, $, capture groups, the i and g flags). *)

From Stdlib Require Import NArith String Ascii.
From stdpp Require Import gmap list.

Local Open Scope N_scope.

(** ** Strings *)

Abbreviation jsstring := (list N).

(** An ASCII literal as a JavaScript string. *)
Definition str (s : string) : jsstring :=
  map N_of_ascii (list_ascii_of_string s).

(** U+0022, the double quote. *)
Definition dq : N := 34.
(** U+000A, the line feed; U+000D, the carriage return. *)
Definition lf : N := 10.
Definition cr : N := 13.
(** U+0024, the dollar sign. *)
Definition dollar : N := 36.

(** [q s] is the literal [s] between double quotes. *)
Definition q (s : string) : jsstring := dq :: str s ++ [dq].

(** The code unit of a one-character literal. *)
Definition chr (s : string) : N :=
  match str s with c :: _ => c | [] => 0 end.

(** WhiteSpace and LineTerminator code points of ECMAScript: what
    [String.prototype.trim] removes and what \s matches. *)
Definition isSpace (c : N) : bool :=
  ((9 <=? c) && (c <=? 13)) || (c =? 32) || (c =? 160) || (c =? 5760)
  || ((8192 <=? c) && (c <=? 8202)) || (c =? 8232) || (c =? 8233)
  || (c =? 8239) || (c =? 8287) || (c =? 12288) || (c =? 65279).

(** The word characters of \b outside unicode mode: [A-Za-z0-9_]. *)
Definition isWordChar (c : N) : bool :=
  ((97 <=? c) && (c <=? 122)) || ((65 <=? c) && (c <=? 90))
  || ((48 <=? c) && (c <=? 57)) || (c =? 95).

Definition isAscii (c : N) : bool := c <? 128.

Definition asciiUpper (c : N) : N :=
  if (97 <=? c) && (c <=? 122) then c - 32 else c.

Definition asciiLower (c : N) : N :=
  if (65 <=? c) && (c <=? 90) then c + 32 else c.

Fixpoint dropSpace (s : jsstring) : jsstring :=
  match s with
  | c :: s' => if isSpace c then dropSpace s' else s
  | [] => []
  end.

(** [s.trim()] *)
Definition trim (s : jsstring) : jsstring :=
  rev (dropSpace (rev (dropSpace s))).

(** [s.split(sep)] for a one-character separator: never empty, the pieces
    between the separators in order. *)
Fixpoint split (sep : N) (s : jsstring) : list jsstring :=
  match s with
  | [] => [[]]
  | c :: s' =>
      if c =? sep then [] :: split sep s'
      else match split sep s' with
           | p :: ps => (c :: p) :: ps
           | [] => [[c]]
           end
  end.

(** ** Regular expressions *)

Inductive charset :=
| Space                (* \s *)
| NotChar (c : N).     (* [^c] *)

Inductive atom :=
| Lit (c : N)          (* a pattern character *)
| Cls (cs : charset)   (* a class, once *)
| Star (cs : charset)  (* class*, greedy *)
| Plus (cs : charset)  (* class+, greedy *)
| WordBoundary         (* \b *)
| EndOfInput           (* $ without the m flag *)
| Open                 (* ( *)
| Close.               (* ) *)

Record regex := {
  atoms : list atom;
  ignoreCase : bool;   (* the i flag *)
  global : bool        (* the g flag *)
}.

(** A literal run of pattern characters. *)
Definition lit (s : string) : list atom := map Lit (str s).

(** Canonicalize of ECMAScript outside unicode mode.  With the i flag a
    code unit is replaced by its upper case unless that maps a non-ASCII
    unit to an ASCII one; every pattern character of the source is ASCII,
    and on comparison with an ASCII unit only the ASCII letters fold. *)
Definition canonicalize (ic : bool) (c : N) : N :=
  if ic then asciiUpper c else c.

Definition inSet (ic : bool) (cs : charset) (c : N) : bool :=
  match cs with
  | Space => isSpace c
  | NotChar x => negb (canonicalize ic c =? canonicalize ic x)
  end.

Definition wordBefore (prev : option N) : bool :=
  match prev with Some c => isWordChar c | None => false end.

Definition wordAt (s : jsstring) : bool :=
  match s with c :: _ => isWordChar c | [] => false end.

(** A greedy repetition of the class [cs] followed by the rest of the
    pattern, [k]: it takes as many units as it can and gives them back one
    at a time while the rest of the pattern fails.  The result is the text
    the repetition consumed and the pieces of the rest. *)
Fixpoint many (k : option N -> jsstring -> option (list jsstring))
  (ic : bool) (cs : charset) (prev : option N) (s : jsstring)
  : option (jsstring * list jsstring) :=
  match s with
  | c :: s' =>
      if inSet ic cs c then
        match many k ic cs (Some c) s' with
        | Some (w, ps) => Some (c :: w, ps)
        | None => pair [] <$> k prev s
        end
      else pair [] <$> k prev s
  | [] => pair [] <$> k prev s
  end.

(** [exec ic r prev s] matches the atoms [r] at the front of [s], where
    [prev] is the code unit just before [s] in the subject.  The result
    gives, atom by atom, the text each atom consumed. *)
Fixpoint exec (ic : bool) (r : list atom) (prev : option N) (s : jsstring)
  : option (list jsstring) :=
  match r with
  | [] => Some []
  | a :: r' =>
      let zero (ok : bool) :=
        if ok then cons [] <$> exec ic r' prev s else None in
      let one (ok : N -> bool) :=
        match s with
        | c :: s' => if ok c then cons [c] <$> exec ic r' (Some c) s' else None
        | [] => None
        end in
      match a with
      | Lit x => one (fun c => canonicalize ic c =? canonicalize ic x)
      | Cls cs => one (inSet ic cs)
      | Star cs => (fun '(w, ps) => w :: ps) <$> many (exec ic r') ic cs prev s
      | Plus cs =>
          match s with
          | c :: s' =>
              if inSet ic cs c
              then (fun '(w, ps) => (c :: w) :: ps)
                     <$> many (exec ic r') ic cs (Some c) s'
              else None
          | [] => None
          end
      | WordBoundary => zero (xorb (wordBefore prev) (wordAt s))
      | EndOfInput => zero (match s with [] => true | _ => false end)
      | Open | Close => zero true
      end
  end.

(** The text of the capture groups, from the pieces of a match. *)
Fixpoint captures (r : list atom) (ps : list jsstring) (cur : option jsstring)
  : list jsstring :=
  match r, ps with
  | a :: r', p :: ps' =>
      match a, cur with
      | Open, _ => captures r' ps' (Some [])
      | Close, Some g => g :: captures r' ps' None
      | Close, None => captures r' ps' None
      | _, Some g => captures r' ps' (Some (g ++ p))
      | _, None => captures r' ps' None
      end
  | _, _ => []
  end.

(** One match as the replace machinery sees it. *)
Record matchInfo := {
  m_before : jsstring;        (* the subject before the match *)
  m_text : jsstring;          (* the matched text *)
  m_groups : list jsstring;   (* the capture groups *)
  m_after : jsstring          (* the subject after the match *)
}.

(** The subject cut into matches and the units between them. *)
Inductive segment :=
| Gap (c : N)
| Hit (ps : list jsstring).

(** The scan of [String.prototype.replace] and [match]: leftmost match
    first; with the g flag the search resumes where the match ended (one
    unit further after an empty match), without it the scan stops after
    the first match.  [skip] counts the units still inside the last match. *)
Fixpoint scan (re : regex) (armed : bool) (skip : nat) (prev : option N)
  (s : jsstring) : list segment :=
  match skip with
  | S k =>
      match s with
      | c :: s' => scan re armed k (Some c) s'
      | [] => []
      end
  | O =>
      match (if armed then exec (ignoreCase re) (atoms re) prev s else None) with
      | Some ps =>
          Hit ps ::
          match s with
          | c :: s' =>
              match length (concat ps) with
              | O => Gap c :: scan re (global re) 0 (Some c) s'
              | S k => scan re (global re) k (Some c) s'
              end
          | [] => []
          end
      | None =>
          match s with
          | c :: s' => Gap c :: scan re armed 0 (Some c) s'
          | [] => []
          end
      end
  end.

Definition segments (re : regex) (s : jsstring) : list segment :=
  scan re true 0 None s.

Definition segText (g : segment) : jsstring :=
  match g with Gap c => [c] | Hit ps => concat ps end.

Definition infoAt (re : regex) (subject : jsstring) (pos : nat)
  (ps : list jsstring) : matchInfo :=
  {| m_before := take pos subject;
     m_text := concat ps;
     m_groups := captures (atoms re) ps None;
     m_after := drop (pos + length (concat ps)) subject |}.

(** The result text: gaps copied, each match replaced by [f] of it. *)
Fixpoint render (re : regex) (f : matchInfo -> jsstring) (subject : jsstring)
  (pos : nat) (segs : list segment) : jsstring :=
  match segs with
  | [] => []
  | Gap c :: rest => c :: render re f subject (S pos) rest
  | Hit ps :: rest =>
      f (infoAt re subject pos ps)
      ++ render re f subject (pos + length (concat ps)) rest
  end.

(** [s.replace(re, f)] with a replacer function. *)
Definition replaceWith (re : regex) (f : matchInfo -> jsstring)
  (s : jsstring) : jsstring :=
  render re f s 0 (segments re s).

(** [s.match(re)] for a regex without the g flag: the first match with
    its groups, or null. *)
Fixpoint firstHit (re : regex) (subject : jsstring) (pos : nat)
  (segs : list segment) : option matchInfo :=
  match segs with
  | [] => None
  | Gap _ :: rest => firstHit re subject (S pos) rest
  | Hit ps :: _ => Some (infoAt re subject pos ps)
  end.

Definition firstMatch (re : regex) (s : jsstring) : option matchInfo :=
  firstHit re s 0 (segments re s).

(** GetSubstitution of ECMAScript for a replacement template: $$ is a
    dollar sign, $& the match, $` the text before it, $' the text after
    it, $n and $nn a capture group when the pattern has that many (a
    two-digit reference beyond the last group is read as one digit and a
    literal digit); any other $ stands for itself.  The source uses no
    named groups, so $< is literal. *)
Definition isDigit (c : N) : bool := (chr "0" <=? c) && (c <=? chr "9").

Definition groupRef (groups : list jsstring) (index : N) (ref : jsstring)
  : jsstring :=
  if (1 <=? index) && (index <=? N.of_nat (length groups))
  then default [] (groups !! N.to_nat (index - 1))
  else ref.

Fixpoint getSubstitution (mi : matchInfo) (template : jsstring) : jsstring :=
  match template with
  | [] => []
  | c :: t1 =>
      if negb (c =? dollar) then c :: getSubstitution mi t1
      else
        match t1 with
        | [] => [c]
        | d1 :: t2 =>
            if d1 =? dollar then dollar :: getSubstitution mi t2
            else if d1 =? chr "&" then m_text mi ++ getSubstitution mi t2
            else if d1 =? chr "`" then m_before mi ++ getSubstitution mi t2
            else if d1 =? chr "'" then m_after mi ++ getSubstitution mi t2
            else if isDigit d1 then
              let one :=
                groupRef (m_groups mi) (d1 - chr "0") [c; d1]
                ++ getSubstitution mi t2 in
              match t2 with
              | d2 :: t3 =>
                  if isDigit d2 then
                    let index := 10 * (d1 - chr "0") + (d2 - chr "0") in
                    if N.of_nat (length (m_groups mi)) <? index then one
                    else groupRef (m_groups mi) index [c; d1; d2]
                         ++ getSubstitution mi t3
                  else one
              | [] => one
              end
            else c :: getSubstitution mi t1
        end
  end.

(** [s.replace(re, template)] with a replacement string. *)
Definition replace (re : regex) (template : jsstring) (s : jsstring)
  : jsstring :=
  replaceWith re (fun mi => getSubstitution mi template) s.

(** ** Run-time errors *)

(** A computation that may raise a TypeError (reading a property of
    undefined or null). *)
Inductive Exc (A : Type) :=
| Throw
| Ok (a : A).
Arguments Throw {A}.
Arguments Ok {A} a.

#[global] Instance Exc_bind : MBind Exc := fun A B k m =>
  match m with Throw => Throw | Ok a => k a end.

(** [s.replace(re, f)] where the replacer function may raise. *)
Fixpoint renderM (re : regex) (f : matchInfo -> Exc jsstring)
  (subject : jsstring) (pos : nat) (segs : list segment) : Exc jsstring :=
  match segs with
  | [] => Ok []
  | Gap c :: rest =>
      out ← renderM re f subject (S pos) rest; Ok (c :: out)
  | Hit ps :: rest =>
      x ← f (infoAt re subject pos ps);
      out ← renderM re f subject (pos + length (concat ps)) rest;
      Ok (x ++ out)
  end.

Definition replaceWithM (re : regex) (f : matchInfo -> Exc jsstring)
  (s : jsstring) : Exc jsstring :=
  renderM re f s 0 (segments re s).

(** ** Objects used as maps *)

(** The objects stored in the lookup tables: [{ value, region, label }] in
    byId and [{ value, region, id }] in byLabel. *)
Module Entry.
Record t := {
  value : jsstring;
  region : jsstring;
  label : option jsstring;   (* None: the object has no such property *)
  id : option jsstring
}.
End Entry.

(** What [obj[key]] can evaluate to on a lookup table. *)
Inductive jsval :=
| VUndefined
| VString (s : jsstring)
| VEntry (e : Entry.t)
| VBuiltin.   (* a function or object found on Object.prototype *)

(** An object literal [{}] filled by [obj[key] = entry]: its own
    properties, and the entry that an assignment to the key __proto__
    installed as its prototype (None: still Object.prototype). *)
Record jsobj := {
  own : gmap jsstring Entry.t;
  proto : option Entry.t
}.

Definition emptyObj : jsobj := {| own := ∅; proto := None |}.

Definition protoKey : jsstring := str "__proto__".

Definition builtinNames : list jsstring :=
  map str ["constructor"; "toString"; "toLocaleString"; "valueOf";
           "hasOwnProperty"; "isPrototypeOf"; "propertyIsEnumerable";
           "__defineGetter__"; "__defineSetter__"; "__lookupGetter__";
           "__lookupSetter__"]%string.

(** A property read that reaches Object.prototype. *)
Definition objectPrototype (k : jsstring) : jsval :=
  if bool_decide (k ∈ builtinNames) then VBuiltin else VUndefined.

(** [e[k]] on an entry, when [e] has the property itself. *)
Definition entryProp (e : Entry.t) (k : jsstring) : option jsstring :=
  if bool_decide (k = str "value") then Some (Entry.value e)
  else if bool_decide (k = str "region") then Some (Entry.region e)
  else if bool_decide (k = str "label") then Entry.label e
  else if bool_decide (k = str "id") then Entry.id e
  else None.

(** [o[k]] *)
Definition objGet (o : jsobj) (k : jsstring) : jsval :=
  if bool_decide (k = protoKey) then
    match proto o with Some e => VEntry e | None => VBuiltin end
  else
    match own o !! k with
    | Some e => VEntry e
    | None =>
        match proto o ≫= (fun e => entryProp e k) with
        | Some s => VString s
        | None => objectPrototype k
        end
    end.

(** [o[k] = e] *)
Definition objSet (o : jsobj) (k : jsstring) (e : Entry.t) : jsobj :=
  if bool_decide (k = protoKey) then {| own := own o; proto := Some e |}
  else {| own := <[k := e]> (own o); proto := proto o |}.

Definition truthy (v : jsval) : bool :=
  match v with
  | VUndefined => false
  | VString s => match s with [] => false | _ => true end
  | VEntry _ | VBuiltin => true
  end.

(** [v.k] for k among value, region, label, id: a TypeError on undefined,
    undefined (None) on a string or a builtin. *)
Definition getField (v : jsval) (k : jsstring) : Exc (option jsstring) :=
  match v with
  | VUndefined => Throw
  | VEntry e => Ok (entryProp e k)
  | VString _ | VBuiltin => Ok None
  end.

(** Truthiness of a string that may be null or undefined. *)
Definition truthyStr (v : option jsstring) : bool :=
  match v with Some (_ :: _) => true | _ => false end.

(** [v || d] *)
Definition orElse (v : option jsstring) (d : jsstring) : jsstring :=
  match v with Some ((_ :: _) as s) => s | _ => d end.

(** The property key of [o[v]]. *)
Definition toKey (v : option jsstring) : jsstring :=
  match v with Some s => s | None => str "null" end.

(** ** The CSV parser *)

(** The loop of [parseCSVLine]: [i] is the index, [fuel] bounds the number
    of iterations (the index grows at each one, so [length line] is
    enough).  The result is [result] and [cur] when the loop ends. *)
Fixpoint parseCSVLine_loop (fuel : nat) (line : jsstring) (i : nat)
  (result : list jsstring) (cur : jsstring) (inQuotes : bool)
  : list jsstring * jsstring :=
  match fuel with
  | O => (result, cur)
  | S fuel' =>
      match line !! i with
      | None => (result, cur)
      | Some ch =>
          if ch =? dq then
            if inQuotes && bool_decide (line !! (i + 1)%nat = Some dq)
            then (* escaped quote *)
              parseCSVLine_loop fuel' line (i + 2) result (cur ++ [dq]) inQuotes
            else parseCSVLine_loop fuel' line (i + 1) result cur (negb inQuotes)
          else if (ch =? chr ",") && negb inQuotes
          then parseCSVLine_loop fuel' line (i + 1) (result ++ [cur]) [] inQuotes
          else parseCSVLine_loop fuel' line (i + 1) result (cur ++ [ch]) inQuotes
      end
  end.

Definition parseCSVLine (line : jsstring) : list jsstring :=
  let '(result, cur) := parseCSVLine_loop (length line) line 0 [] [] false in
  result ++ [cur].

(** /\r\n/g *)
Definition crlfRegex : regex :=
  {| atoms := [Lit cr; Lit lf]; ignoreCase := false; global := true |}.

(** [obj[k] = v] on a row object, for a string [v]: an assignment of a
    string to the key __proto__ changes nothing. *)
Definition rowSet (obj : gmap jsstring jsstring) (k v : jsstring)
  : gmap jsstring jsstring :=
  if bool_decide (k = protoKey) then obj else <[k := v]> obj.

Definition isBlank (l : jsstring) : bool :=
  match trim l with [] => true | _ => false end.

(** The body of the loop of [parseCSV] for one data line, after the line
    is split: the values padded to the number of headers, and the object
    with [obj[headers[j]] = values[j]] for each header. *)
Definition makeRow (headers values : list jsstring) : gmap jsstring jsstring :=
  (* pad values if necessary *)
  let values := values ++ replicate (length headers - length values) [] in
  foldl (fun obj hv => rowSet obj hv.1 hv.2) ∅ (zip headers values).

Section Parser.

(** [String.prototype.toLowerCase] on a string with a code unit outside
    ASCII follows the Unicode case tables, which are not part of the
    repository. *)
Variable unicodeLower : jsstring -> jsstring.

Definition toLowerCase (s : jsstring) : jsstring :=
  if forallb isAscii s then map asciiLower s else unicodeLower s.

Definition parseCSV (text : jsstring) : list (gmap jsstring jsstring) :=
  let lines :=
    List.filter (fun l => negb (isBlank l))
      (split lf (replace crlfRegex [lf] text)) in
  match lines with
  | [] => []
  | header :: data =>
      let headers :=
        map (fun h => toLowerCase (trim h)) (parseCSVLine header) in
      map (fun line => makeRow headers (parseCSVLine line)) data
  end.

End Parser.

(** ** The lookup builder *)

Record Lookup := { byId : jsobj; byLabel : jsobj }.

(** [(r.k || d).toString().trim()] for a row [r]. *)
Definition rowField (r : gmap jsstring jsstring) (k : string) (d : jsstring)
  : jsstring :=
  trim (orElse (r !! str k) d).

(** The body of the loop of [buildLookup], for one row [r]. *)
Definition buildLookup_row (lookup : Lookup) (r : gmap jsstring jsstring)
  : Lookup :=
  let id := rowField r "id" [] in
  let label := rowField r "label" [] in
  let value := rowField r "value" (str "0") in
  let region := rowField r "region" (str "0") in
  {| byId :=
       if truthyStr (Some id)
       then objSet (byId lookup) id
              {| Entry.value := value; Entry.region := region;
                 Entry.label := Some label; Entry.id := None |}
       else byId lookup;
     byLabel :=
       if truthyStr (Some label)
       then objSet (byLabel lookup) label
              {| Entry.value := value; Entry.region := region;
                 Entry.label := None; Entry.id := Some id |}
       else byLabel lookup |}.

Definition buildLookup (rows : list (gmap jsstring jsstring)) : Lookup :=
  foldl buildLookup_row {| byId := emptyObj; byLabel := emptyObj |} rows.

(** ** The attribute merger *)

(** the quote regex of sanitizeAttrValue, with the g flag *)
Definition quoteRegex : regex :=
  {| atoms := [Lit dq]; ignoreCase := false; global := true |}.

Definition sanitizeAttrValue (v : option jsstring) : jsstring :=
  match v with
  | None => []
  | Some s => replace quoteRegex (str "&quot;") s
  end.

(** /<path\b[^>]*>/gi *)
Definition pathRegex : regex :=
  {| atoms := lit "<path" ++ [WordBoundary; Star (NotChar (chr ">")); Lit (chr ">")];
     ignoreCase := true; global := true |}.

(** /\s+NAME=Q[^Q]*Q/gi for NAME among long-name, value and region; here
    and below Q stands for the double quote. *)
Definition stripRegex (name : string) : regex :=
  {| atoms := [Plus Space] ++ lit name ++ lit "="
              ++ [Lit dq; Star (NotChar dq); Lit dq];
     ignoreCase := true; global := true |}.

(** /inkscape:label=Q(G)Q/i with G the group [^Q]* *)
Definition labelRegex : regex :=
  {| atoms := lit "inkscape:label="
              ++ [Lit dq; Open; Star (NotChar dq); Close; Lit dq];
     ignoreCase := true; global := false |}.

(** /\sid=Q(G)Q/i with G the group [^Q]* *)
Definition idRegex : regex :=
  {| atoms := [Cls Space] ++ lit "id="
              ++ [Lit dq; Open; Star (NotChar dq); Close; Lit dq];
     ignoreCase := true; global := false |}.

(** /(\s+id=Q)/i *)
Definition idInsertRegex : regex :=
  {| atoms := [Open; Plus Space] ++ lit "id=" ++ [Lit dq; Close];
     ignoreCase := true; global := false |}.

(** />\s*$/ *)
Definition closeRegex : regex :=
  {| atoms := [Lit (chr ">"); Star Space; EndOfInput];
     ignoreCase := false; global := false |}.

(** The first capture group of a match result, [m[1]]. *)
Definition group1 (m : option matchInfo) : option jsstring :=
  m ≫= (fun mi => m_groups mi !! 0%nat).

(** Remove any previously added attributes to avoid duplication. *)
Definition strip (tag : jsstring) : jsstring :=
  replace (stripRegex "region") []
    (replace (stripRegex "value") []
       (replace (stripRegex "long-name") [] tag)).

(** Determine values from the CSV lookup: (longName, value, region). *)
Definition resolve (lookup : Lookup) (inkscapeLabel elemId : option jsstring)
  : Exc (jsstring * jsstring * jsstring) :=
  let value := str "0" in
  let region := str "0" in
  let longName := orElse inkscapeLabel (str "None") in
  if truthyStr elemId && truthy (objGet (byId lookup) (toKey elemId)) then
    v ← getField (objGet (byId lookup) (toKey elemId)) (str "value");
    r ← getField (objGet (byId lookup) (toKey elemId)) (str "region");
    l ← getField (objGet (byId lookup) (toKey elemId)) (str "label");
    (* prefer CSV label for long-name if provided *)
    Ok (if truthyStr l then orElse l [] else longName,
        orElse v (str "0"), orElse r (str "0"))
  else if truthyStr inkscapeLabel
          && truthy (objGet (byLabel lookup) (toKey inkscapeLabel)) then
    v ← getField (objGet (byLabel lookup) (toKey inkscapeLabel)) (str "value");
    r ← getField (objGet (byLabel lookup) (toKey inkscapeLabel)) (str "region");
    _ ← getField (objGet (byLabel lookup) (toKey inkscapeLabel)) (str "id");
    Ok (longName, orElse v (str "0"), orElse r (str "0"))
  else Ok (longName, value, region).

Definition indent : jsstring := str "    ".

Definition newlineAttrs (longName value region : jsstring) : jsstring :=
  [lf] ++ indent ++ str "long-name=" ++ [dq]
    ++ sanitizeAttrValue (Some longName) ++ [dq]
  ++ [lf] ++ indent ++ str "value=" ++ [dq]
    ++ sanitizeAttrValue (Some value) ++ [dq]
  ++ [lf] ++ indent ++ str "region=" ++ [dq]
    ++ sanitizeAttrValue (Some region) ++ [dq].

(** The replacer function of [editSvg], applied to one matched tag. *)
Definition editTag (lookup : Lookup) (tag : jsstring) : Exc jsstring :=
  let clean := strip tag in
  let labelMatch := firstMatch labelRegex clean in
  let inkscapeLabel := group1 labelMatch in
  let idMatch := firstMatch idRegex clean in
  let elemId := group1 idMatch in
  '(longName, value, region) ← resolve lookup inkscapeLabel elemId;
  let attrs := newlineAttrs longName value region in
  match idMatch with
  | Some _ =>
      (* insert before the first occurrence of the id attribute *)
      Ok (replace idInsertRegex (attrs ++ str "$1") clean)
  | None =>
      (* no id attribute, insert before closing > *)
      let withoutClose := replace closeRegex [] clean in
      Ok (withoutClose ++ attrs ++ str ">")
  end.

Definition editSvg (svgStr : jsstring) (lookup : Lookup) : Exc jsstring :=
  replaceWithM pathRegex (fun m => editTag lookup (m_text m)) svgStr.

Section Run.
Variable unicodeLower : jsstring -> jsstring.

(** What [handleFiles] computes from the two texts. *)
Definition run (svgData csvData : jsstring) : Exc jsstring :=
  let rows := parseCSV unicodeLower csvData in
  let lookup := buildLookup rows in
  editSvg svgData lookup.

End Run.

(** ** Concrete inputs used in the examples below *)

(** The identity stands in for the Unicode case tables in the examples:
    every header there is ASCII, so the tables are never consulted. *)
Definition noUnicode (s : jsstring) : jsstring := s.

(** A path tag with an empty style-label and the id p1. *)
Definition tagEmptyLabel : jsstring :=
  str "<path inkscape:label=" ++ [dq; dq] ++ str " id=" ++ q "p1" ++ str "/>".

(** A table whose row p1 has an empty label and a blank value. *)
Definition csvBlankValue : jsstring :=
  str "id,label,value,region" ++ [lf] ++ str "p1,,   ,2".

(** A path tag whose only attribute is an empty style-label. *)
Definition tagOnlyEmptyLabel : jsstring :=
  str "<path inkscape:label=" ++ [dq; dq] ++ str ">".

(** The identifier-precedence example of the specification. *)
Definition tagNorte : jsstring :=
  str "<path id=" ++ q "p1" ++ str " inkscape:label=" ++ q "Norte" ++ str "/>".

Definition lookupNorte : Lookup :=
  {| byId :=
       objSet emptyObj (str "p1")
         {| Entry.value := str "7"; Entry.region := str "2";
            Entry.label := Some (str "North"); Entry.id := None |};
     byLabel :=
       objSet emptyObj (str "Norte")
         {| Entry.value := str "99"; Entry.region := str "99";
            Entry.label := None; Entry.id := Some (str "zz") |} |}.

Definition emptyLookup : Lookup :=
  {| byId := emptyObj; byLabel := emptyObj |}.

(** A table whose only row has a padded value and a padded region. *)
Definition csvPadded : jsstring :=
  str "id,label,value,region" ++ [lf] ++ str "a,Alfa, 10 , 5 ".

(** ** Vocabulary of the statements *)

(** What the builder stores for the field [k] (value or region) of a row:
    the field without its leading and trailing white space when it is
    present and non-empty, the literal 0 otherwise. *)
Definition storedOrZero (r : gmap jsstring jsstring) (k : string) : jsstring :=
  match r !! str k with
  | Some ((_ :: _) as v) => trim v
  | _ => str "0"
  end.

(** The entries the builder makes from a row. *)
Definition entryById (r : gmap jsstring jsstring) : Entry.t :=
  {| Entry.value := storedOrZero r "value";
     Entry.region := storedOrZero r "region";
     Entry.label := Some (rowField r "label" []);
     Entry.id := None |}.

Definition entryByLabel (r : gmap jsstring jsstring) : Entry.t :=
  {| Entry.value := storedOrZero r "value";
     Entry.region := storedOrZero r "region";
     Entry.label := None;
     Entry.id := Some (rowField r "id" []) |}.

(** The field-splitter in the words of the specification.  A state of the
    splitter is the fields finished so far, the field being read and
    whether the reader is inside quotes; [Splits fields cur inQuotes rest
    out] says that from this state the remaining text [rest] yields the
    fields [out]. *)
Inductive Splits
  : list jsstring -> jsstring -> bool -> jsstring -> list jsstring -> Prop :=
| Splits_end fields cur inQuotes :
    Splits fields cur inQuotes [] (fields ++ [cur])
| Splits_escaped fields cur rest out :
    (* a doubled quote inside a quoted field is one literal quote *)
    Splits fields (cur ++ [dq]) true rest out ->
    Splits fields cur true (dq :: dq :: rest) out
| Splits_toggle fields cur inQuotes rest out :
    (* any other quote toggles the inside-quotes state *)
    (inQuotes = true -> head rest <> Some dq) ->
    Splits fields cur (negb inQuotes) rest out ->
    Splits fields cur inQuotes (dq :: rest) out
| Splits_separator fields cur rest out :
    (* a comma outside quotes ends the field *)
    Splits (fields ++ [cur]) [] false rest out ->
    Splits fields cur false (chr "," :: rest) out
| Splits_copy fields cur inQuotes c rest out :
    (* every other character is copied *)
    c <> dq -> (c = chr "," -> inQuotes = true) ->
    Splits fields (cur ++ [c]) inQuotes rest out ->
    Splits fields cur inQuotes (c :: rest) out.

(** The same splitter as a function of the state and the remaining text. *)
Fixpoint splitFrom (fields : list jsstring) (cur : jsstring) (inQuotes : bool)
  (rest : jsstring) : list jsstring :=
  match rest with
  | [] => fields ++ [cur]
  | c :: rest' =>
      if c =? dq then
        match inQuotes, rest' with
        | true, c2 :: rest'' =>
            if c2 =? dq then splitFrom fields (cur ++ [dq]) true rest''
            else splitFrom fields cur false rest'
        | _, _ => splitFrom fields cur (negb inQuotes) rest'
        end
      else if (c =? chr ",") && negb inQuotes
      then splitFrom (fields ++ [cur]) [] inQuotes rest'
      else splitFrom fields (cur ++ [c]) inQuotes rest'
  end.

(** The quoted-field example of the specification. *)
Definition csvRegionNorth : jsstring :=
  str "id,label,value,region" ++ [lf]
  ++ str "1," ++ q "Region, North" ++ str ",10,5".

Definition recordRegionNorth : gmap jsstring jsstring :=
  <[str "id" := str "1"]>
    (<[str "label" := str "Region, North"]>
       (<[str "value" := str "10"]> (<[str "region" := str "5"]> ∅))).

(** Two code units that differ at most in the case of an ASCII letter,
    two strings that differ at most so, unit by unit, and two scans that
    cut two such strings at the same places. *)
Definition foldEq (c d : N) : Prop := asciiUpper c = asciiUpper d.

Definition sameLetters (s t : jsstring) : Prop := Forall2 foldEq s t.

Inductive sameSegment : segment -> segment -> Prop :=
| sameGap c d : foldEq c d -> sameSegment (Gap c) (Gap d)
| sameHit ps qs : Forall2 sameLetters ps qs -> sameSegment (Hit ps) (Hit qs).

Definition samePrev (p p' : option N) : Prop := option_Forall2 foldEq p p'.

(** Case analysis on every comparison of code units in the goal. *)
Ltac ncases :=
  repeat match goal with
    | |- context [?a <=? ?b] => destruct (N.leb_spec a b); try lia
    | |- context [?a =? ?b] => destruct (N.eqb_spec a b); try lia
    end.

(** An upper-case path tag with upper-case attribute names and a stale
    long-name attribute. *)
Definition tagUpper : jsstring :=
  str "<PATH LONG-NAME=" ++ q "old" ++ str " ID=" ++ q "p1"
  ++ str " INKSCAPE:LABEL=" ++ q "Norte" ++ str "/>".

Definition tagUpperMerged : jsstring :=
  str "<PATH" ++ newlineAttrs (str "North") (str "7") (str "2")
  ++ str " ID=" ++ q "p1" ++ str " INKSCAPE:LABEL=" ++ q "Norte" ++ str "/>".

(** A path tag in mixed case with a stale value attribute, a style-label
    of the table and no id. *)
Definition tagMixed : jsstring :=
  str "<Path Value=" ++ q "old" ++ str " Inkscape:Label=" ++ q "Norte"
  ++ str "/>".

Definition tagMixedMerged : jsstring :=
  str "<Path Inkscape:Label=" ++ q "Norte" ++ str "/"
  ++ newlineAttrs (str "Norte") (str "99") (str "99") ++ str ">".

(** A path tag with the id p1, and a table whose row p1 has a label with
    a dollar sign followed by a digit. *)
Definition svgDollar : jsstring := str "<path id=" ++ q "p1" ++ str "/>".

Definition csvDollar : jsstring :=
  str "id,label,value,region" ++ [lf] ++ str "p1,US$1,7,2".

(** What the merge makes of [svgDollar]: in the long-name line the two
    units $1 of the label are replaced by the text of the first capture
    group, the white space and the id= and quote that follow it. *)
Definition svgDollarOnce : jsstring :=
  str "<path" ++ [lf] ++ str "    long-name=" ++ [dq] ++ str "US id="
  ++ [dq; dq] ++ [lf] ++ str "    value=" ++ q "7"
  ++ [lf] ++ str "    region=" ++ q "2" ++ str " id=" ++ q "p1" ++ str "/>".

(** What a second merge makes of that. *)
Definition svgDollarTwice : jsstring :=
  str "<path" ++ [dq] ++ [lf] ++ str "    long-name=" ++ [dq] ++ str "US id="
  ++ [dq; dq] ++ [lf] ++ str "    value=" ++ q "7"
  ++ [lf] ++ str "    region=" ++ q "2" ++ str " id=" ++ q "p1" ++ str "/>".

(** The three attribute lines for the values of row p1, before the id. *)
Definition svgDollarExpected : jsstring :=
  str "<path" ++ newlineAttrs (str "US$1") (str "7") (str "2")
  ++ str " id=" ++ q "p1" ++ str "/>".

(** A path tag without id and with a space before its closing angle
    bracket; what one merge makes of it, whatever the table; and what a
    second merge makes of that. *)
Definition svgSpace : jsstring := str "<path d=" ++ q "M0" ++ str " >".

Definition svgSpaceOnce : jsstring :=
  str "<path d=" ++ q "M0" ++ str " "
  ++ newlineAttrs (str "None") (str "0") (str "0") ++ str ">".

Definition svgSpaceTwice : jsstring :=
  str "<path d=" ++ q "M0"
  ++ newlineAttrs (str "None") (str "0") (str "0") ++ str ">".

(** A path tag with a style-label that holds $1 and an empty id. *)
Definition tagEmptyId : jsstring :=
  str "<path inkscape:label=" ++ q "US$1" ++ str " id=" ++ [dq; dq]
  ++ str "/>".

Definition tagEmptyIdMerged : jsstring :=
  str "<path inkscape:label=" ++ q "US$1"
  ++ [lf] ++ str "    long-name=" ++ [dq] ++ str "US id=" ++ [dq; dq]
  ++ [lf] ++ str "    value=" ++ q "0"
  ++ [lf] ++ str "    region=" ++ q "0" ++ str " id=" ++ [dq; dq] ++ str "/>".

Definition tagEmptyIdExpected : jsstring :=
  str "<path inkscape:label=" ++ q "US$1"
  ++ newlineAttrs (str "US$1") (str "0") (str "0")
  ++ str " id=" ++ [dq; dq] ++ str "/>".

(** A path tag in which removing one value attribute joins the text
    around it into another. *)
Definition svgSplitValue : jsstring :=
  str "<g><path val value=" ++ q "x" ++ str "ue=" ++ q "y" ++ str "></g>".

Definition svgSplitValueMerged : jsstring :=
  str "<g><path value=" ++ q "y"
  ++ newlineAttrs (str "None") (str "0") (str "0") ++ str "></g>".

(** The number of attributes of the given name a text carries, counted
    as the strip pass would find them. *)
Definition countAttr (name : string) (s : jsstring) : nat :=
  length (List.filter (fun g => match g with Hit _ => true | Gap _ => false end)
            (segments (stripRegex name) s)).

(** The leftmost match of [re] in [s] with [p] the unit before [s]: the
    text skipped before the match and the pieces of the match. *)
Fixpoint findFirst (re : regex) (p : option N) (s : jsstring)
  : option (jsstring * list jsstring) :=
  match exec (ignoreCase re) (atoms re) p s with
  | Some ps => Some ([], ps)
  | None =>
      match s with
      | [] => None
      | c :: s' => (fun '(g, ps) => (c :: g, ps)) <$> findFirst re (Some c) s'
      end
  end.

(** The unit before the end of [g], when [p] is the unit before [g]. *)
Definition prevAfter (p : option N) (g : jsstring) : option N :=
  match last g with Some c => Some c | None => p end.

(** What a global replace by the empty string keeps of a segment. *)
Definition gapText (g : segment) : jsstring :=
  match g with Gap c => [c] | Hit _ => [] end.

(** A text that ends with its only closing angle bracket. *)
Definition soleClose (s : jsstring) : Prop :=
  exists t, s = t ++ [chr ">"] /\ chr ">" ∉ t.

(** What the merge makes of one segment of the document: a unit between
    two tags stays, a tag is rewritten by [editTag]. *)
Definition framed (lookup : Lookup) (g : segment) (o : jsstring) : Prop :=
  match g with
  | Gap c => o = [c]
  | Hit ps => editTag lookup (concat ps) = Ok o
  end.

(** A field written between quotes, each quote of the field doubled, and
    a row of such fields with commas between them. *)
Definition quoteField (f : jsstring) : jsstring :=
  dq :: concat (map (fun c => if c =? dq then [dq; dq] else [c]) f) ++ [dq].

Fixpoint quoteRow (fields : list jsstring) : jsstring :=
  match fields with
  | [] => []
  | [f] => quoteField f
  | f :: rest => quoteField f ++ chr "," :: quoteRow rest
  end.
(** ** Vocabulary of the further properties *)

(** The text without each carriage return that a line feed follows. *)
Fixpoint dropCr (s : jsstring) : jsstring :=
  match s with
  | c :: s' =>
      if (c =? cr) && bool_decide (head s' = Some lf) then dropCr s'
      else c :: dropCr s'
  | [] => []
  end.

(** What a replace makes of a segment when the replacement is the same
    text [t] for every match. *)
Definition fillText (t : jsstring) (g : segment) : jsstring :=
  match g with Gap c => [c] | Hit _ => t end.

(** A decidable closed proposition, settled by evaluation. *)
Ltac evaluated := apply (bool_decide_unpack _); vm_compute; exact I.

(** A text with each double quote replaced by the entity &quot;. *)
Definition escapeQuotes (s : jsstring) : jsstring :=
  concat (map (fun c => if c =? dq then str "&quot;" else [c]) s).

(** [foldPrefix w s]: the text [s] starts with [w], up to the case of
    ASCII letters. *)
Fixpoint foldPrefix (w s : jsstring) : bool :=
  match w with
  | [] => true
  | x :: w' =>
      match s with
      | c :: s' => (asciiUpper c =? asciiUpper x) && foldPrefix w' s'
      | [] => false
      end
  end.

(** [anywhere P s]: [P] holds of [s] or of what is left of [s] after some
    of its first units. *)
Fixpoint anywhere (P : jsstring -> bool) (s : jsstring) : bool :=
  P s || match s with
         | _ :: s' => anywhere P s'
         | [] => false
         end.

(** The names of the three attributes the merger writes. *)
Definition targets : list string := ["long-name"; "value"; "region"]%string.

(** [attrAt name s]: the text [s] starts with a unit of white space, the
    name in any letter case, an equals sign and a double quote: the start
    of an attribute of this name, as the strip pattern looks for it. *)
Definition attrAt (name : string) (s : jsstring) : bool :=
  match s with
  | sp :: s' => isSpace sp && foldPrefix (str name ++ str "=" ++ [dq]) s'
  | [] => false
  end.

(** [endsInSpace s]: the last unit of the text [s] is white space. *)
Definition endsInSpace (s : jsstring) : bool :=
  match last s with
  | Some c => isSpace c
  | None => false
  end.

(** [eqAfter s]: the text [s] reads optional white space and then an
    equals sign. *)
Definition eqAfter (s : jsstring) : bool :=
  bool_decide (head (dropSpace s) = Some (chr "=")).

(** [nameEq name s]: the text [s] starts with the name in any letter
    case, then optional white space and an equals sign: the start of an
    attribute of this name, whatever stands before the name and whatever
    quotes follow the equals sign. *)
Definition nameEq (name : string) (s : jsstring) : bool :=
  foldPrefix (str name) s && eqAfter (drop (length (str name)) s).

(** The number of places of a text at which [P] holds: the text itself
    and what is left of it after each of its units. *)
Fixpoint occurrences (P : jsstring -> bool) (s : jsstring) : nat :=
  ((if P s then 1 else 0)
   + match s with
     | _ :: s' => occurrences P s'
     | [] => 0
     end)%nat.

(** One line of [newlineAttrs]: a line feed, the indentation, the name,
    and the value, already escaped, between double quotes. *)
Definition attrLine (name : string) (v : jsstring) : jsstring :=
  [lf] ++ indent ++ str name ++ str "=" ++ [dq] ++ v ++ [dq].

(** A text holds no dollar sign and does not end with an equals sign. *)
Definition plain (x : jsstring) : Prop :=
  (dollar ∉ x) /\ last x <> Some (chr "=").

(** The unit before the last unit of a text is white space. *)
Definition spaceBeforeLast (s : jsstring) : bool :=
  match rev s with
  | _ :: c :: _ => isSpace c
  | _ => false
  end.

(** [pathHead s]: the tag pattern matches at the front of [s]: the five
    units of the opening of a path tag in any letter case, then no word
    character, and a closing angle bracket further on. *)
Definition pathHead (s : jsstring) : bool :=
  foldPrefix (str "<path") s && negb (wordAt (drop 5 s))
  && bool_decide (chr ">" ∈ drop 5 s).

(** A tag on which the merge can be repeated.  After the strip pass the
    tag holds no start of any of the three attributes and its opening is
    still followed by a unit that is no word character; when it has no id
    attribute, no white space stands before its closing angle bracket;
    and the three values resolved for it hold no dollar sign and no
    closing angle bracket and do not end with an equals sign. *)
Definition mergeable (lookup : Lookup) (tag : jsstring) : Prop :=
  let clean := strip tag in
  Forall (fun name => anywhere (attrAt name) clean = false) targets
  /\ wordAt (drop 5 clean) = false
  /\ (firstMatch idRegex clean = None -> spaceBeforeLast clean = false)
  /\ forall longName value region,
       resolve lookup (group1 (firstMatch labelRegex clean))
         (group1 (firstMatch idRegex clean))
       = Ok (longName, value, region) ->
       Forall (fun x => plain x /\ (chr ">" ∉ x)) [longName; value; region].

(** A document and what the merge makes of it, unit by unit and tag by
    tag: a unit at which the tag pattern does not match stays; a tag is
    replaced by a text that the tag pattern matches as a whole, wherever
    it stands, that starts with the same five units and that the merge of
    a tag leaves as it is. *)
Inductive merged (lookup : Lookup) : jsstring -> jsstring -> Prop :=
| merged_nil : merged lookup [] []
| merged_gap c s s' :
    pathHead (c :: s) = false ->
    merged lookup s s' -> merged lookup (c :: s) (c :: s')
| merged_tag tag t s s' :
    pathHead tag = true -> pathHead t = true ->
    soleClose tag -> soleClose t ->
    take 5 t = take 5 tag ->
    editTag lookup t = Ok t ->
    merged lookup s s' -> merged lookup (tag ++ s) (t ++ s').

(** A document with two path tags, one with an id of the table and one
    without id. *)
Definition svgTwoTags : jsstring :=
  str "<g><path id=" ++ q "p1" ++ str "/> <path d=" ++ q "M0" ++ str "/></g>".


(** * Properties *)

(** ** No run-time error *)

Lemma getField_truthy (v : jsval) (k : jsstring) :
  truthy v = true -> exists o, getField v k = Ok o.
Proof. destruct v; simpl; intros H; try discriminate; eauto. Qed.

Lemma resolve_ok (lookup : Lookup) (inkscapeLabel elemId : option jsstring) :
  exists t, resolve lookup inkscapeLabel elemId = Ok t.
Proof.
  unfold resolve.
  destruct (truthyStr elemId && truthy (objGet (byId lookup) (toKey elemId)))
    eqn:Hid.
  - apply andb_true_iff in Hid as [_ Hv].
    destruct (objGet (byId lookup) (toKey elemId)); try discriminate;
      simpl; eauto.
  - destruct (truthyStr inkscapeLabel
              && truthy (objGet (byLabel lookup) (toKey inkscapeLabel)))
      eqn:Hlabel; [|eauto].
    apply andb_true_iff in Hlabel as [_ Hv].
    destruct (objGet (byLabel lookup) (toKey inkscapeLabel)); try discriminate;
      simpl; eauto.
Qed.

Lemma editTag_ok (lookup : Lookup) (tag : jsstring) :
  exists out, editTag lookup tag = Ok out.
Proof.
  unfold editTag.
  destruct (resolve_ok lookup
              (group1 (firstMatch labelRegex (strip tag)))
              (group1 (firstMatch idRegex (strip tag)))) as [[[ln v] r] ->].
  simpl. destruct (firstMatch idRegex (strip tag)); eauto.
Qed.

Lemma renderM_ok (re : regex) (f : matchInfo -> Exc jsstring)
  (subject : jsstring) (segs : list segment) :
  (forall m, exists o, f m = Ok o) ->
  forall pos, exists out, renderM re f subject pos segs = Ok out.
Proof.
  intros Hf. induction segs as [|[c|ps] rest IH]; intros pos; simpl.
  - eauto.
  - destruct (IH (S pos)) as [out ->]. simpl. eauto.
  - destruct (Hf (infoAt re subject pos ps)) as [x ->].
    destruct (IH (pos + length (concat ps))%nat) as [out ->]. simpl. eauto.
Qed.

Lemma editSvg_ok (svgStr : jsstring) (lookup : Lookup) :
  exists out, editSvg svgStr lookup = Ok out.
Proof.
  unfold editSvg, replaceWithM. apply renderM_ok.
  intros m. apply editTag_ok.
Qed.

(** Once the fuel covers what is left of the line, more fuel changes
    nothing: the loop has ended. *)
Lemma parseCSVLine_loop_fuel (line : jsstring) (fuel : nat) :
  forall fuel' i result cur inQuotes,
    (length line - i <= fuel)%nat -> (fuel <= fuel')%nat ->
    parseCSVLine_loop fuel' line i result cur inQuotes
    = parseCSVLine_loop fuel line i result cur inQuotes.
Proof.
  induction fuel as [|fuel IH]; intros fuel' i result cur inQuotes Hi Hf.
  - destruct fuel'; [done|]. simpl.
    by rewrite lookup_ge_None_2 by lia.
  - destruct fuel' as [|fuel']; [lia|]. simpl.
    destruct (line !! i) as [c|] eqn:E; [|done].
    apply lookup_lt_Some in E.
    destruct (c =? dq).
    + destruct (inQuotes && bool_decide (line !! (i + 1)%nat = Some dq));
        apply IH; lia.
    + destruct ((c =? chr ",") && negb inQuotes); apply IH; lia.
Qed.

(** C8.  The merge raises no error whatever the document and the lookup
    tables, and neither does the whole run on any two texts: the guarded
    property reads never meet undefined.  Parsing and building are total
    functions; the one loop modelled with fuel, that of [parseCSVLine],
    has ended when its fuel, the length of the line, is spent. *)
Theorem core_total (unicodeLower : jsstring -> jsstring) :
  (forall svgStr lookup, exists out, editSvg svgStr lookup = Ok out)
  /\ (forall svgData csvData,
        exists out, run unicodeLower svgData csvData = Ok out)
  /\ (forall line fuel, (length line <= fuel)%nat ->
        parseCSVLine_loop fuel line 0 [] [] false
        = parseCSVLine_loop (length line) line 0 [] [] false).
Proof.
  split; [|split].
  - apply editSvg_ok.
  - intros svgData csvData. unfold run. apply editSvg_ok.
  - intros line fuel Hf. apply parseCSVLine_loop_fuel; lia.
Qed.

(** ** The matcher *)

(** What a match consumed is a prefix of the text it was tried on. *)
Lemma many_prefix (k : option N -> jsstring -> option (list jsstring))
  (ic : bool) (cs : charset) :
  (forall p s ps, k p s = Some ps -> exists rest, s = concat ps ++ rest) ->
  forall s p w ps, many k ic cs p s = Some (w, ps) ->
    exists rest, s = w ++ concat ps ++ rest.
Proof.
  intros Hk.
  assert (Hstop : forall p s w ps, pair [] <$> k p s = Some (w, ps) ->
            exists rest, s = w ++ concat ps ++ rest).
  { intros p s w ps H. destruct (k p s) as [ps'|] eqn:E; [|done].
    simpl in H. injection H as <- <-. by apply Hk in E. }
  induction s as [|c s IH]; intros p w ps H; simpl in H.
  - by apply Hstop in H.
  - destruct (inSet ic cs c); [|by apply Hstop in H].
    destruct (many k ic cs (Some c) s) as [[w' ps']|] eqn:E.
    + injection H as <- <-. apply IH in E as [rest ->]. by exists rest.
    + by apply Hstop in H.
Qed.

Lemma exec_prefix (ic : bool) (r : list atom) :
  forall p s ps, exec ic r p s = Some ps -> exists rest, s = concat ps ++ rest.
Proof.
  induction r as [|a r IH]; intros p s ps H.
  - injection H as <-. by exists s.
  - assert (Hzero : forall b : bool,
              (if b then cons [] <$> exec ic r p s else None) = Some ps ->
              exists rest, s = concat ps ++ rest).
    { intros [|] Hb; [|done].
      destruct (exec ic r p s) as [ps'|] eqn:E; [|done].
      injection Hb as <-. by apply IH in E. }
    assert (Hone : forall ok : N -> bool,
              match s with
              | c :: s' => if ok c then cons [c] <$> exec ic r (Some c) s' else None
              | [] => None
              end = Some ps ->
              exists rest, s = concat ps ++ rest).
    { intros ok Ho. destruct s as [|c s]; [done|].
      destruct (ok c); [|done].
      destruct (exec ic r (Some c) s) as [ps'|] eqn:E; [|done].
      injection Ho as <-. apply IH in E as [rest ->]. by exists rest. }
    destruct a; simpl in H.
    + by apply Hone in H.
    + by apply Hone in H.
    + destruct (many (exec ic r) ic cs p s) as [[w ps']|] eqn:E; [|done].
      injection H as <-. apply (many_prefix _ _ _ IH) in E as [rest ->].
      exists rest. simpl. by rewrite <- app_assoc.
    + destruct s as [|c s]; [done|].
      destruct (inSet ic cs c); [|done].
      destruct (many (exec ic r) ic cs (Some c) s) as [[w ps']|] eqn:E; [|done].
      injection H as <-. apply (many_prefix _ _ _ IH) in E as [rest ->].
      exists rest. simpl. by rewrite <- app_assoc.
    + by apply Hzero in H.
    + by apply Hzero in H.
    + by apply (Hzero true) in H.
    + by apply (Hzero true) in H.
Qed.

(** The segments of a scan spell the text scanned. *)
Lemma scan_text (re : regex) :
  forall s armed skip p, (skip <= length s)%nat ->
    concat (map segText (scan re armed skip p s)) = drop skip s.
Proof.
  induction s as [|c s IH]; intros armed skip p Hskip.
  - destruct skip; [|simpl in Hskip; lia]. simpl.
    destruct armed; [|done].
    destruct (exec (ignoreCase re) (atoms re) p []) as [ps|] eqn:E; [|done].
    simpl. apply exec_prefix in E as [rest E].
    symmetry in E. apply app_eq_nil in E as [-> _]. done.
  - destruct skip as [|skip]; simpl.
    + destruct (if armed then exec (ignoreCase re) (atoms re) p (c :: s) else None)
        as [ps|] eqn:E.
      * destruct armed; [|done]. apply exec_prefix in E as [rest E].
        simpl. destruct (length (concat ps)) as [|n] eqn:Hn.
        -- apply length_zero_iff_nil in Hn. rewrite Hn. simpl.
           rewrite IH by lia. done.
        -- destruct (concat ps) as [|c' w]; [done|].
           simpl in E, Hn. injection E as <- ->. injection Hn as <-.
           rewrite IH by (rewrite length_app; lia).
           by rewrite drop_app_length.
      * simpl. rewrite IH by lia. done.
    + simpl in Hskip. apply IH. lia.
Qed.

Lemma segments_text (re : regex) (s : jsstring) :
  concat (map segText (segments re s)) = s.
Proof. unfold segments. by rewrite scan_text by lia. Qed.

(** ** The leftmost match *)

Lemma scan_disarmed (re : regex) :
  forall s skip p, scan re false skip p s = map Gap (drop skip s).
Proof.
  induction s as [|c s IH]; intros skip p; destruct skip; simpl; try done.
  by rewrite IH.
Qed.

Lemma prevAfter_cons (p : option N) (c : N) (g : jsstring) :
  prevAfter p (c :: g) = prevAfter (Some c) g.
Proof.
  unfold prevAfter. destruct g as [|d g]; [done|].
  change (last (c :: d :: g)) with (last (d :: g)).
  destruct (last (d :: g)) eqn:E; [done|]. by apply last_None in E.
Qed.

(** Where the leftmost match is, and that no match starts before it. *)
Lemma findFirst_Some (re : regex) :
  forall s p g ps, findFirst re p s = Some (g, ps) ->
    exists post, s = g ++ concat ps ++ post
      /\ exec (ignoreCase re) (atoms re) (prevAfter p g) (concat ps ++ post) = Some ps
      /\ forall g1 g2, g = g1 ++ g2 -> g2 <> [] ->
           exec (ignoreCase re) (atoms re) (prevAfter p g1) (g2 ++ concat ps ++ post) = None.
Proof.
  induction s as [|c s IH]; intros p g ps H; simpl in H.
  - destruct (exec (ignoreCase re) (atoms re) p []) as [ps'|] eqn:E; [|done].
    injection H as <- <-. destruct (exec_prefix _ _ _ _ _ E) as [post Hp].
    exists post. split; [done|]. split; [by rewrite <- Hp|].
    intros g1 g2 Hg Hne. symmetry in Hg. by apply app_eq_nil in Hg as [_ ->].
  - destruct (exec (ignoreCase re) (atoms re) p (c :: s)) as [ps'|] eqn:E.
    + injection H as <- <-. destruct (exec_prefix _ _ _ _ _ E) as [post Hp].
      exists post. split; [done|]. split; [by rewrite <- Hp|].
      intros g1 g2 Hg Hne. symmetry in Hg. by apply app_eq_nil in Hg as [_ ->].
    + destruct (findFirst re (Some c) s) as [[g' ps']|] eqn:F; [|done].
      injection H as <- <-.
      destruct (IH _ _ _ F) as (post & -> & Hex & Hno).
      exists post. split; [done|]. split; [by rewrite prevAfter_cons|].
      intros g1 g2 Hg Hne. destruct g1 as [|c1 g1].
      * simpl in Hg. subst g2. exact E.
      * simpl in Hg. injection Hg as <- ->. rewrite prevAfter_cons.
        by apply Hno.
Qed.

Lemma findFirst_None (re : regex) :
  forall s p, findFirst re p s = None ->
    forall g1 g2, s = g1 ++ g2 ->
      exec (ignoreCase re) (atoms re) (prevAfter p g1) g2 = None.
Proof.
  induction s as [|c s IH]; intros p H g1 g2 Hs; simpl in H.
  - symmetry in Hs. apply app_eq_nil in Hs as [-> ->].
    change (prevAfter p []) with p.
    by destruct (exec (ignoreCase re) (atoms re) p []).
  - destruct (exec (ignoreCase re) (atoms re) p (c :: s)) eqn:E; [done|].
    destruct (findFirst re (Some c) s) as [[g' ps']|] eqn:F; [done|].
    destruct g1 as [|c1 g1].
    + simpl in Hs. subst g2. exact E.
    + simpl in Hs. injection Hs as <- ->. rewrite prevAfter_cons. by eapply IH.
Qed.

(** The scan of a regex without the g flag, from its leftmost match. *)
Lemma scan_findFirst (re : regex) :
  global re = false ->
  forall s p,
    scan re true 0 p s =
      match findFirst re p s with
      | Some (g, ps) =>
          map Gap g ++ Hit ps :: map Gap (drop (length g + length (concat ps)) s)
      | None => map Gap s
      end.
Proof.
  intros Hg. induction s as [|c s IH]; intros p; simpl.
  - destruct (exec (ignoreCase re) (atoms re) p []); simpl; [|done].
    by rewrite drop_nil.
  - destruct (exec (ignoreCase re) (atoms re) p (c :: s)) as [ps|] eqn:E.
    + rewrite Hg. simpl. f_equal.
      destruct (length (concat ps)); simpl.
      * by rewrite scan_disarmed.
      * by rewrite scan_disarmed.
    + rewrite IH. destruct (findFirst re (Some c) s) as [[g ps]|]; simpl; done.
Qed.

Lemma render_gaps (re : regex) (f : matchInfo -> jsstring) (subject : jsstring) :
  forall g pos rest,
    render re f subject pos (map Gap g ++ rest)
    = g ++ render re f subject (pos + length g) rest.
Proof.
  induction g as [|c g IH]; intros pos rest; simpl.
  - by rewrite Nat.add_0_r.
  - rewrite IH. by replace (pos + S (length g))%nat with (S pos + length g)%nat by lia.
Qed.

Lemma render_only_gaps (re : regex) (f : matchInfo -> jsstring)
  (subject g : jsstring) (pos : nat) :
  render re f subject pos (map Gap g) = g.
Proof.
  rewrite <- (app_nil_r (map Gap g)), render_gaps. simpl. by rewrite app_nil_r.
Qed.

(** [replace] for a regex without the g flag. *)
Lemma replace_first (re : regex) (template s : jsstring) :
  global re = false ->
  replace re template s =
    match findFirst re None s with
    | Some (g, ps) =>
        g ++ getSubstitution (infoAt re s (length g) ps) template
          ++ drop (length g + length (concat ps)) s
    | None => s
    end.
Proof.
  intros Hg. unfold replace, replaceWith, segments.
  rewrite scan_findFirst by done.
  destruct (findFirst re None s) as [[g ps]|].
  - rewrite render_gaps. simpl. by rewrite render_only_gaps.
  - apply render_only_gaps.
Qed.

Lemma firstHit_gaps (re : regex) (subject : jsstring) :
  forall g pos rest,
    firstHit re subject pos (map Gap g ++ rest)
    = firstHit re subject (pos + length g) rest.
Proof.
  induction g as [|c g IH]; intros pos rest; simpl.
  - by rewrite Nat.add_0_r.
  - rewrite IH. by replace (pos + S (length g))%nat with (S pos + length g)%nat by lia.
Qed.

Lemma firstMatch_findFirst (re : regex) (s : jsstring) :
  global re = false ->
  firstMatch re s =
    (fun '(g, ps) => infoAt re s (length g) ps) <$> findFirst re None s.
Proof.
  intros Hg. unfold firstMatch, segments. rewrite scan_findFirst by done.
  destruct (findFirst re None s) as [[g ps]|]; simpl.
  - by rewrite firstHit_gaps.
  - rewrite <- (app_nil_r (map Gap s)). by rewrite firstHit_gaps.
Qed.

(** ** Inversion of matches *)

(** What a repetition consumed lies in its class, and the rest of the
    pattern matched what follows. *)
Lemma many_spec (k : option N -> jsstring -> option (list jsstring))
  (ic : bool) (cs : charset) :
  forall s p w ps, many k ic cs p s = Some (w, ps) ->
    Forall (fun c => inSet ic cs c = true) w
    /\ exists rest, s = w ++ rest /\ k (prevAfter p w) rest = Some ps.
Proof.
  assert (Hstop : forall p s w ps, pair [] <$> k p s = Some (w, ps) ->
            Forall (fun c => inSet ic cs c = true) w
            /\ exists rest, s = w ++ rest /\ k (prevAfter p w) rest = Some ps).
  { intros p s w ps H. destruct (k p s) as [ps'|] eqn:E; [|done].
    simpl in H. injection H as <- <-. split; [constructor|]. by exists s. }
  induction s as [|c s IH]; intros p w ps H; simpl in H.
  - by apply Hstop in H.
  - destruct (inSet ic cs c) eqn:Hc; [|by apply Hstop in H].
    destruct (many k ic cs (Some c) s) as [[w' ps']|] eqn:E.
    + injection H as <- <-. apply IH in E as (Hw & rest & -> & Hk).
      split; [by constructor|]. exists rest. split; [done|].
      by rewrite prevAfter_cons.
    + by apply Hstop in H.
Qed.

(** A repetition whose class excludes the unit that follows it is not
    retried: it takes the whole run or the match fails. *)
Lemma many_greedy (k : option N -> jsstring -> option (list jsstring))
  (ic : bool) (cs : charset) :
  (forall p c s, inSet ic cs c = true -> k p (c :: s) = None) ->
  forall w rest p,
    Forall (fun c => inSet ic cs c = true) w ->
    (forall c s, rest = c :: s -> inSet ic cs c = false) ->
    many k ic cs p (w ++ rest) = pair w <$> k (prevAfter p w) rest.
Proof.
  intros Hk. induction w as [|c w IH]; intros rest p Hw Hrest; simpl.
  - destruct rest as [|c s]; simpl; [done|]. by rewrite (Hrest c s eq_refl).
  - apply Forall_cons in Hw as [Hc Hw]. rewrite Hc.
    rewrite (IH rest (Some c) Hw Hrest), prevAfter_cons.
    destruct (k (prevAfter (Some c) w) rest) as [ps|] eqn:E; simpl; [done|].
    destruct w as [|c' w]; simpl.
    + by rewrite Hk.
    + by rewrite Hk.
Qed.

(** Inversion of a match, atom by atom. *)
Lemma exec_Lit_inv (ic : bool) (x : N) (r : list atom) (p : option N)
  (s : jsstring) (ps : list jsstring) :
  exec ic (Lit x :: r) p s = Some ps ->
  exists c s' ps', s = c :: s' /\ canonicalize ic c = canonicalize ic x
    /\ ps = [c] :: ps' /\ exec ic r (Some c) s' = Some ps'.
Proof.
  simpl. destruct s as [|c s]; [done|].
  destruct (canonicalize ic c =? canonicalize ic x) eqn:E; [|done].
  apply N.eqb_eq in E.
  destruct (exec ic r (Some c) s) as [ps'|] eqn:Er; [|done].
  intros [= <-]. by exists c, s, ps'.
Qed.

Lemma exec_Cls_inv (ic : bool) (cs : charset) (r : list atom) (p : option N)
  (s : jsstring) (ps : list jsstring) :
  exec ic (Cls cs :: r) p s = Some ps ->
  exists c s' ps', s = c :: s' /\ inSet ic cs c = true
    /\ ps = [c] :: ps' /\ exec ic r (Some c) s' = Some ps'.
Proof.
  simpl. destruct s as [|c s]; [done|].
  destruct (inSet ic cs c) eqn:E; [|done].
  destruct (exec ic r (Some c) s) as [ps'|] eqn:Er; [|done].
  intros [= <-]. by exists c, s, ps'.
Qed.

Lemma exec_Star_inv (ic : bool) (cs : charset) (r : list atom) (p : option N)
  (s : jsstring) (ps : list jsstring) :
  exec ic (Star cs :: r) p s = Some ps ->
  exists w rest ps', s = w ++ rest /\ Forall (fun c => inSet ic cs c = true) w
    /\ ps = w :: ps' /\ exec ic r (prevAfter p w) rest = Some ps'.
Proof.
  simpl. destruct (many (exec ic r) ic cs p s) as [[w ps']|] eqn:E; [|done].
  intros [= <-]. apply many_spec in E as (Hw & rest & -> & Hk).
  by exists w, rest, ps'.
Qed.

Lemma exec_Plus_inv (ic : bool) (cs : charset) (r : list atom) (p : option N)
  (s : jsstring) (ps : list jsstring) :
  exec ic (Plus cs :: r) p s = Some ps ->
  exists w rest ps', s = w ++ rest /\ w <> []
    /\ Forall (fun c => inSet ic cs c = true) w
    /\ ps = w :: ps' /\ exec ic r (prevAfter p w) rest = Some ps'.
Proof.
  simpl. destruct s as [|c s]; [done|].
  destruct (inSet ic cs c) eqn:Hc; [|done].
  destruct (many (exec ic r) ic cs (Some c) s) as [[w ps']|] eqn:E; [|done].
  intros [= <-]. apply many_spec in E as (Hw & rest & -> & Hk).
  exists (c :: w), rest, ps'. split; [done|]. split; [done|].
  split; [by constructor|]. split; [done|]. by rewrite prevAfter_cons.
Qed.

Lemma exec_Open_inv (ic : bool) (r : list atom) (p : option N)
  (s : jsstring) (ps : list jsstring) :
  exec ic (Open :: r) p s = Some ps ->
  exists ps', ps = [] :: ps' /\ exec ic r p s = Some ps'.
Proof.
  simpl. destruct (exec ic r p s) as [ps'|]; [|done].
  intros [= <-]. by exists ps'.
Qed.

Lemma exec_Close_inv (ic : bool) (r : list atom) (p : option N)
  (s : jsstring) (ps : list jsstring) :
  exec ic (Close :: r) p s = Some ps ->
  exists ps', ps = [] :: ps' /\ exec ic r p s = Some ps'.
Proof.
  simpl. destruct (exec ic r p s) as [ps'|]; [|done].
  intros [= <-]. by exists ps'.
Qed.

Lemma exec_End_inv (ic : bool) (r : list atom) (p : option N)
  (s : jsstring) (ps : list jsstring) :
  exec ic (EndOfInput :: r) p s = Some ps ->
  exists ps', s = [] /\ ps = [] :: ps' /\ exec ic r p [] = Some ps'.
Proof.
  simpl. destruct s; [|done].
  destruct (exec ic r p []) as [ps'|]; [|done].
  intros [= <-]. by exists ps'.
Qed.

(** Inversion of a run of pattern characters. *)
Lemma exec_lits_inv (ic : bool) (xs : jsstring) : forall r p s ps,
  exec ic (map Lit xs ++ r) p s = Some ps ->
  exists w rest ps', s = w ++ rest
    /\ Forall2 (fun c x => canonicalize ic c = canonicalize ic x) w xs
    /\ ps = map (fun c => [c]) w ++ ps'
    /\ exec ic r (prevAfter p w) rest = Some ps'.
Proof.
  induction xs as [|x xs IH]; intros r p s ps H.
  - exists [], s, ps. by repeat split.
  - apply exec_Lit_inv in H as (c & s' & ps1 & -> & Hc & -> & H).
    apply IH in H as (w & rest & ps' & -> & Hw & -> & H).
    exists (c :: w), rest, ps'. repeat split; [by constructor|].
    by rewrite prevAfter_cons.
Qed.

(** A run of pattern characters matches the text it spells. *)
Lemma exec_lits_intro (ic : bool) (xs : jsstring) : forall r p w rest,
  Forall2 (fun c x => canonicalize ic c = canonicalize ic x) w xs ->
  exec ic (map Lit xs ++ r) p (w ++ rest)
  = app (map (fun c => [c]) w) <$> exec ic r (prevAfter p w) rest.
Proof.
  induction xs as [|x xs IH]; intros r p w rest Hw.
  - apply Forall2_nil_inv_r in Hw as ->.
    change (prevAfter p []) with p. simpl.
    by destruct (exec ic r p rest).
  - apply Forall2_cons_inv_r in Hw as (c & w' & Hc & Hw & ->).
    simpl. rewrite Hc, N.eqb_refl.
    rewrite (IH r (Some c) w' rest Hw), prevAfter_cons.
    by destruct (exec ic r (prevAfter (Some c) w') rest).
Qed.

(** ** The id branch of the insertion *)

Lemma getSubstitution_plain (mi : matchInfo) (t t' : jsstring) :
  dollar ∉ t -> getSubstitution mi (t ++ t') = t ++ getSubstitution mi t'.
Proof.
  induction t as [|c t IH]; intros H; [done|].
  apply not_elem_of_cons in H as [Hc Ht].
  change ((c :: t) ++ t') with (c :: (t ++ t')).
  cbn [getSubstitution].
  destruct (N.eqb_spec c dollar) as [->|_]; [done|].
  simpl. by rewrite IH.
Qed.

Lemma getSubstitution_group1 (mi : matchInfo) (g : jsstring) :
  m_groups mi = [g] -> getSubstitution mi (str "$1") = g.
Proof. intros H. vm_compute str. simpl. rewrite H. simpl. by rewrite app_nil_r. Qed.

Lemma space_not_letter (c x : N) :
  isSpace c = true -> isWordChar x = true ->
  canonicalize true c <> canonicalize true x.
Proof.
  unfold isSpace, isWordChar, canonicalize, asciiUpper.
  ncases; simpl; try discriminate; intros _ _; lia.
Qed.

Lemma atoms_idRegex :
  atoms idRegex
  = Cls Space :: map Lit (str "id=" ++ [dq])
    ++ [Open; Star (NotChar dq); Close; Lit dq].
Proof. reflexivity. Qed.

Lemma atoms_idInsertRegex :
  atoms idInsertRegex
  = Open :: Plus Space :: map Lit (str "id=" ++ [dq]) ++ [Close].
Proof. reflexivity. Qed.

Lemma exec_Lit_fail (ic : bool) (x : N) (r : list atom) (p : option N)
  (c : N) (s : jsstring) :
  canonicalize ic c <> canonicalize ic x ->
  exec ic (Lit x :: r) p (c :: s) = None.
Proof.
  intros H. cbn [exec].
  by destruct (N.eqb_spec (canonicalize ic c) (canonicalize ic x)).
Qed.

Lemma letters_head (ic : bool) (w : jsstring) (x : N) (xs rest : jsstring)
  (c : N) (s : jsstring) :
  Forall2 (fun c x => canonicalize ic c = canonicalize ic x) w (x :: xs) ->
  w ++ rest = c :: s -> canonicalize ic c = canonicalize ic x.
Proof.
  intros Hw E. apply Forall2_cons_inv_r in Hw as (c0 & w0 & H0 & _ & ->).
  by injection E as <- _.
Qed.

(** Where the id attribute is found, white space followed by id= and a
    quote is found too. *)
Lemma exec_id_insert (p : option N) (s : jsstring) (ps : list jsstring) :
  exec true (atoms idRegex) p s = Some ps ->
  exists ps', exec true (atoms idInsertRegex) p s = Some ps'.
Proof.
  rewrite atoms_idRegex, atoms_idInsertRegex. intros H.
  apply exec_Cls_inv in H as (c & s1 & ps1 & -> & Hc & -> & H).
  apply exec_lits_inv in H as (w & rest & ps2 & -> & Hw & -> & H).
  simpl in Hc.
  cbn [exec]. unfold inSet at 1. rewrite Hc.
  rewrite (many_greedy _ true Space) with (w := []) (rest := w ++ rest).
  - change (prevAfter (Some c) []) with (Some c).
    rewrite (exec_lits_intro true _ _ _ w rest Hw). simpl. eauto.
  - intros p' c' s' Hc'. apply exec_Lit_fail.
    by apply space_not_letter.
  - constructor.
  - intros c' s' E. simpl.
    destruct (isSpace c') eqn:Hs; [|done]. exfalso.
    apply (space_not_letter c' 105 Hs eq_refl).
    exact (letters_head true w 105 [100; 61; dq] rest c' s' Hw E).
Qed.

(** What a match of white space, id= and a quote consists of. *)
Lemma exec_idInsert_shape (p : option N) (s : jsstring) (ps : list jsstring) :
  exec true (atoms idInsertRegex) p s = Some ps ->
  exists ws w,
    concat ps = ws ++ w
    /\ captures (atoms idInsertRegex) ps None = [ws ++ w]
    /\ ws <> [] /\ Forall (fun c => isSpace c = true) ws
    /\ sameLetters w (str "id=" ++ [dq]).
Proof.
  rewrite atoms_idInsertRegex. intros H.
  apply exec_Open_inv in H as (ps0 & -> & H).
  apply exec_Plus_inv in H as (ws & rest1 & ps1 & -> & Hne & Hws & -> & H).
  apply exec_lits_inv in H as (w & rest & ps2 & -> & Hw & -> & H).
  apply exec_Close_inv in H as (ps3 & -> & H).
  injection H as <-.
  exists ws, w. split; [|split; [|split; [done|split; [done|done]]]].
  - simpl. rewrite concat_app. simpl. rewrite app_nil_r. f_equal.
    clear. induction w as [|c w IH]; simpl; [done|]. by rewrite IH.
  - repeat (apply Forall2_cons_inv_r in Hw as (? & ? & _ & Hw & ->)).
    apply Forall2_nil_inv_r in Hw as ->.
    simpl. by rewrite <- !app_assoc.
Qed.

(** The id branch of the insertion, when the attribute lines hold no
    dollar sign: the stripped tag is cut before the white space of its
    first id attribute, and the lines are inserted there. *)
Lemma replace_idInsert (clean attrs : jsstring) (mi : matchInfo) :
  firstMatch idRegex clean = Some mi ->
  dollar ∉ attrs ->
  exists pre ws w post,
    clean = pre ++ ws ++ w ++ post
    /\ ws <> [] /\ Forall (fun c => isSpace c = true) ws
    /\ sameLetters w (str "id=" ++ [dq])
    /\ (forall pre1 pre2, pre = pre1 ++ pre2 -> pre2 <> [] ->
          exec true (atoms idInsertRegex) (prevAfter None pre1)
            (pre2 ++ ws ++ w ++ post) = None)
    /\ replace idInsertRegex (attrs ++ str "$1") clean
       = pre ++ attrs ++ ws ++ w ++ post.
Proof.
  intros Hm Hd.
  rewrite firstMatch_findFirst in Hm by done.
  destruct (findFirst idRegex None clean) as [[g ps]|] eqn:F; [|done].
  apply findFirst_Some in F as (post0 & Hclean & Hex & _).
  apply exec_id_insert in Hex as [ps' Hex'].
  destruct (findFirst idInsertRegex None clean) as [[pre qs]|] eqn:F'.
  2: { pose proof (findFirst_None _ _ _ F' g (concat ps ++ post0) Hclean) as Hn.
       change (ignoreCase idInsertRegex) with true in Hn. congruence. }
  destruct (findFirst_Some _ _ _ _ _ F') as (post & Hc & Hq & Hno).
  destruct (exec_idInsert_shape _ _ _ Hq) as (ws & w & Hcat & Hcap & Hne & Hws & Hw).
  exists pre, ws, w, post.
  rewrite Hcat, <- app_assoc in Hc. rewrite Hcat, <- app_assoc in Hno.
  repeat split; try done.
  rewrite replace_first, F' by done.
  rewrite getSubstitution_plain by done.
  rewrite (getSubstitution_group1 _ (ws ++ w)) by exact Hcap.
  rewrite Hcat, <- !app_assoc. do 4 f_equal.
  rewrite Hc, !app_assoc, drop_app_length'; [done|].
  rewrite !length_app. lia.
Qed.

(** ** Resolution of the three values *)

(** An empty id is no id for the resolution, whatever byId holds. *)
Lemma resolve_empty_id (lookup : Lookup) (inkscapeLabel : option jsstring) :
  resolve lookup inkscapeLabel (Some []) = resolve lookup inkscapeLabel None.
Proof. reflexivity. Qed.

(** C2, as amended.  When the id read from the stripped tag is non-empty
    and byId holds an entry for it, the resolved value and region are
    that entry's, or the literal 0 where the entry's is empty, and
    long-name is the entry's label if non-empty, else the style-label if
    present and non-empty, else the literal None; byLabel plays no part. *)
Theorem resolve_id_first (lookup : Lookup) (tag : jsstring) (e : Entry.t) :
  let clean := strip tag in
  let inkscapeLabel := group1 (firstMatch labelRegex clean) in
  let elemId := group1 (firstMatch idRegex clean) in
  truthyStr elemId = true ->
  objGet (byId lookup) (toKey elemId) = VEntry e ->
  resolve lookup inkscapeLabel elemId =
    Ok (orElse (Entry.label e) (orElse inkscapeLabel (str "None")),
        orElse (Some (Entry.value e)) (str "0"),
        orElse (Some (Entry.region e)) (str "0")).
Proof.
  intros clean inkscapeLabel elemId Hid He.
  unfold resolve. rewrite Hid, He. simpl.
  unfold entryProp. simpl.
  destruct (Entry.label e) as [[|c l]|]; reflexivity.
Qed.

Lemma resolve_id_first_witness :
  truthyStr (group1 (firstMatch idRegex (strip tagNorte))) = true
  /\ resolve lookupNorte
       (group1 (firstMatch labelRegex (strip tagNorte)))
       (group1 (firstMatch idRegex (strip tagNorte)))
     = Ok (str "North", str "7", str "2").
Proof.
  split; [vm_compute; reflexivity|].
  refine (eq_trans
            (resolve_id_first lookupNorte tagNorte
               {| Entry.value := str "7"; Entry.region := str "2";
                  Entry.label := Some (str "North"); Entry.id := None |}
               _ _) _);
    vm_compute; reflexivity.
Defined.

(** C2 as stated fails: the tag carries a style-label (the empty string)
    and the id p1; the entry of p1 has an empty label and an empty value.
    The claim gives long-name the style-label and value the entry's value,
    both the empty string; the code gives None and 0. *)
Lemma resolve_id_first_counterexample :
  let lookup := buildLookup (parseCSV noUnicode csvBlankValue) in
  let clean := strip tagEmptyLabel in
  let inkscapeLabel := group1 (firstMatch labelRegex clean) in
  let elemId := group1 (firstMatch idRegex clean) in
  inkscapeLabel = Some []
  /\ elemId = Some (str "p1")
  /\ objGet (byId lookup) (str "p1")
     = VEntry {| Entry.value := []; Entry.region := str "2";
                 Entry.label := Some []; Entry.id := None |}
  /\ resolve lookup inkscapeLabel elemId = Ok (str "None", str "0", str "2")
  /\ str "None" <> [] /\ str "0" <> [].
Proof. vm_compute. repeat split; discriminate. Qed.

(** C7, as amended.  When the id read from the stripped tag has no entry
    in byId and the style-label has none in byLabel, resolution succeeds
    with value 0 and region 0, and long-name is the style-label if present
    and non-empty, else the literal None. *)
Theorem resolve_no_match (lookup : Lookup) (tag : jsstring) :
  let clean := strip tag in
  let inkscapeLabel := group1 (firstMatch labelRegex clean) in
  let elemId := group1 (firstMatch idRegex clean) in
  (truthyStr elemId = true ->
   forall e, objGet (byId lookup) (toKey elemId) <> VEntry e) ->
  (truthyStr inkscapeLabel = true ->
   forall e, objGet (byLabel lookup) (toKey inkscapeLabel) <> VEntry e) ->
  resolve lookup inkscapeLabel elemId =
    Ok (orElse inkscapeLabel (str "None"), str "0", str "0").
Proof.
  intros clean inkscapeLabel elemId Hid Hlabel.
  unfold resolve.
  destruct (truthyStr elemId) eqn:Ti; simpl.
  - specialize (Hid eq_refl).
    destruct (objGet (byId lookup) (toKey elemId)) as [|s|e|] eqn:Gi; simpl.
    + destruct (truthyStr inkscapeLabel) eqn:Tl; simpl; [|reflexivity].
      specialize (Hlabel eq_refl).
      destruct (objGet (byLabel lookup) (toKey inkscapeLabel)) as [|s|e|];
        simpl; try reflexivity.
      * destruct s; reflexivity.
      * exfalso. exact (Hlabel e eq_refl).
    + destruct s as [|c s]; simpl; [|reflexivity].
      destruct (truthyStr inkscapeLabel) eqn:Tl; simpl; [|reflexivity].
      specialize (Hlabel eq_refl).
      destruct (objGet (byLabel lookup) (toKey inkscapeLabel)) as [|s|e|];
        simpl; try reflexivity.
      * destruct s; reflexivity.
      * exfalso. exact (Hlabel e eq_refl).
    + exfalso. exact (Hid e eq_refl).
    + reflexivity.
  - destruct (truthyStr inkscapeLabel) eqn:Tl; simpl; [|reflexivity].
    specialize (Hlabel eq_refl).
    destruct (objGet (byLabel lookup) (toKey inkscapeLabel)) as [|s|e|];
      simpl; try reflexivity.
    + destruct s; reflexivity.
    + exfalso. exact (Hlabel e eq_refl).
Qed.

Lemma resolve_no_match_witness :
  resolve emptyLookup
    (group1 (firstMatch labelRegex (strip tagNorte)))
    (group1 (firstMatch idRegex (strip tagNorte)))
  = Ok (str "Norte", str "0", str "0").
Proof.
  refine (eq_trans (resolve_no_match emptyLookup tagNorte _ _) _).
  - intros _ e. vm_compute. discriminate.
  - intros _ e. vm_compute. discriminate.
  - vm_compute. reflexivity.
Defined.

(** C7 as stated fails: the tag carries a style-label, the empty string,
    and the table is empty.  The claim gives long-name the style-label;
    the code gives None. *)
Lemma resolve_no_match_counterexample :
  let clean := strip tagOnlyEmptyLabel in
  let inkscapeLabel := group1 (firstMatch labelRegex clean) in
  let elemId := group1 (firstMatch idRegex clean) in
  inkscapeLabel = Some []
  /\ elemId = None
  /\ resolve emptyLookup inkscapeLabel elemId
     = Ok (str "None", str "0", str "0")
  /\ str "None" <> [].
Proof. vm_compute. repeat split; discriminate. Qed.

(** ** The strip pass keeps the shape of a tag *)

Lemma exec_WordBoundary_inv (ic : bool) (r : list atom) (p : option N)
  (s : jsstring) (ps : list jsstring) :
  exec ic (WordBoundary :: r) p s = Some ps ->
  exists ps', ps = [] :: ps' /\ exec ic r p s = Some ps'.
Proof.
  simpl. destruct (xorb (wordBefore p) (wordAt s)); [|done].
  destruct (exec ic r p s) as [ps'|]; [|done].
  intros [= <-]. by exists ps'.
Qed.

(** The first atom of a match consumed a piece, the others the rest. *)
Lemma exec_cons_inv (ic : bool) (a : atom) (r : list atom) (p : option N)
  (s : jsstring) (ps : list jsstring) :
  exec ic (a :: r) p s = Some ps ->
  exists w p' s' ps', ps = w :: ps' /\ exec ic r p' s' = Some ps'.
Proof.
  destruct a; intros H.
  - apply exec_Lit_inv in H as (c0 & s' & ps' & _ & _ & -> & H).
    do 4 eexists; split; [reflexivity|eassumption].
  - apply exec_Cls_inv in H as (c0 & s' & ps' & _ & _ & -> & H).
    do 4 eexists; split; [reflexivity|eassumption].
  - apply exec_Star_inv in H as (w & s' & ps' & _ & _ & -> & H).
    do 4 eexists; split; [reflexivity|eassumption].
  - apply exec_Plus_inv in H as (w & s' & ps' & _ & _ & _ & -> & H).
    do 4 eexists; split; [reflexivity|eassumption].
  - apply exec_WordBoundary_inv in H as (ps' & -> & H).
    do 4 eexists; split; [reflexivity|eassumption].
  - apply exec_End_inv in H as (ps' & _ & -> & H).
    do 4 eexists; split; [reflexivity|eassumption].
  - apply exec_Open_inv in H as (ps' & -> & H).
    do 4 eexists; split; [reflexivity|eassumption].
  - apply exec_Close_inv in H as (ps' & -> & H).
    do 4 eexists; split; [reflexivity|eassumption].
Qed.

(** A match of a pattern that ends with a pattern character ends with
    that character. *)
Lemma exec_last_lit (ic : bool) (x : N) (r : list atom) :
  forall p s ps, exec ic (r ++ [Lit x]) p s = Some ps ->
    exists w c, concat ps = w ++ [c] /\ canonicalize ic c = canonicalize ic x.
Proof.
  induction r as [|a r IH]; intros p s ps H.
  - apply exec_Lit_inv in H as (c & s' & ps' & _ & Hc & -> & H).
    injection H as <-. by exists [], c.
  - apply exec_cons_inv in H as (w0 & p' & s' & ps' & -> & H).
    apply IH in H as (w & c & Hcat & Hc).
    exists (w0 ++ w), c. simpl. by rewrite Hcat, app_assoc.
Qed.

Lemma canonicalize_dq (c : N) :
  canonicalize true c = canonicalize true dq -> c = dq.
Proof. unfold canonicalize, asciiUpper, dq. ncases; simpl; lia. Qed.

Lemma canonicalize_gt (c : N) :
  canonicalize true c = canonicalize true (chr ">") <-> c = chr ">".
Proof.
  unfold canonicalize, asciiUpper. vm_compute chr. ncases; simpl; lia.
Qed.

Lemma stripRegex_ends_dq (name : string) (p : option N) (s : jsstring)
  (ps : list jsstring) :
  exec true (atoms (stripRegex name)) p s = Some ps ->
  exists w, concat ps = w ++ [dq].
Proof.
  replace (atoms (stripRegex name))
    with ((Plus Space :: lit name ++ lit "=" ++ [Lit dq; Star (NotChar dq)])
          ++ [Lit dq]).
  2: { simpl. f_equal. rewrite <- !app_assoc. reflexivity. }
  intros H. apply exec_last_lit in H as (w & c & Hcat & Hc).
  apply canonicalize_dq in Hc as ->. by exists w.
Qed.

Lemma render_delete (re : regex) (subject : jsstring) :
  forall segs pos,
    render re (fun mi => getSubstitution mi []) subject pos segs
    = concat (map gapText segs).
Proof.
  induction segs as [|[c|ps] segs IH]; intros pos; simpl; [done| |];
    by rewrite IH.
Qed.

(** A global replace by the empty string of matches that end with a
    double quote keeps the closing angle bracket of a tag. *)
Lemma scan_keeps_close (re : regex) :
  (forall p s ps, exec (ignoreCase re) (atoms re) p s = Some ps ->
     exists w, concat ps = w ++ [dq]) ->
  forall t, chr ">" ∉ t -> forall armed skip p, (skip <= length t)%nat ->
    exists t', concat (map gapText (scan re armed skip p (t ++ [chr ">"])))
               = t' ++ [chr ">"]
               /\ chr ">" ∉ t'.
Proof.
  intros HE.
  assert (Hend : forall (armed : bool) (p : option N),
            (if armed then exec (ignoreCase re) (atoms re) p [] else None) = None).
  { intros [|] p; [|done].
    destruct (exec (ignoreCase re) (atoms re) p []) as [ps|] eqn:E; [|done].
    destruct (HE _ _ _ E) as [w Hw].
    apply exec_prefix in E as [rest E]. rewrite Hw in E.
    by destruct w. }
  induction t as [|c t IH]; intros Ht armed skip p Hskip.
  - destruct skip; [|simpl in Hskip; lia]. simpl.
    destruct (if armed then exec (ignoreCase re) (atoms re) p [chr ">"] else None)
      as [ps|] eqn:E.
    + destruct armed; [|done]. destruct (HE _ _ _ E) as [w Hw].
      apply exec_prefix in E as [rest E]. rewrite Hw in E.
      destruct w as [|c w]; [done|]. injection E as _ E. by destruct w.
    + simpl. rewrite Hend. simpl. exists []. split; [done|]. apply not_elem_of_nil.
  - apply not_elem_of_cons in Ht as [Hc Ht].
    destruct skip as [|skip]; simpl.
    + destruct (if armed then exec (ignoreCase re) (atoms re) p
                                (c :: t ++ [chr ">"]) else None)
        as [ps|] eqn:E.
      * destruct armed; [|done]. destruct (HE _ _ _ E) as [w Hw].
        apply exec_prefix in E as [rest E]. rewrite Hw in E.
        rewrite Hw, length_app. simpl.
        replace (length w + 1)%nat with (S (length w)) by lia.
        apply IH; [done|].
        assert (Hl : length (c :: t ++ [chr ">"]) = length ((w ++ [dq]) ++ rest))
          by by rewrite E.
        rewrite !length_app in Hl. simpl in Hl. rewrite length_app in Hl.
        simpl in Hl.
        destruct (decide (length w = S (length t))) as [Hwt|Hwt]; [|lia].
        exfalso. assert (rest = []) as -> by (apply length_zero_iff_nil; lia).
        rewrite app_nil_r in E.
        change (c :: t ++ [chr ">"]) with ((c :: t) ++ [chr ">"]) in E.
        apply app_inj_tail in E as [_ E]. discriminate.
      * simpl. destruct (IH Ht armed 0%nat (Some c)) as (t' & -> & Ht'); [lia|].
        exists (c :: t'). split; [done|]. by apply not_elem_of_cons.
    + simpl in Hskip. apply IH; [done|lia].
Qed.

Lemma strip1_soleClose (name : string) (s : jsstring) :
  soleClose s -> soleClose (replace (stripRegex name) [] s).
Proof.
  intros (t & -> & Ht). unfold replace, replaceWith, segments.
  rewrite render_delete.
  apply (scan_keeps_close (stripRegex name)); [|done|lia].
  intros p s ps. apply stripRegex_ends_dq.
Qed.

Lemma strip_soleClose (tag : jsstring) : soleClose tag -> soleClose (strip tag).
Proof. intros H. unfold strip. by do 3 apply strip1_soleClose. Qed.

(** The closing angle bracket of a tag is what the close regex finds. *)
Lemma findFirst_close (t : jsstring) :
  chr ">" ∉ t -> forall p,
  findFirst closeRegex p (t ++ [chr ">"]) = Some (t, [[chr ">"]; []; []]).
Proof.
  induction t as [|c t IH]; intros Ht p.
  - reflexivity.
  - apply not_elem_of_cons in Ht as [Hc Ht].
    change ((c :: t) ++ [chr ">"]) with (c :: (t ++ [chr ">"])).
    cbn [findFirst].
    replace (exec (ignoreCase closeRegex) (atoms closeRegex) p
               (c :: t ++ [chr ">"])) with (@None (list jsstring)).
    + by rewrite IH.
    + symmetry. apply exec_Lit_fail. simpl. congruence.
Qed.

Lemma replace_close (t : jsstring) :
  chr ">" ∉ t -> replace closeRegex [] (t ++ [chr ">"]) = t.
Proof.
  intros Ht. rewrite replace_first, findFirst_close by done.
  simpl. rewrite drop_ge; [by rewrite app_nil_r|].
  rewrite length_app. simpl. lia.
Qed.

(** What the tag pattern matches ends with its only closing angle
    bracket. *)
Lemma pathRegex_soleClose (p : option N) (s : jsstring) (ps : list jsstring) :
  exec true (atoms pathRegex) p s = Some ps -> soleClose (concat ps).
Proof.
  change (atoms pathRegex)
    with (map Lit (str "<path")
          ++ [WordBoundary; Star (NotChar (chr ">")); Lit (chr ">")]).
  intros H.
  apply exec_lits_inv in H as (w & rest & ps1 & -> & Hw & -> & H).
  apply exec_WordBoundary_inv in H as (ps2 & -> & H).
  apply exec_Star_inv in H as (body & rest2 & ps3 & -> & Hbody & -> & H).
  apply exec_Lit_inv in H as (c & rest3 & ps4 & -> & Hc & -> & H).
  injection H as <-. apply canonicalize_gt in Hc as ->.
  exists (w ++ body). split.
  - rewrite concat_app. simpl. rewrite <- app_assoc. f_equal.
    clear. induction w as [|c w IH]; simpl; [done|]. by rewrite IH.
  - rewrite elem_of_app. intros [Hin|Hin].
    + clear -Hw Hin. 
      assert (Hx : Forall (fun x => canonicalize true x <> canonicalize true (chr ">"))
                     (str "<path")) by (repeat constructor; discriminate).
      revert Hw Hx Hin. generalize (str "<path"). intros xs Hw.
      induction Hw as [|c x w xs' Hcx Hw IH]; intros Hx Hin;
        [by apply elem_of_nil in Hin|].
      apply Forall_cons in Hx as [Hx Hxs].
      apply elem_of_cons in Hin as [<-|Hin]; [|by apply IH].
      apply Hx. rewrite <- Hcx. by apply canonicalize_gt.
    + rewrite Forall_forall in Hbody. specialize (Hbody _ Hin). discriminate.
Qed.

(** ** The lookup builder *)

Lemma buildLookup_snoc (rows : list (gmap jsstring jsstring))
  (r : gmap jsstring jsstring) :
  buildLookup (rows ++ [r]) = buildLookup_row (buildLookup rows) r.
Proof. unfold buildLookup. by rewrite foldl_app. Qed.

Lemma objGet_objSet_eq (o : jsobj) (k : jsstring) (e : Entry.t) :
  objGet (objSet o k e) k = VEntry e.
Proof.
  unfold objGet, objSet.
  repeat case_bool_decide; simpl; try done.
  by rewrite lookup_insert_eq.
Qed.

Lemma objectPrototype_not_entry (k : jsstring) (e : Entry.t) :
  objectPrototype k <> VEntry e.
Proof. unfold objectPrototype. by case_bool_decide. Qed.

Lemma objGet_objSet_entry (o : jsobj) (k k' : jsstring) (e e' : Entry.t) :
  objGet (objSet o k e) k' = VEntry e' ->
  (k' = k /\ e' = e) \/ objGet o k' = VEntry e'.
Proof.
  unfold objGet, objSet.
  repeat case_bool_decide; simpl; subst.
  - intros [= <-]. by left.
  - auto.
  - destruct (own o !! k') as [e0|]; [auto|].
    destruct (entryProp e k'); [done|].
    intros Hp. by apply objectPrototype_not_entry in Hp.
  - destruct (decide (k = k')) as [<-|Hne].
    + rewrite lookup_insert_eq. intros [= <-]. by left.
    + rewrite lookup_insert_ne by done. auto.
Qed.

Lemma rowField_stored (r : gmap jsstring jsstring) (k : string) :
  rowField r k (str "0") = storedOrZero r k.
Proof.
  unfold rowField, storedOrZero, orElse.
  destruct (r !! str k) as [[|c v]|]; reflexivity.
Qed.

Lemma truthyStr_nonempty (s : jsstring) :
  truthyStr (Some s) = true <-> s <> [].
Proof. destruct s; simpl; split; intros; congruence. Qed.

Lemma buildLookup_row_byId (lookup : Lookup) (r : gmap jsstring jsstring) :
  byId (buildLookup_row lookup r)
  = if truthyStr (Some (rowField r "id" []))
    then objSet (byId lookup) (rowField r "id" []) (entryById r)
    else byId lookup.
Proof.
  unfold buildLookup_row, entryById. simpl.
  by rewrite !rowField_stored.
Qed.

Lemma buildLookup_row_byLabel (lookup : Lookup) (r : gmap jsstring jsstring) :
  byLabel (buildLookup_row lookup r)
  = if truthyStr (Some (rowField r "label" []))
    then objSet (byLabel lookup) (rowField r "label" []) (entryByLabel r)
    else byLabel lookup.
Proof.
  unfold buildLookup_row, entryByLabel. simpl.
  by rewrite !rowField_stored.
Qed.

(** Every entry found in byId was made from a row of the table. *)
Lemma buildLookup_byId_sound (rows : list (gmap jsstring jsstring))
  (k : jsstring) (e : Entry.t) :
  objGet (byId (buildLookup rows)) k = VEntry e ->
  exists r, r ∈ rows /\ k = rowField r "id" [] /\ e = entryById r.
Proof.
  induction rows as [|r rows IH] using rev_ind.
  - unfold buildLookup, objGet. simpl. case_bool_decide; [done|].
    rewrite lookup_empty. simpl.
    intros Hg. by apply objectPrototype_not_entry in Hg.
  - rewrite buildLookup_snoc, buildLookup_row_byId.
    destruct (truthyStr (Some (rowField r "id" []))).
    + intros H. apply objGet_objSet_entry in H as [[-> ->]|H].
      * exists r. split; [|done].
        apply elem_of_app. right. by apply list_elem_of_singleton.
      * destruct (IH H) as (r' & Hin & Hr'). exists r'. split; [|done].
        apply elem_of_app. by left.
    + intros H. destruct (IH H) as (r' & Hin & Hr').
      exists r'. split; [|done]. apply elem_of_app. by left.
Qed.

Lemma buildLookup_byLabel_sound (rows : list (gmap jsstring jsstring))
  (k : jsstring) (e : Entry.t) :
  objGet (byLabel (buildLookup rows)) k = VEntry e ->
  exists r, r ∈ rows /\ k = rowField r "label" [] /\ e = entryByLabel r.
Proof.
  induction rows as [|r rows IH] using rev_ind.
  - unfold buildLookup, objGet. simpl. case_bool_decide; [done|].
    rewrite lookup_empty. simpl.
    intros Hg. by apply objectPrototype_not_entry in Hg.
  - rewrite buildLookup_snoc, buildLookup_row_byLabel.
    destruct (truthyStr (Some (rowField r "label" []))).
    + intros H. apply objGet_objSet_entry in H as [[-> ->]|H].
      * exists r. split; [|done].
        apply elem_of_app. right. by apply list_elem_of_singleton.
      * destruct (IH H) as (r' & Hin & Hr'). exists r'. split; [|done].
        apply elem_of_app. by left.
    + intros H. destruct (IH H) as (r' & Hin & Hr').
      exists r'. split; [|done]. apply elem_of_app. by left.
Qed.

(** C5, as amended.  The builder trims all four fields.  For the last row
    [r] of a table, the entry stored under its trimmed id (when non-empty)
    and the entry stored under its trimmed label (when non-empty) hold as
    value and region the row's fields without their leading and trailing
    white space when those are present and non-empty, and the literal 0
    otherwise; and every entry found in either map was made that way from
    some row of the table. *)
Theorem buildLookup_fields (rows : list (gmap jsstring jsstring))
  (r : gmap jsstring jsstring) :
  let lookup := buildLookup (rows ++ [r]) in
  let id := rowField r "id" [] in
  let label := rowField r "label" [] in
  (id <> [] -> objGet (byId lookup) id = VEntry (entryById r))
  /\ (label <> [] -> objGet (byLabel lookup) label = VEntry (entryByLabel r))
  /\ (forall k e, objGet (byId lookup) k = VEntry e ->
        exists r', r' ∈ rows ++ [r] /\ k = rowField r' "id" []
                   /\ e = entryById r')
  /\ (forall k e, objGet (byLabel lookup) k = VEntry e ->
        exists r', r' ∈ rows ++ [r] /\ k = rowField r' "label" []
                   /\ e = entryByLabel r').
Proof.
  intros lookup id label. subst lookup. repeat split.
  - intros Hid. rewrite buildLookup_snoc, buildLookup_row_byId.
    apply truthyStr_nonempty in Hid. fold id. rewrite Hid.
    apply objGet_objSet_eq.
  - intros Hl. rewrite buildLookup_snoc, buildLookup_row_byLabel.
    apply truthyStr_nonempty in Hl. fold label. rewrite Hl.
    apply objGet_objSet_eq.
  - intros k e. apply buildLookup_byId_sound.
  - intros k e. apply buildLookup_byLabel_sound.
Qed.

(** C5 as stated fails: the row has the value 10 and the region 5, each
    with a space on either side.  The claim stores them as they are; the
    code stores them trimmed. *)
Lemma buildLookup_fields_counterexample :
  let rows := parseCSV noUnicode csvPadded in
  (rows !! 0%nat) ≫= (fun r => r !! str "value") = Some (str " 10 ")
  /\ (rows !! 0%nat) ≫= (fun r => r !! str "region") = Some (str " 5 ")
  /\ objGet (byId (buildLookup rows)) (str "a")
     = VEntry {| Entry.value := str "10"; Entry.region := str "5";
                 Entry.label := Some (str "Alfa"); Entry.id := None |}
  /\ str "10" <> str " 10 " /\ str "5" <> str " 5 ".
Proof. vm_compute. repeat split; discriminate. Qed.

(** ** The field-splitter *)

Lemma lookup_after (pre : jsstring) (c : N) (rest : jsstring) :
  (pre ++ c :: rest) !! (length pre + 1)%nat = head rest.
Proof.
  rewrite lookup_app_r by lia.
  replace (length pre + 1 - length pre)%nat with 1%nat by lia.
  by destruct rest.
Qed.

(** The loop of [parseCSVLine] from index [length pre] computes
    [splitFrom] on the text from that index on, whenever the fuel covers
    what is left of the line: the loop ends within that many iterations. *)
Lemma parseCSVLine_loop_splitFrom (fuel : nat) :
  forall (pre rest : jsstring) (result : list jsstring) (cur : jsstring)
         (inQuotes : bool),
    (length rest <= fuel)%nat ->
    (let '(r, c) :=
       parseCSVLine_loop fuel (pre ++ rest) (length pre) result cur inQuotes
     in r ++ [c]) = splitFrom result cur inQuotes rest.
Proof.
  induction fuel as [|fuel IH]; intros pre rest result cur inQuotes Hlen.
  - destruct rest; [reflexivity|simpl in Hlen; lia].
  - destruct rest as [|c rest].
    + simpl. rewrite lookup_ge_None_2 by (rewrite length_app; simpl; lia).
      reflexivity.
    + simpl in Hlen. simpl parseCSVLine_loop.
      rewrite list_lookup_middle by reflexivity.
      rewrite lookup_after.
      assert (Hone : forall result' cur' inQuotes',
                 (let '(r, c0) :=
                    parseCSVLine_loop fuel (pre ++ c :: rest) (length pre + 1)
                      result' cur' inQuotes'
                  in r ++ [c0]) = splitFrom result' cur' inQuotes' rest).
      { intros result' cur' inQuotes'.
        replace (pre ++ c :: rest) with ((pre ++ [c]) ++ rest)
          by (by rewrite <- app_assoc).
        replace (length pre + 1)%nat with (length (pre ++ [c]))
          by (rewrite length_app; reflexivity).
        apply IH. lia. }
      simpl splitFrom.
      destruct (c =? dq) eqn:Hq.
      * destruct inQuotes; simpl.
        -- destruct rest as [|c2 rest]; simpl.
           ++ apply (Hone result cur false).
           ++ destruct (c2 =? dq) eqn:Hq2.
              ** apply N.eqb_eq in Hq2 as ->.
                 rewrite bool_decide_eq_true_2 by done.
                 replace (pre ++ c :: dq :: rest) with ((pre ++ [c; dq]) ++ rest)
                   by (by rewrite <- app_assoc).
                 replace (length pre + 2)%nat with (length (pre ++ [c; dq]))
                   by (rewrite length_app; reflexivity).
                 apply IH. simpl in Hlen. lia.
              ** rewrite bool_decide_eq_false_2.
                 { rewrite Hone. simpl. by rewrite Hq2. }
                 intros [= ->]. by rewrite N.eqb_refl in Hq2.
        -- apply Hone.
      * destruct ((c =? chr ",") && negb inQuotes); apply Hone.
Qed.

Lemma parseCSVLine_splitFrom (line : jsstring) :
  parseCSVLine line = splitFrom [] [] false line.
Proof.
  unfold parseCSVLine.
  apply (parseCSVLine_loop_splitFrom (length line) [] line [] [] false). lia.
Qed.

Lemma Splits_splitFrom (fields : list jsstring) (cur : jsstring)
  (inQuotes : bool) (rest : jsstring) (out : list jsstring) :
  Splits fields cur inQuotes rest out ->
  out = splitFrom fields cur inQuotes rest.
Proof.
  induction 1; simpl.
  - reflexivity.
  - assumption.
  - destruct inQuotes; [|assumption].
    destruct rest as [|c2 rest]; [assumption|].
    destruct (c2 =? dq) eqn:E; [|assumption].
    apply N.eqb_eq in E as ->. exfalso. by apply H.
  - assumption.
  - destruct (c =? dq) eqn:E; [apply N.eqb_eq in E; contradiction|].
    destruct (c =? chr ",") eqn:E2; [|exact IHSplits].
    apply N.eqb_eq in E2. rewrite (H0 E2) in IHSplits |- *. exact IHSplits.
Qed.

Lemma splitFrom_Splits (rest : jsstring) : forall fields cur inQuotes,
  Splits fields cur inQuotes rest (splitFrom fields cur inQuotes rest).
Proof.
  induction rest as [rest IH] using (induction_ltof1 _ (@length N)).
  unfold ltof in IH.
  intros fields cur inQuotes. destruct rest as [|c rest]; simpl.
  - constructor.
  - destruct (c =? dq) eqn:E.
    + apply N.eqb_eq in E as ->.
      destruct inQuotes.
      * destruct rest as [|c2 rest].
        -- apply Splits_toggle; [done|]. apply IH. simpl. lia.
        -- destruct (c2 =? dq) eqn:E2.
           ++ apply N.eqb_eq in E2 as ->. apply Splits_escaped. apply IH. simpl. lia.
           ++ apply Splits_toggle.
              ** intros _ [= ->]. by rewrite N.eqb_refl in E2.
              ** apply IH. simpl. lia.
      * apply Splits_toggle; [done|]. apply IH. simpl. lia.
    + assert (c <> dq) by (intros ->; by rewrite N.eqb_refl in E).
      destruct (c =? chr ",") eqn:E2; simpl.
      * apply N.eqb_eq in E2 as ->. destruct inQuotes; simpl.
        -- apply Splits_copy; [done|done|]. apply IH. simpl. lia.
        -- apply Splits_separator. apply IH. simpl. lia.
      * apply Splits_copy; [done| |].
        -- intros ->. by rewrite N.eqb_refl in E2.
        -- apply IH. simpl. lia.
Qed.

(** C6.  The loop of [parseCSVLine] is the splitter of the specification:
    from the initial state (no field, an empty current field, outside
    quotes) the fields it returns are those the rules of [Splits] yield,
    and no others; and the row of the example parses to the record of
    the example. *)
Theorem parseCSVLine_splits (unicodeLower : jsstring -> jsstring) :
  (forall line, Splits [] [] false line (parseCSVLine line))
  /\ (forall line out, Splits [] [] false line out -> out = parseCSVLine line)
  /\ parseCSV unicodeLower csvRegionNorth = [recordRegionNorth].
Proof.
  split; [|split].
  - intros line. rewrite parseCSVLine_splitFrom. apply splitFrom_Splits.
  - intros line out H. rewrite parseCSVLine_splitFrom.
    by apply Splits_splitFrom.
  - vm_compute. reflexivity.
Qed.

(** ** Quoted rows and row objects *)

Lemma splitFrom_quoted (f : jsstring) :
  forall fields cur rest,
    head rest <> Some dq ->
    splitFrom fields cur true
      (concat (map (fun c => if c =? dq then [dq; dq] else [c]) f) ++ dq :: rest)
    = splitFrom fields (cur ++ f) false rest.
Proof.
  induction f as [|c f IH]; intros fields cur rest Hrest.
  - simpl. rewrite app_nil_r.
    destruct rest as [|c2 rest]; [done|].
    destruct (N.eqb_spec c2 dq) as [->|_]; [by destruct Hrest|done].
  - simpl. destruct (N.eqb_spec c dq) as [->|Hc].
    + simpl. rewrite IH by done. by rewrite <- app_assoc.
    + simpl. destruct (N.eqb_spec c dq); [done|].
      rewrite andb_false_r. rewrite IH by done. by rewrite <- app_assoc.
Qed.

Lemma splitFrom_quoteRow (fs : list jsstring) :
  forall fields f,
    splitFrom fields [] false (quoteRow (f :: fs)) = fields ++ f :: fs.
Proof.
  induction fs as [|f' fs IH]; intros fields f.
  - unfold quoteRow, quoteField.
    change (splitFrom fields [] false (dq :: ?x)) with (splitFrom fields [] true x).
    cbn [splitFrom]. change (dq =? dq) with true. cbn match.
    rewrite splitFrom_quoted by done. done.
  - change (quoteRow (f :: f' :: fs))
      with (quoteField f ++ chr "," :: quoteRow (f' :: fs)).
    unfold quoteField at 1. 
    cbn [app splitFrom]. change (dq =? dq) with true. cbn match.
    rewrite <- app_assoc. cbn [app].
    rewrite splitFrom_quoted by (by intros [=]).
    cbn [splitFrom]. change (chr "," =? dq) with false.
    change (chr "," =? chr ",") with true. cbn match. simpl andb. cbn match.
    rewrite IH. by rewrite <- app_assoc.
Qed.

(** Quoted-field round trip: a row of fields, each written between
    quotes with its quotes doubled, and commas between them, parses to
    those fields. *)
Theorem parseCSVLine_quoteRow (f : jsstring) (fs : list jsstring) :
  parseCSVLine (quoteRow (f :: fs)) = f :: fs.
Proof. rewrite parseCSVLine_splitFrom. apply (splitFrom_quoteRow fs []). Qed.

Lemma foldl_rowSet_other (l : list (jsstring * jsstring)) :
  forall (m : gmap jsstring jsstring) (h : jsstring),
    h ∉ l.*1 ->
    foldl (fun obj hv => rowSet obj hv.1 hv.2) m l !! h = m !! h.
Proof.
  induction l as [|[k v] l IH]; intros m h Hh; [done|].
  simpl in Hh. apply not_elem_of_cons in Hh as [Hk Hl].
  simpl. rewrite IH by done. unfold rowSet.
  case_bool_decide; [done|]. by rewrite lookup_insert_ne.
Qed.

Lemma padded_lookup (headers values : list jsstring) (j : nat) :
  (j < length headers)%nat ->
  (values ++ replicate (length headers - length values) []) !! j
  = Some (default [] (values !! j)).
Proof.
  intros Hj. destruct (decide (j < length values)%nat) as [Hlt|Hge].
  - rewrite lookup_app_l by done.
    destruct (lookup_lt_is_Some_2 values j Hlt) as [v Hv]. by rewrite Hv.
  - rewrite lookup_app_r by lia.
    rewrite (lookup_ge_None_2 values j) by lia. simpl.
    apply lookup_replicate_2. lia.
Qed.

(** The fields of a row object: the header at index [j], when no later
    header has the same name, holds the value at index [j] of the line,
    or the empty string when the line has no such value; a name that is
    no header holds nothing. *)
Theorem makeRow_fields (headers values : list jsstring) :
  (forall hs1 h hs2,
     headers = hs1 ++ h :: hs2 -> h ∉ hs2 -> h <> protoKey ->
     makeRow headers values !! h = Some (default [] (values !! length hs1)))
  /\ (forall h, h ∉ headers -> makeRow headers values !! h = None).
Proof.
  unfold makeRow.
  set (padded := values ++ replicate (length headers - length values) []).
  assert (Hlen : (length headers <= length padded)%nat).
  { unfold padded. rewrite length_app, length_replicate. lia. }
  split.
  - intros hs1 h hs2 Hh Hnot Hp.
    assert (Hj : padded !! length hs1 = Some (default [] (values !! length hs1))).
    { apply padded_lookup. rewrite Hh, length_app. simpl. lia. }
    rewrite <- (take_drop (length hs1) padded).
    rewrite (drop_S _ _ _ Hj). rewrite Hh.
    rewrite (zip_with_app pair hs1 (h :: hs2) (take (length hs1) padded)).
    2: { rewrite length_take. rewrite Hh, length_app in Hlen. simpl in Hlen. lia. }
    rewrite foldl_app. simpl.
    rewrite foldl_rowSet_other.
    + unfold rowSet. rewrite bool_decide_eq_false_2 by done.
      by rewrite lookup_insert_eq.
    + intros Hin. apply Hnot.
      apply list_elem_of_fmap in Hin as ([k v] & -> & Hin).
      by apply elem_of_zip_l in Hin.
  - intros h Hh. rewrite foldl_rowSet_other; [done|].
    intros Hin. apply Hh.
    apply list_elem_of_fmap in Hin as ([k v] & -> & Hin).
    by apply elem_of_zip_l in Hin.
Qed.

(** ** Letter case *)

Lemma foldEq_cases (c d : N) :
  foldEq c d ->
  c = d \/ (97 <= c <= 122 /\ d + 32 = c) \/ (97 <= d <= 122 /\ c + 32 = d).
Proof.
  unfold foldEq, asciiUpper. ncases; simpl; lia.
Qed.

Lemma isSpace_fold (c d : N) : foldEq c d -> isSpace c = isSpace d.
Proof.
  intros [->|[[H <-]|[H <-]]]%foldEq_cases; [done| |];
    unfold isSpace; ncases; reflexivity.
Qed.

Lemma isWordChar_fold (c d : N) : foldEq c d -> isWordChar c = isWordChar d.
Proof.
  intros [->|[[H <-]|[H <-]]]%foldEq_cases; [done| |];
    unfold isWordChar; ncases; reflexivity.
Qed.

Lemma inSet_fold (cs : charset) (c d : N) :
  foldEq c d -> inSet true cs c = inSet true cs d.
Proof.
  intros H. destruct cs; simpl.
  - by apply isSpace_fold.
  - unfold foldEq in H. by rewrite H.
Qed.

Lemma wordBefore_fold (p p' : option N) : samePrev p p' -> wordBefore p = wordBefore p'.
Proof. destruct 1; simpl; [by apply isWordChar_fold|done]. Qed.

Lemma wordAt_fold (s t : jsstring) : sameLetters s t -> wordAt s = wordAt t.
Proof. destruct 1; simpl; [done|by apply isWordChar_fold]. Qed.

Lemma many_fold (k k' : option N -> jsstring -> option (list jsstring))
  (cs : charset) :
  (forall p p' s t, samePrev p p' -> sameLetters s t ->
     option_Forall2 (Forall2 sameLetters) (k p s) (k' p' t)) ->
  forall s t, sameLetters s t -> forall p p', samePrev p p' ->
    option_Forall2 (fun x y => sameLetters x.1 y.1 /\ Forall2 sameLetters x.2 y.2)
      (many k true cs p s) (many k' true cs p' t).
Proof.
  intros Hk.
  assert (Hstop : forall p p' s t, samePrev p p' -> sameLetters s t ->
            option_Forall2
              (fun x y => sameLetters x.1 y.1 /\ Forall2 sameLetters x.2 y.2)
              (pair [] <$> k p s) (pair [] <$> k' p' t)).
  { intros p p' s t Hp Hs. destruct (Hk p p' s t Hp Hs); simpl; constructor.
    split; [constructor|done]. }
  induction 1 as [|c d s t Hcd Hst IH]; intros p p' Hp; simpl.
  - apply Hstop; [done|constructor].
  - rewrite (inSet_fold cs c d Hcd).
    destruct (inSet true cs d).
    + destruct (IH (Some c) (Some d)) as [[w ps] [w' ps'] [Hw Hps]|].
      { by constructor. }
      * constructor. split; [by constructor|done].
      * apply Hstop; [done|by constructor].
    + apply Hstop; [done|by constructor].
Qed.

Lemma exec_fold (r : list atom) :
  forall p p' s t, samePrev p p' -> sameLetters s t ->
    option_Forall2 (Forall2 sameLetters) (exec true r p s) (exec true r p' t).
Proof.
  induction r as [|a r IH]; intros p p' s t Hp Hs.
  - simpl. constructor. constructor.
  - assert (Hzero : forall b : bool,
              option_Forall2 (Forall2 sameLetters)
                (if b then cons [] <$> exec true r p s else None)
                (if b then cons [] <$> exec true r p' t else None)).
    { intros [|]; [|constructor].
      destruct (IH p p' s t Hp Hs); simpl; constructor.
      constructor; [constructor|done]. }
    assert (Hone : forall ok : N -> bool,
              (forall c d, foldEq c d -> ok c = ok d) ->
              option_Forall2 (Forall2 sameLetters)
                (match s with
                 | c :: s' => if ok c then cons [c] <$> exec true r (Some c) s' else None
                 | [] => None
                 end)
                (match t with
                 | c :: s' => if ok c then cons [c] <$> exec true r (Some c) s' else None
                 | [] => None
                 end)).
    { intros ok Hok. destruct Hs as [|c d s t Hcd Hst]; [constructor|].
      rewrite (Hok c d Hcd). destruct (ok d); [|constructor].
      destruct (IH (Some c) (Some d) s t); [by constructor|done| |]; simpl;
        constructor.
      constructor; [|done]. by repeat constructor. }
    destruct a; simpl.
    + apply Hone. intros c' d' H. unfold foldEq in H. simpl. by rewrite H.
    + apply Hone. apply inSet_fold.
    + destruct (many_fold (exec true r) (exec true r) cs IH s t Hs p p' Hp)
        as [[w ps] [w' ps'] [Hw Hps]|]; simpl; constructor.
      by constructor.
    + destruct Hs as [|c d s t Hcd Hst]; [constructor|].
      rewrite (inSet_fold cs c d Hcd). destruct (inSet true cs d); [|constructor].
      destruct (many_fold (exec true r) (exec true r) cs IH s t Hst
                  (Some c) (Some d))
        as [[w ps] [w' ps'] [Hw Hps]|]; [by constructor| |]; simpl; constructor.
      constructor; [|done]. by constructor.
    + rewrite (wordBefore_fold p p' Hp), (wordAt_fold s t Hs). apply Hzero.
    + replace (match t with [] => true | _ :: _ => false end)
        with (match s with [] => true | _ :: _ => false end)
        by (by destruct Hs).
      apply Hzero.
    + apply (Hzero true).
    + apply (Hzero true).
Qed.

Lemma sameLetters_concat_length (ps qs : list jsstring) :
  Forall2 sameLetters ps qs -> length (concat ps) = length (concat qs).
Proof.
  induction 1 as [|x y ps qs Hxy _ IH]; simpl; [done|].
  rewrite !length_app, IH. f_equal. by eapply Forall2_length.
Qed.

Lemma scan_fold (re : regex) :
  ignoreCase re = true ->
  forall s t, sameLetters s t -> forall armed skip p p', samePrev p p' ->
    Forall2 sameSegment (scan re armed skip p s) (scan re armed skip p' t).
Proof.
  intros Hic.
  induction 1 as [|c d s t Hcd Hst IH]; intros armed skip p p' Hp.
  - destruct skip; simpl; [|constructor].
    destruct armed; [|constructor].
    rewrite Hic.
    destruct (exec_fold (atoms re) p p' [] [] Hp) as [ps qs Hpq|];
      [constructor| |constructor].
    constructor; [by constructor|constructor].
  - assert (Hc : samePrev (Some c) (Some d)) by by constructor.
    destruct skip; simpl; [|by apply IH].
    assert (Hgap : Forall2 sameSegment
                     (Gap c :: scan re armed 0 (Some c) s)
                     (Gap d :: scan re armed 0 (Some d) t)).
    { constructor; [by constructor|by apply IH]. }
    destruct armed; [|done].
    rewrite Hic.
    destruct (exec_fold (atoms re) p p' (c :: s) (d :: t) Hp) as [ps qs Hpq|];
      [by constructor| |done].
    constructor; [by constructor|].
    rewrite (sameLetters_concat_length ps qs Hpq).
    destruct (length (concat qs)).
    + constructor; [by constructor|by apply IH].
    + by apply IH.
Qed.

Lemma sameLetters_app (s s' t t' : jsstring) :
  sameLetters s t -> sameLetters s' t' -> sameLetters (s ++ s') (t ++ t').
Proof. apply Forall2_app. Qed.

Lemma captures_fold (r : list atom) :
  forall ps qs cur cur',
    Forall2 sameLetters ps qs -> option_Forall2 sameLetters cur cur' ->
    Forall2 sameLetters (captures r ps cur) (captures r qs cur').
Proof.
  induction r as [|a r IH]; intros ps qs cur cur' Hpq Hcur; [constructor|].
  destruct Hpq as [|p q0 ps qs Hp Hps]; [constructor|].
  destruct a; destruct Hcur as [g g' Hg|]; simpl;
    try (apply IH; [done|constructor]; try done; by apply sameLetters_app).
  all: try (constructor; [done|]; apply IH; [done|constructor]).
  all: apply IH; [done|]; constructor; constructor.
Qed.

(** The text a global replace by the empty string keeps does not depend
    on letter case. *)
Lemma delete_fold (re : regex) (s t : jsstring) :
  ignoreCase re = true -> sameLetters s t ->
  sameLetters (replace re [] s) (replace re [] t).
Proof.
  intros Hic Hst. unfold replace, replaceWith. rewrite !render_delete.
  unfold segments.
  assert (H := scan_fold re Hic s t Hst true 0%nat None None
                 (None_Forall2 _)).
  induction H as [|g g' segs segs' Hg _ IH]; simpl; [constructor|].
  apply sameLetters_app; [|done].
  destruct Hg; simpl; constructor; [done|constructor].
Qed.

Lemma strip_fold (s t : jsstring) :
  sameLetters s t -> sameLetters (strip s) (strip t).
Proof. intros H. unfold strip. by do 3 (apply delete_fold; [done|]). Qed.

Lemma firstHit_fold (re : regex) (s t : jsstring) (segs segs' : list segment) :
  Forall2 sameSegment segs segs' ->
  forall pos,
    option_Forall2 (fun m m' => Forall2 sameLetters (m_groups m) (m_groups m'))
      (firstHit re s pos segs) (firstHit re t pos segs').
Proof.
  induction 1 as [|g g' segs segs' Hg _ IH]; intros pos; simpl; [constructor|].
  destruct Hg as [c d _|ps qs Hpq]; [apply IH|].
  constructor. simpl. apply captures_fold; [done|constructor].
Qed.

(** The first capture group of the first match does not depend on
    letter case, up to the case of its own letters. *)
Lemma group1_fold (re : regex) (s t : jsstring) :
  ignoreCase re = true -> sameLetters s t ->
  option_Forall2 sameLetters
    (group1 (firstMatch re s)) (group1 (firstMatch re t)).
Proof.
  intros Hic Hst. unfold group1, firstMatch, segments.
  destruct (firstHit_fold re s t _ _
              (scan_fold re Hic s t Hst true 0%nat None None (None_Forall2 _))
              0%nat) as [m m' Hm|]; simpl; [|constructor].
  destruct Hm; simpl; by constructor.
Qed.

(** ** Frame and insertion point *)

(** Every match of a scan is a match of the pattern. *)
Lemma scan_hits (re : regex) :
  forall s armed skip p,
    Forall (fun g => match g with
                     | Hit ps => exists p' s',
                         exec (ignoreCase re) (atoms re) p' s' = Some ps
                     | Gap _ => True
                     end)
      (scan re armed skip p s).
Proof.
  induction s as [|c s IH]; intros armed skip p.
  - destruct skip; simpl; [|constructor].
    destruct armed; [|constructor].
    destruct (exec (ignoreCase re) (atoms re) p []) as [ps|] eqn:E;
      constructor; [eauto|constructor].
  - destruct skip as [|skip]; simpl; [|apply IH].
    destruct (if armed then exec (ignoreCase re) (atoms re) p (c :: s) else None)
      as [ps|] eqn:E.
    + destruct armed; [|done]. constructor; [eauto|].
      destruct (length (concat ps)); [constructor; [done|]|]; apply IH.
    + constructor; [done|apply IH].
Qed.

Lemma renderM_framed (lookup : Lookup) (subject : jsstring) :
  forall segs pos, exists outs,
    Forall2 (framed lookup) segs outs
    /\ renderM pathRegex (fun m => editTag lookup (m_text m)) subject pos segs
       = Ok (concat outs).
Proof.
  induction segs as [|[c|ps] segs IH]; intros pos.
  - exists []. split; [constructor|done].
  - destruct (IH (S pos)) as (outs & Hf & Hr).
    exists ([c] :: outs). split; [by constructor|].
    simpl. by rewrite Hr.
  - destruct (IH (pos + length (concat ps))%nat) as (outs & Hf & Hr).
    destruct (editTag_ok lookup (concat ps)) as [o Ho].
    exists (o :: outs). split; [by constructor|].
    simpl. rewrite Ho. simpl. by rewrite Hr.
Qed.

(** Frame property of the merge.  The document is the concatenation of
    the segments the tag pattern cuts it into; every match ends with its
    only closing angle bracket; and the result is the concatenation of
    what becomes of each segment, where a unit outside the matches stays
    as it is and a match becomes what [editTag] makes of it. *)
Theorem editSvg_frame (svgStr : jsstring) (lookup : Lookup) :
  let segs := segments pathRegex svgStr in
  svgStr = concat (map segText segs)
  /\ Forall (fun g => match g with
                      | Hit ps => soleClose (concat ps)
                      | Gap _ => True
                      end) segs
  /\ exists outs, Forall2 (framed lookup) segs outs
                  /\ editSvg svgStr lookup = Ok (concat outs).
Proof.
  intros segs. split; [|split].
  - symmetry. apply segments_text.
  - eapply Forall_impl; [apply scan_hits|].
    intros [c|ps]; [done|]. intros (p' & s' & H).
    by eapply pathRegex_soleClose.
  - apply renderM_framed.
Qed.

Lemma editTag_unfold (lookup : Lookup) (tag longName value region : jsstring) :
  resolve lookup (group1 (firstMatch labelRegex (strip tag)))
    (group1 (firstMatch idRegex (strip tag)))
  = Ok (longName, value, region) ->
  editTag lookup tag =
    match firstMatch idRegex (strip tag) with
    | Some _ =>
        Ok (replace idInsertRegex
              (newlineAttrs longName value region ++ str "$1") (strip tag))
    | None =>
        Ok (replace closeRegex [] (strip tag)
            ++ newlineAttrs longName value region ++ str ">")
    end.
Proof. intros H. unfold editTag. rewrite H. reflexivity. Qed.

(** Where the three lines go.  For a tag that ends with its only closing
    angle bracket, with [attrs] the three attribute lines of the resolved
    values: when the stripped tag has no id attribute, the result is the
    stripped tag with [attrs] before its closing angle bracket; when it
    has one and [attrs] holds no dollar sign, the result is the stripped
    tag with [attrs] before the white space of the first occurrence of
    white space, id= and a quote. *)
Theorem editTag_insertion (lookup : Lookup) (tag : jsstring) :
  soleClose tag ->
  exists longName value region,
    resolve lookup (group1 (firstMatch labelRegex (strip tag)))
      (group1 (firstMatch idRegex (strip tag)))
    = Ok (longName, value, region)
    /\ let attrs := newlineAttrs longName value region in
       match firstMatch idRegex (strip tag) with
       | None =>
           exists body,
             strip tag = body ++ str ">" /\ (chr ">" ∉ body)
             /\ editTag lookup tag = Ok (body ++ attrs ++ str ">")
       | Some _ =>
           dollar ∉ attrs ->
           (exists pre ws w post,
             strip tag = pre ++ ws ++ w ++ post
             /\ ws <> [] /\ Forall (fun c => isSpace c = true) ws
             /\ sameLetters w (str "id=" ++ [dq])
             /\ (forall pre1 pre2, pre = pre1 ++ pre2 -> pre2 <> [] ->
                   exec true (atoms idInsertRegex) (prevAfter None pre1)
                     (pre2 ++ ws ++ w ++ post) = None)
             /\ editTag lookup tag = Ok (pre ++ attrs ++ ws ++ w ++ post))
       end.
Proof.
  intros Htag.
  destruct (resolve_ok lookup (group1 (firstMatch labelRegex (strip tag)))
              (group1 (firstMatch idRegex (strip tag))))
    as [[[longName value] region] Hres].
  exists longName, value, region. split; [done|].
  intros attrs. rewrite (editTag_unfold _ _ _ _ _ Hres). fold attrs.
  destruct (firstMatch idRegex (strip tag)) as [mi|] eqn:Hid.
  - intros Hd.
    destruct (replace_idInsert (strip tag) attrs mi Hid Hd)
      as (pre & ws & w & post & Hc & Hne & Hws & Hw & Hno & Hrep).
    exists pre, ws, w, post. repeat split; try done.
    by rewrite Hrep.
  - destruct (strip_soleClose tag Htag) as (body & Hb & Hnb).
    exists body. split; [done|]. split; [done|].
    rewrite Hb. by rewrite replace_close.
Qed.

Lemma editTag_insertion_witness :
  soleClose tagNorte
  /\ exists longName value region,
       resolve lookupNorte (group1 (firstMatch labelRegex (strip tagNorte)))
         (group1 (firstMatch idRegex (strip tagNorte)))
       = Ok (longName, value, region).
Proof.
  assert (H : soleClose tagNorte).
  { exists (removelast tagNorte). split; [vm_compute; reflexivity|].
    apply (bool_decide_unpack _). vm_compute. exact I. }
  split; [exact H|].
  destruct (editTag_insertion lookupNorte tagNorte H) as (l & v & r & Hr & _).
  by exists l, v, r.
Defined.

(** ** More on the field-splitter *)

Lemma split_nonempty (sep : N) (s : jsstring) : split sep s <> [].
Proof.
  destruct s as [|c s]; [done|]. simpl.
  destruct (c =? sep); [done|]. by destruct (split sep s).
Qed.

Lemma splitFrom_unquoted (rest : jsstring) : forall fields cur,
  dq ∉ rest ->
  splitFrom fields cur false rest
  = fields ++ match split (chr ",") rest with
              | p :: ps => (cur ++ p) :: ps
              | [] => [cur]
              end.
Proof.
  induction rest as [|c rest IH]; intros fields cur Hq.
  - simpl. by rewrite app_nil_r.
  - apply not_elem_of_cons in Hq as [Hc Hq].
    cbn [splitFrom split].
    destruct (N.eqb_spec c dq) as [->|_]; [by destruct Hc|].
    destruct (N.eqb_spec c (chr ",")) as [->|_]; cbn [andb negb].
    + rewrite IH by done. rewrite <- app_assoc. cbn [app].
      rewrite app_nil_r. pose proof (split_nonempty (chr ",") rest).
      by destruct (split (chr ",") rest).
    + rewrite IH by done. pose proof (split_nonempty (chr ",") rest).
      destruct (split (chr ",") rest); [done|]. by rewrite <- app_assoc.
Qed.

(** A line without a double quote is split at its commas and nowhere
    else: [parseCSVLine] gives what [line.split(",")] gives. *)
Theorem parseCSVLine_unquoted (line : jsstring) :
  dq ∉ line -> parseCSVLine line = split (chr ",") line.
Proof.
  intros Hq. rewrite parseCSVLine_splitFrom, splitFrom_unquoted by done.
  pose proof (split_nonempty (chr ",") line).
  by destruct (split (chr ",") line).
Qed.

Lemma parseCSVLine_unquoted_witness :
  (dq ∉ str "a,,b c")
  /\ parseCSVLine (str "a,,b c") = split (chr ",") (str "a,,b c").
Proof.
  assert (H : dq ∉ str "a,,b c") by evaluated.
  split; [exact H|]. exact (parseCSVLine_unquoted _ H).
Defined.

Lemma splitFrom_open (rest : jsstring) : forall fields cur,
  dq ∉ rest -> splitFrom fields cur true rest = fields ++ [cur ++ rest].
Proof.
  induction rest as [|c rest IH]; intros fields cur Hq.
  - simpl. by rewrite app_nil_r.
  - apply not_elem_of_cons in Hq as [Hc Hq].
    cbn [splitFrom].
    destruct (N.eqb_spec c dq) as [->|_]; [by destruct Hc|].
    rewrite andb_false_r. rewrite IH by done. by rewrite <- app_assoc.
Qed.

Lemma splitFrom_app_unquoted (a : jsstring) : forall fields cur rest,
  dq ∉ a ->
  splitFrom fields cur false (a ++ rest)
  = splitFrom (fields ++ removelast (match split (chr ",") a with
                                     | p :: ps => (cur ++ p) :: ps
                                     | [] => [cur]
                                     end))
      (List.last (match split (chr ",") a with
                  | p :: ps => (cur ++ p) :: ps
                  | [] => [cur]
                  end) [])
      false rest.
Proof.
  induction a as [|c a IH]; intros fields cur rest Hq.
  - simpl. by rewrite !app_nil_r.
  - apply not_elem_of_cons in Hq as [Hc Hq].
    cbn [app splitFrom split].
    destruct (N.eqb_spec c dq) as [->|_]; [by destruct Hc|].
    destruct (N.eqb_spec c (chr ",")) as [->|_]; cbn [andb negb].
    + rewrite IH by done. rewrite app_nil_r.
      pose proof (split_nonempty (chr ",") a).
      destruct (split (chr ",") a) as [|p ps]; [done|].
      cbn [app]. rewrite <- app_assoc. reflexivity.
    + rewrite IH by done.
      pose proof (split_nonempty (chr ",") a).
      destruct (split (chr ",") a) as [|p ps]; [done|].
      by rewrite <- app_assoc.
Qed.

(** An unterminated quote.  When the only double quote of a line opens a
    quoted part that is never closed, what follows the quote, commas
    included, goes to the field that was being read: the fields are those
    of the text before the quote, the last of them extended by the text
    after the quote. *)
Theorem parseCSVLine_unterminated (a b : jsstring) :
  dq ∉ a -> dq ∉ b ->
  parseCSVLine (a ++ dq :: b)
  = removelast (split (chr ",") a) ++ [List.last (split (chr ",") a) [] ++ b].
Proof.
  intros Ha Hb. rewrite parseCSVLine_splitFrom, splitFrom_app_unquoted by done.
  pose proof (split_nonempty (chr ",") a).
  destruct (split (chr ",") a) as [|p ps]; [done|].
  cbn [app splitFrom]. change (dq =? dq) with true. cbn match. cbn [negb].
  by rewrite splitFrom_open.
Qed.

Lemma parseCSVLine_unterminated_witness :
  (dq ∉ str "a,b") /\ (dq ∉ str "c,d")
  /\ parseCSVLine (str "a,b" ++ dq :: str "c,d") = [str "a"; str "bc,d"].
Proof.
  assert (Ha : dq ∉ str "a,b") by evaluated.
  assert (Hb : dq ∉ str "c,d") by evaluated.
  split; [exact Ha|]. split; [exact Hb|].
  exact (parseCSVLine_unterminated _ _ Ha Hb).
Defined.

(** ** Lines of the table *)

Lemma render_fill (re : regex) (t subject : jsstring) :
  dollar ∉ t ->
  forall segs pos,
    render re (fun mi => getSubstitution mi t) subject pos segs
    = concat (map (fillText t) segs).
Proof.
  intros Ht. induction segs as [|[c|ps] segs IH]; intros pos; simpl.
  - reflexivity.
  - by rewrite IH.
  - rewrite IH. f_equal.
    rewrite <- (app_nil_r t) at 1. rewrite getSubstitution_plain by done.
    simpl. by rewrite app_nil_r.
Qed.

Lemma scan_cons (re : regex) (armed : bool) (p : option N) (c : N)
  (s : jsstring) :
  scan re armed 0 p (c :: s)
  = match (if armed then exec (ignoreCase re) (atoms re) p (c :: s) else None) with
    | Some ps =>
        Hit ps ::
        match length (concat ps) with
        | O => Gap c :: scan re (global re) 0 (Some c) s
        | S k => scan re (global re) k (Some c) s
        end
    | None => Gap c :: scan re armed 0 (Some c) s
    end.
Proof. reflexivity. Qed.

Lemma exec_crlf (p : option N) (s : jsstring) :
  exec false [Lit cr; Lit lf] p s
  = match s with
    | c :: d :: _ => if (c =? cr) && (d =? lf) then Some [[c]; [d]] else None
    | _ => None
    end.
Proof.
  destruct s as [|c [|d s]]; simpl; try reflexivity.
  - by destruct (c =? cr).
  - destruct (c =? cr); [|reflexivity]. by destruct (d =? lf).
Qed.

Lemma scan_crlf (n : nat) : forall s p,
  (length s <= n)%nat ->
  concat (map (fillText [lf]) (scan crlfRegex true 0 p s)) = dropCr s.
Proof.
  induction n as [|n IH]; intros s p Hn.
  - destruct s; [reflexivity|simpl in Hn; lia].
  - destruct s as [|c s]; [reflexivity|]. simpl in Hn.
    rewrite scan_cons.
    change (exec (ignoreCase crlfRegex) (atoms crlfRegex))
      with (exec false [Lit cr; Lit lf]).
    rewrite exec_crlf. cbn [dropCr].
    destruct s as [|d s].
    + rewrite andb_false_r. reflexivity.
    + cbn [head]. destruct (N.eqb_spec c cr) as [->|Hc]; cbn [andb].
      * destruct (N.eqb_spec d lf) as [->|Hd].
        -- rewrite bool_decide_eq_true_2 by done.
           change (length (concat [[cr]; [lf]])) with 2%nat.
           cbn [map concat fillText app global crlfRegex scan].
           change (dropCr (lf :: s)) with (lf :: dropCr s).
           f_equal. apply IH. simpl in Hn. lia.
        -- rewrite bool_decide_eq_false_2 by (intros [= ->]; done).
           cbn [map concat fillText app]. f_equal. apply IH. lia.
      * cbn [map concat fillText app]. f_equal. apply IH. lia.
Qed.

(** The replace of [parseCSV] removes each carriage return that a line
    feed follows. *)
Lemma replace_crlf (s : jsstring) : replace crlfRegex [lf] s = dropCr s.
Proof.
  unfold replace, replaceWith.
  rewrite render_fill by (apply (bool_decide_unpack _); vm_compute; exact I).
  by apply (scan_crlf (length s)).
Qed.

Lemma split_app (sep : N) (x y : jsstring) :
  split sep (x ++ sep :: y) = split sep x ++ split sep y.
Proof.
  induction x as [|c x IH]; cbn [app split].
  - by rewrite N.eqb_refl.
  - destruct (c =? sep); [by rewrite IH|].
    rewrite IH. pose proof (split_nonempty sep x).
    by destruct (split sep x).
Qed.

Lemma split_none (sep : N) (s : jsstring) : sep ∉ s -> split sep s = [s].
Proof.
  induction s as [|c s IH]; [done|]. intros [Hc Hs]%not_elem_of_cons.
  cbn [split]. destruct (N.eqb_spec c sep) as [->|_]; [done|].
  by rewrite IH.
Qed.

Lemma split_Forall (P : N -> Prop) (sep : N) (s : jsstring) :
  Forall P s -> Forall (Forall P) (split sep s).
Proof.
  induction 1 as [|c s Hc Hs IH]; cbn [split].
  - by repeat constructor.
  - destruct (c =? sep); [by constructor|].
    inversion IH; by repeat constructor.
Qed.

Lemma dropCr_app_lf (x y : jsstring) :
  dropCr (x ++ lf :: y) = dropCr (x ++ [lf]) ++ dropCr y.
Proof.
  induction x as [|c x IH]; [reflexivity|].
  cbn [app dropCr].
  replace (head (x ++ lf :: y)) with (head (x ++ [lf])) by (by destruct x).
  destruct ((c =? cr) && bool_decide (head (x ++ [lf]) = Some lf)); [done|].
  by rewrite IH.
Qed.

Lemma Forall_of_sublist (P : N -> Prop) (l1 l2 : jsstring) :
  sublist l1 l2 -> Forall P l2 -> Forall P l1.
Proof.
  intros Hs H. apply Forall_forall. intros x Hx.
  rewrite Forall_forall in H. apply H. by eapply elem_of_sublist.
Qed.

Lemma dropCr_sublist (s : jsstring) : sublist (dropCr s) s.
Proof.
  induction s as [|c s IH]; [constructor|]. cbn [dropCr].
  destruct ((c =? cr) && _); by constructor.
Qed.

Lemma dropCr_snoc_lf (x : jsstring) :
  exists x', dropCr (x ++ [lf]) = x' ++ [lf] /\ sublist x' x.
Proof.
  induction x as [|c x (x' & IH & Hsub)].
  - by exists [].
  - cbn [app dropCr]. rewrite IH.
    destruct ((c =? cr) && _).
    + exists x'. split; [done|]. by constructor.
    + exists (c :: x'). split; [done|]. by constructor.
Qed.

Lemma dropCr_keep (s : jsstring) : lf ∉ s -> dropCr s = s.
Proof.
  induction s as [|c s IH]; [done|]. intros [Hc Hs]%not_elem_of_cons.
  cbn [dropCr]. rewrite bool_decide_eq_false_2, andb_false_r, IH; [done..|].
  destruct s as [|d s]; [done|]. intros [= ->].
  apply Hs. by left.
Qed.

Lemma dropCr_cons (c : N) (s : jsstring) :
  dropCr (c :: s)
  = if (c =? cr) && bool_decide (head s = Some lf) then dropCr s
    else c :: dropCr s.
Proof. reflexivity. Qed.

Lemma dropCr_snoc_keep (a : jsstring) :
  last a <> Some cr -> dropCr (a ++ [lf]) = dropCr a ++ [lf].
Proof.
  induction a as [|c a IH]; intros Hl; [reflexivity|].
  change ((c :: a) ++ [lf]) with (c :: (a ++ [lf])).
  rewrite !dropCr_cons.
  destruct a as [|d a].
  - destruct (N.eqb_spec c cr) as [->|_]; [done|]. reflexivity.
  - rewrite IH; [|by rewrite last_cons_cons in Hl].
    change (head ((d :: a) ++ [lf])) with (head (d :: a)).
    by destruct ((c =? cr) && _).
Qed.

Lemma dropSpace_nil (l : jsstring) :
  dropSpace l = [] <-> Forall (fun c => isSpace c = true) l.
Proof.
  induction l as [|c l IH]; cbn [dropSpace].
  - split; [constructor|done].
  - destruct (isSpace c) eqn:E.
    + rewrite IH. split; [by constructor|by inversion 1].
    + split; [done|]. inversion 1; congruence.
Qed.

Lemma dropSpace_head (l : jsstring) (c : N) (l' : jsstring) :
  dropSpace l = c :: l' -> isSpace c = false.
Proof.
  induction l as [|d l IH]; cbn [dropSpace]; [done|].
  destruct (isSpace d) eqn:E; [done|]. by intros [= <- _].
Qed.

Lemma isBlank_spec (l : jsstring) :
  isBlank l = true <-> Forall (fun c => isSpace c = true) l.
Proof.
  unfold isBlank, trim. split.
  - intros H. apply dropSpace_nil.
    destruct (rev (dropSpace (rev (dropSpace l)))) eqn:E; [|done].
    apply (f_equal (@rev N)) in E. rewrite rev_involutive in E. simpl in E.
    apply dropSpace_nil, Forall_rev in E. rewrite rev_involutive in E.
    destruct (dropSpace l) as [|c l'] eqn:E'; [done|].
    apply dropSpace_head in E'. inversion E; congruence.
  - intros H. apply dropSpace_nil in H. by rewrite H.
Qed.

Lemma parseCSV_lines (unicodeLower : jsstring -> jsstring) (t1 t2 : jsstring) :
  List.filter (fun l => negb (isBlank l)) (split lf (dropCr t1))
  = List.filter (fun l => negb (isBlank l)) (split lf (dropCr t2)) ->
  parseCSV unicodeLower t1 = parseCSV unicodeLower t2.
Proof. intros H. unfold parseCSV. by rewrite !replace_crlf, H. Qed.

Lemma filter_blank (l : jsstring) (ls : list jsstring) :
  Forall (fun c => isSpace c = true) l ->
  List.filter (fun l => negb (isBlank l)) (l :: ls)
  = List.filter (fun l => negb (isBlank l)) ls.
Proof. intros H%isBlank_spec. simpl. by rewrite H. Qed.

(** A table text that is white space only (the empty text included), or
    that has no line feed and so at most a header line, gives no rows;
    the run is then the merge with empty lookup tables. *)
Theorem parseCSV_no_rows (unicodeLower : jsstring -> jsstring)
  (text : jsstring) :
  Forall (fun c => isSpace c = true) text \/ (lf ∉ text) ->
  parseCSV unicodeLower text = []
  /\ forall svg, run unicodeLower svg text = editSvg svg emptyLookup.
Proof.
  intros H.
  assert (E : parseCSV unicodeLower text = []).
  { unfold parseCSV. rewrite replace_crlf. destruct H as [H|H].
    - assert (Hd : Forall (fun c => isSpace c = true) (dropCr text))
        by (eapply Forall_of_sublist; [apply dropCr_sublist|done]).
      apply (split_Forall _ lf) in Hd.
      induction Hd as [|l ls Hl _ IH]; [reflexivity|].
      by rewrite filter_blank.
    - rewrite dropCr_keep, split_none by done. simpl.
      by destruct (negb (isBlank text)). }
  split; [exact E|]. intros svg. unfold run. by rewrite E.
Qed.

(** Blank lines are dropped.  A line of white space only changes nothing,
    whether it stands before the first line, between two lines, or after
    the last line (there, provided the text before the line feed does not
    end with a carriage return, which the line feed would take away). *)
Theorem parseCSV_blank_lines (unicodeLower : jsstring -> jsstring)
  (blank : jsstring) :
  Forall (fun c => isSpace c = true) blank -> lf ∉ blank ->
  (forall b,
     parseCSV unicodeLower (blank ++ lf :: b) = parseCSV unicodeLower b)
  /\ (forall a b,
        parseCSV unicodeLower (a ++ lf :: blank ++ lf :: b)
        = parseCSV unicodeLower (a ++ lf :: b))
  /\ (forall a,
        last a <> Some cr ->
        parseCSV unicodeLower (a ++ lf :: blank) = parseCSV unicodeLower a).
Proof.
  intros Hb Hlf.
  assert (Hlead : forall b,
             List.filter (fun l => negb (isBlank l))
               (split lf (dropCr (blank ++ lf :: b)))
             = List.filter (fun l => negb (isBlank l)) (split lf (dropCr b))).
  { intros b. rewrite dropCr_app_lf.
    destruct (dropCr_snoc_lf blank) as (bl & -> & Hsub).
    rewrite <- app_assoc. cbn [app]. rewrite split_app, split_none.
    - cbn [app]. apply filter_blank. by eapply Forall_of_sublist.
    - intros Hin. apply Hlf. by eapply elem_of_sublist. }
  split; [|split].
  - intros b. apply parseCSV_lines, Hlead.
  - intros a b. apply parseCSV_lines.
    rewrite (dropCr_app_lf a), (dropCr_app_lf a b).
    destruct (dropCr_snoc_lf a) as (a' & -> & _).
    rewrite <- !app_assoc. cbn [app]. rewrite !split_app, !List.filter_app.
    f_equal. apply Hlead.
  - intros a Ha. apply parseCSV_lines.
    rewrite dropCr_app_lf, dropCr_snoc_keep, (dropCr_keep blank) by done.
    rewrite <- app_assoc. cbn [app].
    rewrite split_app, List.filter_app, (split_none lf blank) by done.
    rewrite filter_blank by done. simpl. by rewrite app_nil_r.
Qed.

Lemma dropCr_crlf (a b : jsstring) :
  last a <> Some cr -> dropCr (a ++ cr :: lf :: b) = dropCr (a ++ lf :: b).
Proof.
  induction a as [|c a IH]; intros Hl; [reflexivity|].
  cbn [app]. rewrite !dropCr_cons.
  destruct a as [|d a].
  - cbn [app head].
    destruct (N.eqb_spec c cr) as [->|_]; [done|]. reflexivity.
  - rewrite IH by (by rewrite last_cons_cons in Hl). reflexivity.
Qed.

(** A line that ends with carriage return and line feed is read like the
    line that ends with a line feed alone, unless another carriage return
    stands before the pair. *)
Theorem parseCSV_crlf (unicodeLower : jsstring -> jsstring) (a b : jsstring) :
  last a <> Some cr ->
  parseCSV unicodeLower (a ++ cr :: lf :: b)
  = parseCSV unicodeLower (a ++ lf :: b).
Proof. intros Ha. apply parseCSV_lines. by rewrite dropCr_crlf. Qed.

(** ** Letter case of the header *)

Lemma foldEq_low (c d x : N) : foldEq c d -> x < 65 -> (c =? x) = (d =? x).
Proof.
  intros H Hx. apply foldEq_cases in H.
  destruct (N.eqb_spec c x), (N.eqb_spec d x); lia.
Qed.

Lemma sameLetters_rev (s t : jsstring) :
  sameLetters s t -> sameLetters (rev s) (rev t).
Proof.
  induction 1 as [|c d s t Hc Hs IH]; [constructor|].
  simpl. apply sameLetters_app; [done|]. by repeat constructor.
Qed.

Lemma dropSpace_fold (s t : jsstring) :
  sameLetters s t -> sameLetters (dropSpace s) (dropSpace t).
Proof.
  induction 1 as [|c d s t Hc Hs IH]; [constructor|].
  cbn [dropSpace]. rewrite <- (isSpace_fold c d Hc).
  destruct (isSpace c); [done|by constructor].
Qed.

Lemma trim_fold (s t : jsstring) :
  sameLetters s t -> sameLetters (trim s) (trim t).
Proof.
  intros H. unfold trim.
  by apply sameLetters_rev, dropSpace_fold, sameLetters_rev, dropSpace_fold.
Qed.

Lemma isBlank_fold (s t : jsstring) :
  sameLetters s t -> isBlank s = isBlank t.
Proof.
  intros H%trim_fold. unfold isBlank. by destruct H.
Qed.

Lemma dropCr_fold (s t : jsstring) :
  sameLetters s t -> sameLetters (dropCr s) (dropCr t).
Proof.
  induction 1 as [|c d s t Hc Hs IH]; [constructor|].
  rewrite !dropCr_cons.
  rewrite <- (foldEq_low c d cr Hc) by done.
  assert (E : bool_decide (head s = Some lf) = bool_decide (head t = Some lf)).
  { destruct Hs as [|c' d' s t Hc' _]; [done|]. cbn [head].
    pose proof (foldEq_low c' d' lf Hc' eq_refl) as E.
    apply bool_decide_ext. split; intros [= ->].
    - rewrite N.eqb_refl in E. symmetry in E. by apply N.eqb_eq in E as ->.
    - rewrite N.eqb_refl in E. by apply N.eqb_eq in E as ->. }
  rewrite <- E.
  destruct ((c =? cr) && _); [done|by constructor].
Qed.

Lemma splitFrom_fold (n : nat) : forall rest rest',
  (length rest <= n)%nat ->
  sameLetters rest rest' ->
  forall fields fields' cur cur' inQuotes,
    Forall2 sameLetters fields fields' -> sameLetters cur cur' ->
    Forall2 sameLetters (splitFrom fields cur inQuotes rest)
      (splitFrom fields' cur' inQuotes rest').
Proof.
  induction n as [|n IH]; intros rest rest' Hn Hr;
    destruct Hr as [|c d s t Hc Hs];
    intros fields fields' cur cur' inQuotes Hf Hcur;
    try (simpl in Hn; lia);
    try (simpl; apply Forall2_app; [done|]; by repeat constructor).
  simpl in Hn. cbn [splitFrom].
  rewrite <- (foldEq_low c d dq Hc) by done.
  rewrite <- (foldEq_low c d (chr ",") Hc) by done.
  assert (Hsnoc : forall x y, foldEq x y -> sameLetters (cur ++ [x]) (cur' ++ [y]))
    by (intros x y Hxy; apply sameLetters_app; [done|by repeat constructor]).
  destruct (c =? dq).
  - destruct inQuotes; cbn [negb]; [|apply IH; [lia|done..]].
    destruct Hs as [|c2 d2 s t Hc2 Hs]; [apply IH; [lia|constructor|done..]|].
    rewrite <- (foldEq_low c2 d2 dq Hc2) by done.
    simpl in Hn.
    destruct (c2 =? dq).
    + apply IH; [lia|done|done|]. by apply Hsnoc.
    + apply IH; [simpl; lia|by constructor|done..].
  - destruct ((c =? chr ",") && negb inQuotes).
    + apply IH; [lia|done| |constructor].
      apply Forall2_app; [done|by repeat constructor].
    + apply IH; [lia|done|done|by apply Hsnoc].
Qed.

Lemma parseCSVLine_fold (s t : jsstring) :
  sameLetters s t -> Forall2 sameLetters (parseCSVLine s) (parseCSVLine t).
Proof.
  intros H. rewrite !parseCSVLine_splitFrom.
  by apply (splitFrom_fold (length s)); [lia|done|constructor|constructor].
Qed.

Lemma splitFrom_Forall (P : N -> Prop) (n : nat) : P dq -> forall rest,
  (length rest <= n)%nat -> Forall P rest ->
  forall fields cur inQuotes,
    Forall (Forall P) fields -> Forall P cur ->
    Forall (Forall P) (splitFrom fields cur inQuotes rest).
Proof.
  intros Hq. induction n as [|n IH]; intros rest Hn Hr;
    destruct Hr as [|c s Hc Hs]; intros fields cur inQuotes Hf Hcur;
    try (simpl in Hn; lia);
    try (simpl; apply Forall_app; by repeat constructor).
  simpl in Hn. cbn [splitFrom].
  assert (Hsnoc : forall x, P x -> Forall P (cur ++ [x]))
    by (intros x Hx; apply Forall_app; by repeat constructor).
  destruct (c =? dq).
  - destruct inQuotes; cbn [negb]; [|apply IH; [lia|done..]].
    destruct Hs as [|c2 s Hc2 Hs]; [apply IH; [lia|constructor|done..]|].
    simpl in Hn. destruct (c2 =? dq).
    + apply IH; [lia|done|done|by apply Hsnoc].
    + apply IH; [simpl; lia|by constructor|done..].
  - destruct ((c =? chr ",") && negb inQuotes).
    + apply IH; [lia|done| |constructor].
      apply Forall_app; by repeat constructor.
    + apply IH; [lia|done|done|by apply Hsnoc].
Qed.

Lemma dropSpace_Forall (P : N -> Prop) (s : jsstring) :
  Forall P s -> Forall P (dropSpace s).
Proof.
  induction 1 as [|c s Hc Hs IH]; [constructor|]. cbn [dropSpace].
  destruct (isSpace c); [done|by constructor].
Qed.

Lemma trim_Forall (P : N -> Prop) (s : jsstring) :
  Forall P s -> Forall P (trim s).
Proof.
  intros H. unfold trim.
  by apply Forall_rev, dropSpace_Forall, Forall_rev, dropSpace_Forall.
Qed.

Lemma asciiLower_fold (c d : N) : foldEq c d -> asciiLower c = asciiLower d.
Proof.
  intros H%foldEq_cases. unfold asciiLower.
  destruct (N.leb_spec 65 c), (N.leb_spec c 90), (N.leb_spec 65 d),
    (N.leb_spec d 90); cbn [andb]; lia.
Qed.

Lemma isAscii_fold (c d : N) : foldEq c d -> isAscii c = isAscii d.
Proof.
  intros H%foldEq_cases. unfold isAscii.
  destruct (N.ltb_spec c 128), (N.ltb_spec d 128); lia.
Qed.

Lemma toLowerCase_fold (unicodeLower : jsstring -> jsstring) (s t : jsstring) :
  sameLetters s t -> Forall (fun c => isAscii c = true) s ->
  toLowerCase unicodeLower s = toLowerCase unicodeLower t.
Proof.
  intros Hst Hs. unfold toLowerCase.
  assert (Ht : Forall (fun c => isAscii c = true) t).
  { clear -Hst Hs. induction Hst as [|c d s t Hc _ IH]; [constructor|].
    inversion Hs; subst. constructor; [|by apply IH].
    by rewrite <- (isAscii_fold c d Hc). }
  rewrite (proj2 (forallb_forall _ _)), (proj2 (forallb_forall _ _)).
  - clear Hs Ht. induction Hst as [|c d s t Hc _ IH]; [done|].
    simpl. by rewrite IH, (asciiLower_fold c d Hc).
  - intros x Hx. rewrite Forall_forall in Ht. apply Ht. by apply list_elem_of_In.
  - intros x Hx. rewrite Forall_forall in Hs. apply Hs. by apply list_elem_of_In.
Qed.

Lemma sameLetters_low (s t : jsstring) (x : N) :
  sameLetters s t -> x < 65 -> x ∉ s -> x ∉ t.
Proof.
  intros H Hx. induction H as [|c d s t Hc _ IH]; [done|].
  intros [Hc' Hs]%not_elem_of_cons. apply not_elem_of_cons. split; [|by apply IH].
  intros ->. apply Hc'. pose proof (foldEq_low c d d Hc Hx) as E.
  rewrite N.eqb_refl in E. by apply N.eqb_eq in E.
Qed.

Lemma headers_fold (unicodeLower : jsstring -> jsstring) (s t : jsstring) :
  sameLetters s t -> Forall (fun c => isAscii c = true) s ->
  map (fun h => toLowerCase unicodeLower (trim h)) (parseCSVLine s)
  = map (fun h => toLowerCase unicodeLower (trim h)) (parseCSVLine t).
Proof.
  intros Hst Hs.
  pose proof (parseCSVLine_fold s t Hst) as H.
  assert (Ha : Forall (Forall (fun c => isAscii c = true)) (parseCSVLine s)).
  { rewrite parseCSVLine_splitFrom.
    by apply (splitFrom_Forall _ (length s)); [|lia|done|constructor|constructor]. }
  induction H as [|f g fs gs Hfg _ IH]; [done|].
  inversion Ha; subst. simpl. f_equal; [|by apply IH].
  apply toLowerCase_fold; [by apply trim_fold|by apply trim_Forall].
Qed.

(** Header case-insensitivity.  Two tables that differ only in the case
    of ASCII letters in their first line, an ASCII line, give the same
    rows. *)
Theorem parseCSV_header_case (unicodeLower : jsstring -> jsstring)
  (h1 h2 body : jsstring) :
  sameLetters h1 h2 ->
  Forall (fun c => isAscii c = true) h1 ->
  lf ∉ h1 ->
  parseCSV unicodeLower (h1 ++ lf :: body)
  = parseCSV unicodeLower (h2 ++ lf :: body).
Proof.
  intros Hh Ha Hlf. unfold parseCSV.
  rewrite !replace_crlf, (dropCr_app_lf h1), (dropCr_app_lf h2).
  assert (Hd : sameLetters (dropCr (h1 ++ [lf])) (dropCr (h2 ++ [lf])))
    by (apply dropCr_fold, sameLetters_app; [done|by repeat constructor]).
  destruct (dropCr_snoc_lf h1) as (h1' & E1 & S1).
  destruct (dropCr_snoc_lf h2) as (h2' & E2 & _).
  rewrite E1, E2 in Hd |- *.
  apply Forall2_app_inv in Hd as [Hd _].
  2:{ apply Forall2_length in Hd. rewrite !length_app in Hd. simpl in Hd. lia. }
  assert (Hlf1 : lf ∉ h1') by (intros Hin; apply Hlf; by eapply elem_of_sublist).
  assert (Hlf2 : lf ∉ h2') by (by eapply sameLetters_low).
  rewrite <- !app_assoc. cbn [app].
  rewrite !split_app, (split_none lf h1'), (split_none lf h2') by done.
  cbn [app List.filter]. rewrite <- (isBlank_fold h1' h2' Hd).
  destruct (isBlank h1'); cbn [negb]; [reflexivity|].
  rewrite (headers_fold unicodeLower h1' h2' Hd); [reflexivity|].
  by eapply Forall_of_sublist.
Qed.

Lemma parseCSV_header_case_witness :
  parseCSV noUnicode (str "ID,Label,VALUE,Region" ++ lf :: str "p1,Norte,7,2")
  = parseCSV noUnicode (str "id,label,value,region" ++ lf :: str "p1,Norte,7,2").
Proof.
  apply parseCSV_header_case.
  - repeat constructor.
  - repeat constructor.
  - evaluated.
Defined.

Lemma parseCSV_blank_lines_witness :
  parseCSV noUnicode (str "id,value" ++ lf :: str "  " ++ lf :: str "p1,7")
  = parseCSV noUnicode (str "id,value" ++ lf :: str "p1,7").
Proof.
  assert (Hb : Forall (fun c => isSpace c = true) (str "  "))
    by (repeat constructor).
  assert (Hlf : lf ∉ str "  ") by evaluated.
  exact (proj1 (proj2 (parseCSV_blank_lines noUnicode _ Hb Hlf)) _ _).
Defined.

Lemma parseCSV_crlf_witness :
  parseCSV noUnicode (str "id,value" ++ cr :: lf :: str "p1,7")
  = parseCSV noUnicode (str "id,value" ++ lf :: str "p1,7").
Proof. apply parseCSV_crlf. vm_compute. discriminate. Defined.

Lemma parseCSV_no_rows_witness :
  parseCSV noUnicode (str "id,label,value,region") = [].
Proof.
  apply (parseCSV_no_rows noUnicode). right. evaluated.
Defined.

(** ** Keys of the lookup tables *)

Lemma objGet_objSet_keep (o : jsobj) (k k' : jsstring) (e e' : Entry.t) :
  objGet o k = VEntry e -> k <> k' -> objGet (objSet o k' e') k = VEntry e.
Proof.
  unfold objGet, objSet. intros H Hne.
  repeat case_bool_decide; simpl in *; subst; try done.
  - destruct (own o !! k); [done|].
    destruct (proto o ≫= _); [done|].
    by apply objectPrototype_not_entry in H.
  - by rewrite lookup_insert_ne.
Qed.

Lemma objSet_plain (o : jsobj) (k k' : jsstring) (e : Entry.t) :
  k' <> protoKey -> k' <> k ->
  proto o = None -> own o !! k = None ->
  proto (objSet o k' e) = None /\ own (objSet o k' e) !! k = None.
Proof.
  intros Hp Hne Ho Hk. unfold objSet.
  rewrite bool_decide_eq_false_2 by done. simpl.
  by rewrite lookup_insert_ne.
Qed.

Lemma objGet_plain (o : jsobj) (k : jsstring) :
  k <> protoKey -> k ∉ builtinNames ->
  proto o = None -> own o !! k = None -> objGet o k = VUndefined.
Proof.
  intros Hp Hb Ho Hk. unfold objGet, objectPrototype.
  rewrite bool_decide_eq_false_2, Hk, Ho by done. simpl.
  by rewrite bool_decide_eq_false_2.
Qed.

(** Last write wins.  In each table the entry found under a non-empty key
    is the one made from the last row that has this key, whatever rows
    with other keys follow it. *)
Theorem buildLookup_last_wins (rows1 rows2 : list (gmap jsstring jsstring))
  (r : gmap jsstring jsstring) :
  let lookup := buildLookup (rows1 ++ r :: rows2) in
  let id := rowField r "id" [] in
  let label := rowField r "label" [] in
  (id <> [] ->
   (forall r', r' ∈ rows2 -> rowField r' "id" [] <> id) ->
   objGet (byId lookup) id = VEntry (entryById r))
  /\ (label <> [] ->
      (forall r', r' ∈ rows2 -> rowField r' "label" [] <> label) ->
      objGet (byLabel lookup) label = VEntry (entryByLabel r)).
Proof.
  intros lookup id label. subst lookup.
  induction rows2 as [|x rows2 IH] using rev_ind.
  - split; intros Hk _.
    + rewrite buildLookup_snoc, buildLookup_row_byId.
      apply truthyStr_nonempty in Hk. fold id. rewrite Hk.
      apply objGet_objSet_eq.
    + rewrite buildLookup_snoc, buildLookup_row_byLabel.
      apply truthyStr_nonempty in Hk. fold label. rewrite Hk.
      apply objGet_objSet_eq.
  - replace (rows1 ++ r :: rows2 ++ [x]) with ((rows1 ++ r :: rows2) ++ [x])
      by (by rewrite <- app_assoc).
    rewrite buildLookup_snoc, buildLookup_row_byId, buildLookup_row_byLabel.
    destruct IH as [IHid IHlabel].
    split; intros Hk Hrows.
    + assert (Hx : rowField x "id" [] <> id).
      { apply Hrows, elem_of_app. right. by apply list_elem_of_singleton. }
      assert (Hg : objGet (byId (buildLookup (rows1 ++ r :: rows2))) id
                   = VEntry (entryById r)).
      { apply IHid; [done|]. intros r' Hr'. apply Hrows, elem_of_app. by left. }
      destruct (truthyStr _); [|done].
      apply objGet_objSet_keep; [done|]. by intros E.
    + assert (Hx : rowField x "label" [] <> label).
      { apply Hrows, elem_of_app. right. by apply list_elem_of_singleton. }
      assert (Hg : objGet (byLabel (buildLookup (rows1 ++ r :: rows2))) label
                   = VEntry (entryByLabel r)).
      { apply IHlabel; [done|]. intros r' Hr'. apply Hrows, elem_of_app. by left. }
      destruct (truthyStr _); [|done].
      apply objGet_objSet_keep; [done|]. by intros E.
Qed.

Lemma buildLookup_plain (rows : list (gmap jsstring jsstring)) (k : jsstring) :
  let lookup := buildLookup rows in
  ((forall r, r ∈ rows ->
      rowField r "id" [] <> k /\ rowField r "id" [] <> protoKey) ->
   proto (byId lookup) = None /\ own (byId lookup) !! k = None)
  /\ ((forall r, r ∈ rows ->
         rowField r "label" [] <> k /\ rowField r "label" [] <> protoKey) ->
      proto (byLabel lookup) = None /\ own (byLabel lookup) !! k = None).
Proof.
  simpl. induction rows as [|x rows [IHid IHlabel]] using rev_ind; [done|].
  rewrite buildLookup_snoc, buildLookup_row_byId, buildLookup_row_byLabel.
  split; intros Hrows.
  - destruct (Hrows x) as [Hx Hp].
    { apply elem_of_app. right. by apply list_elem_of_singleton. }
    destruct IHid as [Ho Hk].
    { intros r' Hr'. apply Hrows, elem_of_app. by left. }
    destruct (truthyStr _); [|done]. by apply objSet_plain.
  - destruct (Hrows x) as [Hx Hp].
    { apply elem_of_app. right. by apply list_elem_of_singleton. }
    destruct IHlabel as [Ho Hk].
    { intros r' Hr'. apply Hrows, elem_of_app. by left. }
    destruct (truthyStr _); [|done]. by apply objSet_plain.
Qed.

(** A missing key.  For a key that is not the name of a property of
    Object.prototype, a table built from rows none of which has this key
    (or the key __proto__, which would install a prototype) answers
    undefined. *)
Theorem buildLookup_miss (rows : list (gmap jsstring jsstring)) (k : jsstring) :
  k <> protoKey -> k ∉ builtinNames ->
  let lookup := buildLookup rows in
  ((forall r, r ∈ rows ->
      rowField r "id" [] <> k /\ rowField r "id" [] <> protoKey) ->
   objGet (byId lookup) k = VUndefined)
  /\ ((forall r, r ∈ rows ->
         rowField r "label" [] <> k /\ rowField r "label" [] <> protoKey) ->
      objGet (byLabel lookup) k = VUndefined).
Proof.
  intros Hp Hb. simpl. destruct (buildLookup_plain rows k) as [Hid Hlabel].
  split; intros Hrows.
  - destruct (Hid Hrows). by apply objGet_plain.
  - destruct (Hlabel Hrows). by apply objGet_plain.
Qed.

Lemma buildLookup_last_wins_witness :
  let hs := map str ["id"; "label"; "value"; "region"]%string in
  let r1 := makeRow hs (map str ["a"; "Alfa"; "1"; "2"]%string) in
  let r2 := makeRow hs (map str ["a"; "Beta"; "3"; "4"]%string) in
  let r3 := makeRow hs (map str ["b"; "Beta"; "5"; "6"]%string) in
  objGet (byId (buildLookup ([r1] ++ r2 :: [r3]))) (rowField r2 "id" [])
  = VEntry {| Entry.value := str "3"; Entry.region := str "4";
              Entry.label := Some (str "Beta"); Entry.id := None |}
  /\ objGet (byLabel (buildLookup ([r1] ++ r2 :: [r3]))) (str "Beta")
     = VEntry {| Entry.value := str "5"; Entry.region := str "6";
                 Entry.label := None; Entry.id := Some (str "b") |}.
Proof.
  intros hs r1 r2 r3. split; [|vm_compute; reflexivity].
  refine (eq_trans (proj1 (buildLookup_last_wins [r1] [r3] r2) _ _) _).
  - vm_compute. discriminate.
  - intros r' ->%list_elem_of_singleton. vm_compute. discriminate.
  - vm_compute. reflexivity.
Defined.

Lemma buildLookup_miss_witness :
  let rows := parseCSV noUnicode csvRegionNorth in
  objGet (byId (buildLookup rows)) (str "p9") = VUndefined
  /\ objGet (byLabel (buildLookup rows)) (str "p9") = VUndefined.
Proof.
  intros rows.
  assert (Hp : str "p9" <> protoKey) by discriminate.
  assert (Hb : str "p9" ∉ builtinNames) by evaluated.
  destruct (buildLookup_miss rows (str "p9") Hp Hb) as [Hid Hlabel].
  split; [apply Hid|apply Hlabel]; apply Forall_forall; evaluated.
Defined.

(** ** Escaping of attribute values *)

Lemma scan_quote (t : jsstring) (s : jsstring) : forall p,
  concat (map (fillText t) (scan quoteRegex true 0 p s))
  = concat (map (fun c => if c =? dq then t else [c]) s).
Proof.
  induction s as [|c s IH]; intros p; [reflexivity|].
  rewrite scan_cons.
  change (exec (ignoreCase quoteRegex) (atoms quoteRegex) p (c :: s))
    with (if c =? dq then Some [[c]] else None).
  cbn [map concat]. destruct (c =? dq).
  - cbn [length concat app map fillText global quoteRegex]. by rewrite IH.
  - cbn [map concat fillText app]. by rewrite IH.
Qed.

Lemma sanitizeAttrValue_escape (s : jsstring) :
  sanitizeAttrValue (Some s) = escapeQuotes s.
Proof.
  unfold sanitizeAttrValue, replace, replaceWith.
  rewrite render_fill by evaluated. apply scan_quote.
Qed.

Lemma escapeQuotes_cons (c : N) (s : jsstring) :
  escapeQuotes (c :: s)
  = (if c =? dq then str "&quot;" else [c]) ++ escapeQuotes s.
Proof. reflexivity. Qed.

Lemma escapeQuotes_keeps (P : N -> Prop) (s : jsstring) :
  Forall P (str "&quot;") -> Forall P s -> Forall P (escapeQuotes s).
Proof.
  intros Hq. induction 1 as [|c s Hc Hs IH]; [constructor|].
  rewrite escapeQuotes_cons. apply Forall_app. split; [|done].
  destruct (c =? dq); [done|by constructor].
Qed.

Lemma escapeQuotes_no_quote (s : jsstring) : dq ∉ escapeQuotes s.
Proof.
  induction s as [|c s IH]; [by intros H%elem_of_nil|].
  rewrite escapeQuotes_cons. intros [H|H]%elem_of_app; [|done].
  destruct (N.eqb_spec c dq) as [->|Hc].
  - revert H. evaluated.
  - apply list_elem_of_singleton in H. congruence.
Qed.

Lemma escapeQuotes_id (s : jsstring) : dq ∉ s -> escapeQuotes s = s.
Proof.
  induction s as [|c s IH]; [done|]. intros [Hc Hs]%not_elem_of_cons.
  rewrite escapeQuotes_cons, IH by done.
  destruct (N.eqb_spec c dq) as [->|_]; [done|reflexivity].
Qed.

Lemma escapeQuotes_nonempty (s : jsstring) : s <> [] -> escapeQuotes s <> [].
Proof.
  destruct s as [|c s]; [done|]. intros _. rewrite escapeQuotes_cons.
  by destruct (c =? dq).
Qed.

(** What [sanitizeAttrValue] does to a string: each double quote becomes
    the entity &quot; and nothing else changes.  So the result holds no
    double quote, a string without one is returned as it is, and a
    non-empty string stays non-empty. *)
Theorem sanitizeAttrValue_quotes (s : jsstring) :
  sanitizeAttrValue (Some s) = escapeQuotes s
  /\ (dq ∉ sanitizeAttrValue (Some s))
  /\ ((dq ∉ s) -> sanitizeAttrValue (Some s) = s)
  /\ (s <> [] -> sanitizeAttrValue (Some s) <> []).
Proof.
  rewrite sanitizeAttrValue_escape. split; [done|]. split; [|split].
  - apply escapeQuotes_no_quote.
  - apply escapeQuotes_id.
  - apply escapeQuotes_nonempty.
Qed.

(** ** More on the resolution *)

(** The label tier.  When the id tier does not apply (no id, an empty id,
    or nothing truthy in byId under the id) and byLabel holds an entry
    under the non-empty style-label, value and region are that entry's, or
    the literal 0 where the entry's is empty, and long-name is the
    style-label itself. *)
Theorem resolve_label_tier (lookup : Lookup) (elemId : option jsstring)
  (l : jsstring) (e : Entry.t) :
  truthyStr elemId && truthy (objGet (byId lookup) (toKey elemId)) = false ->
  l <> [] ->
  objGet (byLabel lookup) l = VEntry e ->
  resolve lookup (Some l) elemId
  = Ok (l, orElse (Some (Entry.value e)) (str "0"),
        orElse (Some (Entry.region e)) (str "0")).
Proof.
  intros Hid Hl He. unfold resolve. rewrite Hid.
  apply truthyStr_nonempty in Hl as Ht. rewrite Ht. cbn [toKey].
  rewrite He. simpl. unfold entryProp. simpl.
  destruct l; [done|]. reflexivity.
Qed.



(** An id that names a property every object inherits (constructor,
    toString, __proto__, ...) and that no row of the table has.  The read
    [lookup.byId[elemId]] finds the inherited property, which is truthy,
    so the id tier is taken: value and region are the literal 0 and byLabel
    is not consulted, even if it holds an entry for the style-label. *)
Theorem resolve_inherited_id (lookup : Lookup) (inkscapeLabel : option jsstring)
  (k : jsstring) :
  k ∈ protoKey :: builtinNames ->
  (forall e, objGet (byId lookup) k <> VEntry e) ->
  resolve lookup inkscapeLabel (Some k)
  = Ok (orElse inkscapeLabel (str "None"), str "0", str "0").
Proof.
  intros Hk Hno.
  assert (Hg : objGet (byId lookup) k = VBuiltin).
  { revert Hno. unfold objGet. apply elem_of_cons in Hk as [->|Hk].
    - rewrite bool_decide_eq_true_2 by done.
      destruct (proto (byId lookup)) as [e|]; [|done].
      intros H. by destruct (H e).
    - rewrite bool_decide_eq_false_2.
      2:{ intros ->. revert Hk. evaluated. }
      destruct (own (byId lookup) !! k) as [e|]; [intros H; by destruct (H e)|].
      intros _.
      assert (Hp : forall e, entryProp e k = None).
      { intros e. unfold entryProp.
        rewrite !bool_decide_eq_false_2; [done|..];
          intros ->; revert Hk; evaluated. }
      unfold objectPrototype. rewrite bool_decide_eq_true_2 by done.
      destruct (proto (byId lookup)) as [e|]; simpl; [|done].
      by rewrite Hp. }
  unfold resolve. cbn [toKey]. rewrite Hg.
  assert (Ht : truthyStr (Some k) = true).
  { apply truthyStr_nonempty. intros ->. revert Hk. evaluated. }
  rewrite Ht. reflexivity.
Qed.

Lemma resolve_label_tier_witness :
  resolve lookupNorte (Some (str "Norte")) (Some (str "p2"))
  = Ok (str "Norte", str "99", str "99").
Proof.
  refine (resolve_label_tier lookupNorte (Some (str "p2")) (str "Norte")
            {| Entry.value := str "99"; Entry.region := str "99";
               Entry.label := None; Entry.id := Some (str "zz") |} _ _ _).
  - vm_compute. reflexivity.
  - discriminate.
  - vm_compute. reflexivity.
Defined.

Lemma resolve_inherited_id_witness :
  resolve lookupNorte (Some (str "Norte")) (Some (str "constructor"))
  = Ok (str "Norte", str "0", str "0").
Proof.
  refine (resolve_inherited_id lookupNorte (Some (str "Norte"))
            (str "constructor") _ _).
  - evaluated.
  - intros e. vm_compute. discriminate.
Defined.

(** ** Scanning a text in parts *)

Lemma anywhere_false (P : jsstring -> bool) (s : jsstring) :
  anywhere P s = false <-> forall g1 g2, s = g1 ++ g2 -> P g2 = false.
Proof.
  induction s as [|c s IH]; cbn [anywhere].
  - rewrite orb_false_r. split.
    + intros H g1 g2 E. symmetry in E. by apply app_eq_nil in E as [_ ->].
    + intros H. by apply (H []).
  - rewrite orb_false_iff, IH. split.
    + intros [Hc Hs] [|d g1] g2 E.
      * simpl in E. by subst.
      * injection E as _ E. by eapply Hs.
    + intros H. split; [by apply (H [])|].
      intros g1 g2 ->. by apply (H (c :: g1)).
Qed.

Lemma foldPrefix_letters (xs w rest : jsstring) :
  Forall2 (fun c x => canonicalize true c = canonicalize true x) w xs ->
  foldPrefix xs (w ++ rest) = true.
Proof.
  induction 1 as [|c x w xs Hc Hw IH]; [done|].
  cbn [app foldPrefix]. unfold canonicalize in Hc.
  by rewrite Hc, N.eqb_refl, IH.
Qed.

Lemma scan_skip (re : regex) : forall k s armed p,
  (k <= length s)%nat ->
  scan re armed k p s = scan re armed 0 (prevAfter p (take k s)) (drop k s).
Proof.
  induction k as [|k IH]; intros s armed p Hk.
  - by rewrite take_0, drop_0.
  - destruct s as [|c s]; [simpl in Hk; lia|].
    cbn [scan take drop]. rewrite prevAfter_cons. apply IH. simpl in Hk. lia.
Qed.

Lemma scan_hit (re : regex) (p : option N) (m rest : jsstring)
  (ps : list jsstring) :
  global re = true ->
  exec (ignoreCase re) (atoms re) p (m ++ rest) = Some ps ->
  concat ps = m -> m <> [] ->
  scan re true 0 p (m ++ rest) = Hit ps :: scan re true 0 (prevAfter p m) rest.
Proof.
  intros Hg He Hm Hne. destruct m as [|c m]; [done|].
  change ((c :: m) ++ rest) with (c :: (m ++ rest)) in *.
  rewrite scan_cons, He, Hm, Hg. cbn [length]. f_equal.
  rewrite scan_skip by (rewrite length_app; lia).
  by rewrite take_app_length, drop_app_length, prevAfter_cons.
Qed.

Lemma scan_miss (re : regex) (p : option N) (c : N) (s : jsstring) :
  exec (ignoreCase re) (atoms re) p (c :: s) = None ->
  scan re true 0 p (c :: s) = Gap c :: scan re true 0 (Some c) s.
Proof. intros He. by rewrite scan_cons, He. Qed.

Lemma scan_end (re : regex) (p : option N) :
  exec (ignoreCase re) (atoms re) p [] = None -> scan re true 0 p [] = [].
Proof. intros He. simpl. by rewrite He. Qed.

Lemma scan_gaps (re : regex) (s : jsstring) : forall p,
  (forall g1 g2, s = g1 ++ g2 ->
     exec (ignoreCase re) (atoms re) (prevAfter p g1) g2 = None) ->
  scan re true 0 p s = map Gap s.
Proof.
  induction s as [|c s IH]; intros p H.
  - apply scan_end. exact (H [] [] eq_refl).
  - rewrite scan_miss by exact (H [] _ eq_refl). cbn [map]. f_equal.
    apply IH. intros g1 g2 ->. rewrite <- (prevAfter_cons p).
    exact (H (c :: g1) g2 eq_refl).
Qed.

Lemma renderM_gaps (re : regex) (f : matchInfo -> Exc jsstring)
  (subject g : jsstring) : forall pos,
  renderM re f subject pos (map Gap g) = Ok g.
Proof.
  induction g as [|c g IH]; intros pos; [done|].
  cbn [map renderM]. by rewrite IH.
Qed.

Lemma renderM_text (re : regex) (g : jsstring -> Exc jsstring)
  (subject subject' : jsstring) (segs : list segment) : forall pos pos',
  renderM re (fun m => g (m_text m)) subject pos segs
  = renderM re (fun m => g (m_text m)) subject' pos' segs.
Proof.
  induction segs as [|[c|ps] segs IH]; intros pos pos'; cbn [renderM].
  - done.
  - by rewrite (IH (S pos) (S pos')).
  - cbn [infoAt m_text].
    by rewrite (IH (pos + length (concat ps))%nat (pos' + length (concat ps))%nat).
Qed.

Lemma renderM_app (re : regex) (f : matchInfo -> Exc jsstring)
  (subject : jsstring) (segs1 segs2 : list segment) : forall pos,
  renderM re f subject pos (segs1 ++ segs2)
  = x ← renderM re f subject pos segs1;
    y ← renderM re f subject
          (pos + length (concat (map segText segs1)))%nat segs2;
    Ok (x ++ y).
Proof.
  induction segs1 as [|[c|ps] segs1 IH]; intros pos; cbn [app renderM].
  - cbn [map concat length]. rewrite Nat.add_0_r.
    by destruct (renderM re f subject pos segs2).
  - rewrite IH. cbn [map concat segText app length].
    replace (S pos + length (concat (map segText segs1)))%nat
      with (pos + S (length (concat (map segText segs1))))%nat by lia.
    destruct (renderM re f subject (S pos) segs1); [done|]. cbn.
    by destruct (renderM re f subject _ segs2).
  - destruct (f (infoAt re subject pos ps)); [done|]. cbn [mbind Exc_bind].
    rewrite IH. cbn [map concat segText]. rewrite length_app.
    replace (pos + length (concat ps) + length (concat (map segText segs1)))%nat
      with (pos + (length (concat ps) + length (concat (map segText segs1))))%nat
      by lia.
    destruct (renderM re f subject (pos + length (concat ps))%nat segs1);
      [done|]. cbn.
    destruct (renderM re f subject _ segs2); [done|]. cbn.
    by rewrite app_assoc.
Qed.

(** ** The tag pattern *)

Lemma atoms_pathRegex :
  atoms pathRegex
  = map Lit (str "<path")
    ++ [WordBoundary; Star (NotChar (chr ">")); Lit (chr ">")].
Proof. reflexivity. Qed.

(** Nothing before the text bears on a match of the tag pattern. *)
Lemma exec_path_prev (p p' : option N) (s : jsstring) :
  exec true (atoms pathRegex) p s = exec true (atoms pathRegex) p' s.
Proof. by destruct s. Qed.

Lemma scan_path_prev (n : nat) : forall s armed k p p',
  (length s <= n)%nat ->
  scan pathRegex armed k p s = scan pathRegex armed k p' s.
Proof.
  induction n as [|n IH]; intros s armed k p p' Hn.
  - destruct s; [|simpl in Hn; lia]. destruct k; [|done].
    cbn [scan]. change (ignoreCase pathRegex) with true.
    by rewrite (exec_path_prev p p').
  - destruct s as [|c s]; [apply (IH []); simpl; lia|]. simpl in Hn.
    destruct k as [|k]; [|reflexivity].
    rewrite !scan_cons. change (ignoreCase pathRegex) with true.
    rewrite (exec_path_prev p p'). reflexivity.
Qed.

Lemma exec_lits_first (xs : jsstring) (r : list atom) :
  Forall (fun x => canonicalize true x <> canonicalize true (chr ">")) xs ->
  (forall p u rest, chr ">" ∉ u ->
     exec true r p (u ++ chr ">" :: rest) = exec true r p (u ++ [chr ">"])) ->
  forall p u rest, chr ">" ∉ u ->
    exec true (map Lit xs ++ r) p (u ++ chr ">" :: rest)
    = exec true (map Lit xs ++ r) p (u ++ [chr ">"]).
Proof.
  intros Hxs Hr. induction Hxs as [|x xs Hx _ IH]; [exact Hr|].
  intros p [|c u] rest Hu.
  - cbn [map app]. rewrite !exec_Lit_fail by (by intros E; apply Hx). done.
  - apply not_elem_of_cons in Hu as [_ Hu].
    cbn [map app exec]. rewrite IH by done. reflexivity.
Qed.

Lemma exec_path_tail (p : option N) (u rest : jsstring) :
  chr ">" ∉ u ->
  exec true [WordBoundary; Star (NotChar (chr ">")); Lit (chr ">")] p
    (u ++ chr ">" :: rest)
  = exec true [WordBoundary; Star (NotChar (chr ">")); Lit (chr ">")] p
      (u ++ [chr ">"]).
Proof.
  intros Hu. cbn [exec].
  replace (wordAt (u ++ chr ">" :: rest)) with (wordAt (u ++ [chr ">"]))
    by (by destruct u).
  destruct (xorb (wordBefore p) (wordAt (u ++ [chr ">"]))); [|done].
  assert (Hk : forall p c s, inSet true (NotChar (chr ">")) c = true ->
                 exec true [Lit (chr ">")] p (c :: s) = None).
  { intros p0 c s Hc. apply exec_Lit_fail. intros E.
    apply canonicalize_gt in E as ->. done. }
  assert (Hin : Forall (fun c => inSet true (NotChar (chr ">")) c = true) u).
  { apply Forall_forall. intros c Hc. cbn [inSet].
    apply negb_true_iff, N.eqb_neq. intros E.
    apply canonicalize_gt in E as ->. done. }
  change (exec true [Lit (chr ">")]) with
    (fun p s => exec true [Lit (chr ">")] p s).
  rewrite !(many_greedy _ true (NotChar (chr ">")) Hk u _ p Hin);
    [reflexivity|..]; by intros c s [= <- <-].
Qed.

(** A match of the tag pattern ends at the first closing angle bracket:
    what follows that bracket does not bear on it. *)
Lemma exec_path_first (p : option N) (u rest : jsstring) :
  chr ">" ∉ u ->
  exec true (atoms pathRegex) p (u ++ chr ">" :: rest)
  = exec true (atoms pathRegex) p (u ++ [chr ">"]).
Proof.
  rewrite atoms_pathRegex. apply exec_lits_first.
  - repeat constructor; discriminate.
  - intros. by apply exec_path_tail.
Qed.

Lemma exec_path_closed (p : option N) (a b : jsstring) :
  last a = Some (chr ">") ->
  exec true (atoms pathRegex) p (a ++ b) = exec true (atoms pathRegex) p a.
Proof.
  intros Ha.
  assert (Hin : chr ">" ∈ a).
  { apply last_Some in Ha as [a' ->]. apply elem_of_app. right. by left. }
  apply list_elem_of_split_l in Hin as (u & a2 & -> & Hu).
  rewrite <- app_assoc. cbn [app].
  by rewrite (exec_path_first p u (a2 ++ b)), (exec_path_first p u a2).
Qed.

Lemma exec_path_nonempty (p : option N) (s : jsstring) (ps : list jsstring) :
  exec true (atoms pathRegex) p s = Some ps -> concat ps <> [].
Proof.
  intros H. apply pathRegex_soleClose in H as (t & -> & _). by destruct t.
Qed.

Lemma scan_path_app (n : nat) : forall a b p,
  (length a <= n)%nat ->
  a = [] \/ last a = Some (chr ">") ->
  scan pathRegex true 0 p (a ++ b)
  = scan pathRegex true 0 p a ++ scan pathRegex true 0 None b.
Proof.
  assert (Hnil : forall p, scan pathRegex true 0 p [] = []) by done.
  induction n as [|n IH]; intros a b p Hn Ha.
  - destruct a; [|simpl in Hn; lia]. rewrite Hnil.
    apply (scan_path_prev (length b)). lia.
  - destruct a as [|c a].
    { rewrite Hnil. apply (scan_path_prev (length b)). lia. }
    destruct Ha as [|Ha]; [done|]. simpl in Hn.
    destruct (exec true (atoms pathRegex) p (c :: a)) as [ps|] eqn:E.
    + pose proof (exec_path_nonempty _ _ _ E) as Hne.
      destruct (exec_prefix _ _ _ _ _ E) as [a2 Ea].
      rewrite Ea, <- app_assoc.
      assert (E2 : exec (ignoreCase pathRegex) (atoms pathRegex) p
                     (concat ps ++ a2 ++ b) = Some ps).
      { rewrite app_assoc, <- Ea. change (ignoreCase pathRegex) with true.
        by rewrite exec_path_closed. }
      rewrite (scan_hit pathRegex p (concat ps) (a2 ++ b) ps) by done.
      rewrite (scan_hit pathRegex p (concat ps) a2 ps); [|done| |done..].
      2:{ by rewrite <- Ea. }
      cbn [app]. f_equal.
      assert (Hlen : (length a2 <= n)%nat).
      { apply (f_equal length) in Ea. rewrite length_app in Ea. simpl in Ea.
        destruct (concat ps); [done|]. simpl in Ea. lia. }
      apply IH; [done|].
      destruct a2 as [|d a2]; [by left|right].
      rewrite Ea in Ha. by rewrite last_app_cons in Ha.
    + change ((c :: a) ++ b) with (c :: (a ++ b)).
      rewrite (scan_miss pathRegex p c (a ++ b)).
      2:{ change (ignoreCase pathRegex) with true.
          change (c :: a ++ b) with ((c :: a) ++ b).
          by rewrite exec_path_closed. }
      rewrite (scan_miss pathRegex p c a) by done.
      cbn [app]. f_equal. apply IH; [lia|].
      destruct a as [|d a]; [by left|right]. by rewrite last_cons_cons in Ha.
Qed.

Lemma editSvg_app_bind (a b : jsstring) (lookup : Lookup) :
  a = [] \/ last a = Some (chr ">") ->
  editSvg (a ++ b) lookup
  = x ← editSvg a lookup; y ← editSvg b lookup; Ok (x ++ y).
Proof.
  intros Ha. unfold editSvg, replaceWithM, segments.
  rewrite (scan_path_app (length a)) by done.
  rewrite renderM_app.
  rewrite (renderM_text pathRegex (editTag lookup) (a ++ b) a _ 0 0).
  destruct (renderM pathRegex _ a 0 _); [done|]. cbn [mbind Exc_bind].
  by rewrite (renderM_text pathRegex (editTag lookup) (a ++ b) b _ _ 0).
Qed.

(** The merge works tag by tag.  A document cut after any closing angle
    bracket can be merged in two parts: the merge of the whole is the
    merge of the first part followed by the merge of the second. *)
Theorem editSvg_app (a b : jsstring) (lookup : Lookup) :
  last a = Some (chr ">") ->
  exists x y,
    editSvg a lookup = Ok x /\ editSvg b lookup = Ok y
    /\ editSvg (a ++ b) lookup = Ok (x ++ y).
Proof.
  intros Ha. rewrite editSvg_app_bind by (by right).
  destruct (editSvg_ok a lookup) as [x ->].
  destruct (editSvg_ok b lookup) as [y ->].
  by exists x, y.
Qed.

Lemma editSvg_app_witness :
  exists x y,
    editSvg (str "<g><path/>") lookupNorte = Ok x
    /\ editSvg tagNorte lookupNorte = Ok y
    /\ editSvg (str "<g><path/>" ++ tagNorte) lookupNorte = Ok (x ++ y).
Proof. apply editSvg_app. reflexivity. Defined.

Lemma exec_path_letters (p : option N) (s : jsstring) (ps : list jsstring) :
  exec true (atoms pathRegex) p s = Some ps ->
  foldPrefix (str "<path") s = true.
Proof.
  rewrite atoms_pathRegex. intros H.
  apply exec_lits_inv in H as (w & rest & ps1 & -> & Hw & _).
  by apply foldPrefix_letters.
Qed.

(** A document in which the five units of the opening of a path tag occur
    nowhere, in any letter case, is returned as it is. *)
Theorem editSvg_no_path (svgStr : jsstring) (lookup : Lookup) :
  anywhere (foldPrefix (str "<path")) svgStr = false ->
  editSvg svgStr lookup = Ok svgStr.
Proof.
  intros H. unfold editSvg, replaceWithM, segments.
  rewrite scan_gaps; [apply renderM_gaps|].
  intros g1 g2 ->.
  destruct (exec _ _ _ g2) as [ps|] eqn:E; [|done].
  apply exec_path_letters in E.
  rewrite anywhere_false in H. by rewrite (H g1 g2) in E.
Qed.

Lemma editSvg_no_path_witness :
  editSvg (str "<svg><clipPath id=" ++ q "p1" ++ str "/></svg>") lookupNorte
  = Ok (str "<svg><clipPath id=" ++ q "p1" ++ str "/></svg>").
Proof. apply editSvg_no_path. vm_compute. reflexivity. Defined.

(** ** What the strip pattern matches *)

Lemma atoms_stripRegex (name : string) :
  atoms (stripRegex name)
  = Plus Space :: map Lit (str name ++ str "=" ++ [dq])
    ++ [Star (NotChar dq); Lit dq].
Proof.
  unfold stripRegex, lit. cbn [atoms app].
  rewrite !map_app, <- !app_assoc. reflexivity.
Qed.

Lemma concat_singletons (w : jsstring) : concat (map (fun c => [c]) w) = w.
Proof. induction w as [|c w IH]; simpl; [done|]. by rewrite IH. Qed.

Lemma foldPrefix_inv (xs s : jsstring) :
  foldPrefix xs s = true ->
  exists w rest, s = w ++ rest /\ sameLetters w xs.
Proof.
  revert s. induction xs as [|x xs IH]; intros s H.
  - exists [], s. split; [done|constructor].
  - destruct s as [|c s]; [done|]. cbn [foldPrefix] in H.
    apply andb_true_iff in H as [Hc Hs]. apply N.eqb_eq in Hc.
    destruct (IH s Hs) as (w & rest & -> & Hw).
    exists (c :: w), rest. split; [done|]. by constructor.
Qed.

Lemma sameLetters_dq (c : N) : foldEq c dq -> c = dq.
Proof. apply canonicalize_dq. Qed.

(** A match of the strip pattern: white space, then the name with its
    equals sign and opening quote, then a text without quote and the
    closing quote. *)
Lemma exec_strip_inv (name : string) (p : option N) (s : jsstring)
  (ps : list jsstring) :
  exec true (atoms (stripRegex name)) p s = Some ps ->
  exists ws w inner rest,
    s = ws ++ w ++ dq :: inner ++ dq :: rest
    /\ ws <> [] /\ Forall (fun c => isSpace c = true) ws
    /\ sameLetters w (str name ++ str "=")
    /\ (dq ∉ inner)
    /\ concat ps = ws ++ w ++ dq :: inner ++ [dq].
Proof.
  rewrite atoms_stripRegex. intros H.
  apply exec_Plus_inv in H as (ws & rest1 & ps1 & -> & Hne & Hws & -> & H).
  apply exec_lits_inv in H as (w & rest2 & ps2 & -> & Hw & -> & H).
  apply exec_Star_inv in H as (inner & rest3 & ps3 & -> & Hin & -> & H).
  apply exec_Lit_inv in H as (c & rest & ps4 & -> & Hc & -> & H).
  injection H as <-. apply canonicalize_dq in Hc as ->.
  rewrite app_assoc in Hw.
  apply Forall2_app_inv_r in Hw as (w0 & wq & Hw0 & Hq & ->).
  apply Forall2_cons_inv_r in Hq as (c & wq' & Hc & Hq & ->).
  apply Forall2_nil_inv_r in Hq as ->.
  apply canonicalize_dq in Hc as ->.
  exists ws, w0, inner, rest. repeat split; try done.
  - by rewrite <- !app_assoc.
  - intros Hd. rewrite Forall_forall in Hin. specialize (Hin _ Hd).
    vm_compute in Hin. discriminate.
  - cbn [concat]. rewrite concat_app, concat_singletons. cbn [concat].
    by rewrite <- !app_assoc, app_nil_r.
Qed.

(** Where the strip pattern matches, an attribute of the name starts
    after leading white space. *)
Lemma exec_strip_attrAt (name : string) (p : option N) (s : jsstring)
  (ps : list jsstring) :
  exec true (atoms (stripRegex name)) p s = Some ps ->
  exists ws sp rest,
    s = ws ++ sp :: rest /\ Forall (fun c => isSpace c = true) ws
    /\ attrAt name (sp :: rest) = true.
Proof.
  intros H.
  apply exec_strip_inv in H as (ws & w & inner & rest & -> & Hne & Hws & Hw & _).
  destruct (exists_last Hne) as (ws0 & sp & ->).
  apply Forall_app in Hws as [Hws0 Hsp]. inversion Hsp as [|? ? Hs _]; subst.
  exists ws0, sp, (w ++ dq :: inner ++ dq :: rest).
  split; [by rewrite <- app_assoc|]. split; [done|].
  cbn [attrAt]. rewrite Hs. cbn [andb].
  replace (w ++ dq :: inner ++ dq :: rest)
    with ((w ++ [dq]) ++ inner ++ dq :: rest) by (by rewrite <- app_assoc).
  rewrite app_assoc. apply foldPrefix_letters.
  apply Forall2_app; [exact Hw|]. by repeat constructor.
Qed.

Lemma exec_strip_quiet (name : string) (s : jsstring) :
  anywhere (attrAt name) s = false ->
  forall g1 g2 p, s = g1 ++ g2 ->
    exec true (atoms (stripRegex name)) p g2 = None.
Proof.
  intros H g1 g2 p ->.
  destruct (exec _ _ _ g2) as [ps|] eqn:E; [|done].
  apply exec_strip_attrAt in E as (ws & sp & rest & -> & _ & Ha).
  rewrite anywhere_false in H.
  rewrite (H (g1 ++ ws) (sp :: rest)) in Ha; [done|by rewrite <- app_assoc].
Qed.

Lemma replace_quiet (name : string) (s : jsstring) :
  anywhere (attrAt name) s = false -> replace (stripRegex name) [] s = s.
Proof.
  intros H. unfold replace, replaceWith, segments.
  rewrite render_delete, scan_gaps.
  - clear. induction s as [|c s IH]; simpl; [done|]. by rewrite IH.
  - intros g1 g2 E. by eapply exec_strip_quiet.
Qed.

Lemma sameLetters_refl (s : jsstring) : sameLetters s s.
Proof. induction s; by constructor. Qed.

Lemma sameLetters_plain (w xs : jsstring) :
  sameLetters w xs ->
  Forall (fun x => isSpace x = false /\ x <> dq) xs ->
  Forall (fun c => isSpace c = false /\ c <> dq) w.
Proof.
  induction 1 as [|c x w xs Hc _ IH]; [constructor|].
  intros [[Hs Hq] Hxs]%Forall_cons. constructor; [|by apply IH].
  split; [by rewrite (isSpace_fold c x Hc)|].
  intros ->. apply Hq, sameLetters_dq. unfold foldEq in *. by symmetry.
Qed.

(** What the names of the three attributes have in common: a letter
    first, and neither white space nor a double quote anywhere. *)
Lemma target_head (name : string) :
  name ∈ targets ->
  exists x xs, str name = x :: xs /\ isWordChar x = true.
Proof.
  unfold targets. intros H.
  repeat (apply elem_of_cons in H as [->|H]); [..|by apply elem_of_nil in H];
    by eexists _, _.
Qed.

Lemma target_plain (name : string) :
  name ∈ targets ->
  Forall (fun x => isSpace x = false /\ x <> dq) (str name ++ str "=").
Proof.
  unfold targets. intros H.
  repeat (apply elem_of_cons in H as [->|H]); [..|by apply elem_of_nil in H];
    by repeat constructor.
Qed.

Lemma target_letters (name : string) (w : jsstring) :
  name ∈ targets -> sameLetters w (str name ++ str "=") ->
  Forall (fun c => isSpace c = false /\ c <> dq) w
  /\ last w = Some (chr "=").
Proof.
  intros Hn Hw. split.
  - eapply sameLetters_plain; [done|by apply target_plain].
  - apply Forall2_app_inv_r in Hw as (w1 & w2 & _ & Hw2 & ->).
    apply Forall2_cons_inv_r in Hw2 as (c & w3 & Hc & Hw3 & ->).
    apply Forall2_nil_inv_r in Hw3 as ->.
    rewrite last_snoc. f_equal.
    pose proof (foldEq_low c (chr "=") (chr "=") Hc eq_refl) as E.
    rewrite N.eqb_refl in E. by apply N.eqb_eq in E.
Qed.

Lemma attrAt_intro (name : string) (sp : N) (w rest : jsstring) :
  isSpace sp = true -> sameLetters w (str name ++ str "=") ->
  attrAt name (sp :: w ++ dq :: rest) = true.
Proof.
  intros Hs Hw. cbn [attrAt]. rewrite Hs. cbn [andb].
  replace (w ++ dq :: rest) with ((w ++ [dq]) ++ rest)
    by (by rewrite <- app_assoc).
  rewrite app_assoc. apply foldPrefix_letters.
  apply Forall2_app; [exact Hw|]. by repeat constructor.
Qed.

Lemma attrAt_inv (name : string) (s : jsstring) :
  attrAt name s = true ->
  exists sp w rest,
    s = sp :: w ++ dq :: rest /\ isSpace sp = true
    /\ sameLetters w (str name ++ str "=").
Proof.
  destruct s as [|sp s]; [done|]. cbn [attrAt].
  intros [Hs Hp]%andb_true_iff.
  apply foldPrefix_inv in Hp as (w & rest & -> & Hw).
  rewrite app_assoc in Hw.
  apply Forall2_app_inv_r in Hw as (w0 & wq & Hw0 & Hq & ->).
  apply Forall2_cons_inv_r in Hq as (c & wq' & Hc & Hq & ->).
  apply Forall2_nil_inv_r in Hq as ->. apply sameLetters_dq in Hc as ->.
  exists sp, w0, rest. by rewrite <- app_assoc.
Qed.

(** The strip pattern matches a line the merger wrote, and all of it. *)
Lemma exec_strip_line (name : string) (v rest : jsstring) (p : option N) :
  name ∈ targets -> dq ∉ v ->
  exists ps,
    exec true (atoms (stripRegex name)) p (attrLine name v ++ rest) = Some ps
    /\ concat ps = attrLine name v.
Proof.
  intros Hn Hv. destruct (target_head name Hn) as (x & xs & Hx & Hword).
  rewrite atoms_stripRegex. unfold attrLine. rewrite <- !app_assoc.
  cbn [app exec]. change (inSet true Space lf) with true. cbn match.
  assert (Hk : forall p c s, inSet true Space c = true ->
                 exec true (map Lit (str name ++ str "=" ++ [dq])
                            ++ [Star (NotChar dq); Lit dq]) p (c :: s) = None).
  { intros p0 c s Hc. rewrite Hx. apply exec_Lit_fail.
    by apply space_not_letter. }
  rewrite (many_greedy _ true Space Hk indent).
  2:{ by repeat constructor. }
  2:{ intros c s E. rewrite Hx in E. injection E as <- _. cbn [inSet].
      destruct (isSpace x) eqn:Hs; [|done]. exfalso.
      by apply (space_not_letter x x Hs Hword). }
  replace (str name ++ str "=" ++ dq :: v ++ dq :: rest)
    with ((str name ++ str "=" ++ [dq]) ++ v ++ dq :: rest)
    by (by rewrite <- !app_assoc).
  rewrite (exec_lits_intro true _ _ _ _ _ (sameLetters_refl _)).
  cbn [exec].
  assert (Hk2 : forall p c s, inSet true (NotChar dq) c = true ->
                  exec true [Lit dq] p (c :: s) = None).
  { intros p0 c s Hc. apply exec_Lit_fail. intros E.
    apply canonicalize_dq in E as ->. done. }
  assert (Hin : Forall (fun c => inSet true (NotChar dq) c = true) v).
  { apply Forall_forall. intros c Hc. cbn [inSet].
    apply negb_true_iff, N.eqb_neq. intros E.
    apply canonicalize_dq in E as ->. done. }
  change (exec true [Lit dq]) with (fun p s => exec true [Lit dq] p s).
  rewrite (many_greedy _ true (NotChar dq) Hk2 v _ _ Hin).
  2:{ by intros c s [= <- <-]. }
  cbn. eexists. split; [reflexivity|].
  cbn [concat]. rewrite concat_app, concat_singletons. cbn [concat].
  by rewrite <- !app_assoc, app_nil_r.
Qed.

(** ** The strip pass on a merged tag *)

(** Before a line the merger wrote, in a text that holds no start of the
    attribute and does not end with white space, the strip pattern finds
    nothing. *)
Lemma strip_before (name : string) (X L Z : jsstring) (p : option N) :
  name ∈ targets ->
  anywhere (attrAt name) X = false ->
  (forall X' c, X = X' ++ [c] -> isSpace c = false) ->
  head L = Some lf ->
  forall x1 x2, X = x1 ++ x2 -> x2 <> [] ->
    exec true (atoms (stripRegex name)) p (x2 ++ L ++ Z) = None.
Proof.
  intros Hn HX Hend HL x1 x2 -> Hx2.
  destruct (exec _ _ _ _) as [ps|] eqn:E; [exfalso|done].
  apply exec_strip_inv in E as (ws & w & inner & rest & E & Hne & Hws & Hw & _).
  destruct (target_letters name w Hn Hw) as [Hplain _].
  destruct (exists_last Hx2) as (x0 & c & ->).
  assert (Hc : isSpace c = false)
    by (apply (Hend (x1 ++ x0)); by rewrite <- app_assoc).
  assert (Hcws : c ∉ ws).
  { intros Hin. rewrite Forall_forall in Hws. by rewrite (Hws c Hin) in Hc. }
  assert (Hattr : forall j, x0 ++ [c] = ws ++ (w ++ [dq]) ++ j -> False).
  { intros j Ej. destruct (exists_last Hne) as (ws0 & sp & ->).
    apply Forall_app in Hws as [_ Hsp]. inversion Hsp as [|? ? Hs _]; subst.
    rewrite anywhere_false in HX.
    pose proof (HX (x1 ++ ws0) (sp :: w ++ dq :: j)) as Hf.
    rewrite attrAt_intro in Hf by done.
    assert (true = false); [apply Hf|done].
    rewrite Ej, <- !app_assoc. reflexivity. }
  apply app_eq_inv in E as [(k & Ek & Hk)|(k & Ek & _)].
  2:{ apply Hcws. rewrite Ek, !elem_of_app. left. right. by left. }
  destruct k as [|d k].
  { apply Hcws. rewrite app_nil_r in Ek. rewrite <- Ek, elem_of_app.
    right. by left. }
  replace (w ++ dq :: inner ++ dq :: rest)
    with ((w ++ [dq]) ++ inner ++ dq :: rest) in Hk
    by (by rewrite <- app_assoc).
  apply app_eq_inv in Hk as [(j & Ej & Hj)|(j & Ej & _)].
  - destruct j as [|e j].
    + apply (Hattr []). by rewrite Ek, Ej, !app_nil_r.
    + destruct L as [|l L]; [done|]. injection HL as ->.
      injection Hj as <- _.
      assert (Hin : lf ∈ w ++ [dq]) by (rewrite Ej, elem_of_app; right; by left).
      apply elem_of_app in Hin as [Hin|Hin].
      * rewrite Forall_forall in Hplain. by destruct (Hplain lf Hin).
      * by apply list_elem_of_singleton in Hin.
  - apply (Hattr j). by rewrite Ek, Ej.
Qed.

Lemma scan_gaps_then (re : regex) (X R : jsstring) : forall p,
  (forall x1 x2, X = x1 ++ x2 -> x2 <> [] ->
     exec (ignoreCase re) (atoms re) (prevAfter p x1) (x2 ++ R) = None) ->
  scan re true 0 p (X ++ R) = map Gap X ++ scan re true 0 (prevAfter p X) R.
Proof.
  induction X as [|c X IH]; intros p H; [done|].
  cbn [app]. rewrite scan_miss by exact (H [] (c :: X) eq_refl ltac:(done)).
  cbn [map app]. f_equal. rewrite prevAfter_cons. apply IH.
  intros x1 x2 -> Hx2. rewrite <- (prevAfter_cons p).
  exact (H (c :: x1) x2 eq_refl Hx2).
Qed.

Lemma gapText_gaps (s : jsstring) : concat (map gapText (map Gap s)) = s.
Proof. induction s as [|c s IH]; simpl; [done|]. by rewrite IH. Qed.

(** The scan of a strip pattern over a text with one line the merger
    wrote for its attribute: the line is its only match. *)
Lemma scan_pass (name : string) (X v Z : jsstring) :
  name ∈ targets ->
  anywhere (attrAt name) X = false ->
  (forall X' c, X = X' ++ [c] -> isSpace c = false) ->
  dq ∉ v ->
  anywhere (attrAt name) Z = false ->
  exists ps,
    segments (stripRegex name) (X ++ attrLine name v ++ Z)
    = map Gap X ++ Hit ps :: map Gap Z.
Proof.
  intros Hn HX Hend Hv HZ. unfold segments.
  rewrite scan_gaps_then.
  2:{ intros x1 x2 E Hx2.
      exact (strip_before name X (attrLine name v) Z _ Hn HX Hend eq_refl
               x1 x2 E Hx2). }
  destruct (exec_strip_line name v Z (prevAfter None X) Hn Hv) as (ps & He & Hps).
  exists ps.
  rewrite (scan_hit _ _ (attrLine name v) Z ps); try done.
  rewrite scan_gaps; [done|].
  intros g1 g2 E. by eapply exec_strip_quiet.
Qed.

(** One strip pass takes the line of its attribute out of a merged tag
    and leaves the rest as it is. *)
Lemma strip_pass (name : string) (X v Z : jsstring) :
  name ∈ targets ->
  anywhere (attrAt name) X = false ->
  (forall X' c, X = X' ++ [c] -> isSpace c = false) ->
  dq ∉ v ->
  anywhere (attrAt name) Z = false ->
  replace (stripRegex name) [] (X ++ attrLine name v ++ Z) = X ++ Z.
Proof.
  intros Hn HX Hend Hv HZ.
  destruct (scan_pass name X v Z Hn HX Hend Hv HZ) as [ps Hps].
  unfold replace, replaceWith. rewrite render_delete, Hps.
  rewrite map_app, concat_app. cbn [map concat gapText app].
  by rewrite !gapText_gaps.
Qed.

Lemma first_dq (P U R z : jsstring) :
  dq ∉ P -> U ++ dq :: z = P ++ dq :: R ->
  (U = P /\ z = R) \/ exists U', U = P ++ dq :: U' /\ U' ++ dq :: z = R.
Proof.
  intros HP E. apply app_eq_inv in E as [(k & -> & Ek)|(k & -> & Ek)].
  - destruct k as [|d k].
    + left. rewrite app_nil_r. by injection Ek as ->.
    + right. injection Ek as <- ->. by exists k.
  - destruct k as [|d k].
    + left. rewrite app_nil_r. by injection Ek as ->.
    + injection Ek as <- _. destruct HP. rewrite elem_of_app. right. by left.
Qed.

Lemma anywhere_app (P : jsstring -> bool) (A B : jsstring) :
  (forall a1 a2, A = a1 ++ a2 -> a2 <> [] -> P (a2 ++ B) = false) ->
  anywhere P B = false ->
  anywhere P (A ++ B) = false.
Proof.
  intros HA HB. rewrite anywhere_false in HB |- *. intros g1 g2 E.
  symmetry in E. apply app_eq_inv in E as [(k & -> & ->)|(k & -> & ->)].
  - by apply (HB k).
  - destruct k as [|c k]; [by apply (HB [])|]. by apply (HA g1).
Qed.

Lemma anywhere_suffix (P : jsstring -> bool) (A B : jsstring) :
  anywhere P (A ++ B) = false -> anywhere P B = false.
Proof.
  rewrite !anywhere_false. intros H g1 g2 ->. apply (H (A ++ g1)).
  by rewrite <- app_assoc.
Qed.

Lemma foldPrefix_app (xs s t : jsstring) :
  foldPrefix xs s = true -> foldPrefix xs (s ++ t) = true.
Proof.
  revert s. induction xs as [|x xs IH]; intros s; [done|].
  destruct s as [|c s]; [done|]. cbn [app foldPrefix].
  intros [-> Hs]%andb_true_iff. by rewrite IH.
Qed.

Lemma attrAt_app (name : string) (s t : jsstring) :
  attrAt name s = true -> attrAt name (s ++ t) = true.
Proof.
  destruct s as [|c s]; [done|]. cbn [app attrAt].
  intros [-> Hs]%andb_true_iff. by rewrite foldPrefix_app.
Qed.

Lemma anywhere_prefix (name : string) (A B : jsstring) :
  anywhere (attrAt name) (A ++ B) = false -> anywhere (attrAt name) A = false.
Proof.
  rewrite !anywhere_false. intros H g1 g2 ->.
  destruct (attrAt name g2) eqn:E; [|done].
  apply (attrAt_app name g2 B) in E.
  rewrite (H g1 (g2 ++ B)) in E; [done|by rewrite <- app_assoc].
Qed.

(** In a line the merger wrote for another attribute, whose value holds
    no double quote and does not end with an equals sign, no attribute of
    the name starts, whatever follows the line. *)
Lemma line_quiet (name name' : string) (v B : jsstring) :
  name ∈ targets -> name' ∈ targets -> name <> name' ->
  dq ∉ v -> last v <> Some (chr "=") ->
  forall a1 a2, attrLine name' v = a1 ++ a2 -> a2 <> [] ->
    attrAt name (a2 ++ B) = false.
Proof.
  intros Hn Hn' Hne Hv Hlast a1 a2 Ea Ha2.
  destruct (attrAt name (a2 ++ B)) eqn:E; [exfalso|done].
  apply attrAt_inv in E as (sp & w & rest & E & Hs & Hw).
  destruct (target_letters name w Hn Hw) as [Hplain Hw_last].
  assert (Hsp_w : dq ∉ sp :: w).
  { intros [E0|Hin]%elem_of_cons; [by subst sp|].
    rewrite Forall_forall in Hplain. by destruct (Hplain dq Hin). }
  set (P' := [lf] ++ indent ++ str name' ++ str "=").
  assert (EA : attrLine name' v = P' ++ dq :: v ++ [dq])
    by (unfold attrLine, P'; by rewrite <- !app_assoc).
  assert (HP' : dq ∉ P').
  { unfold P', targets in *.
    repeat (apply elem_of_cons in Hn' as [->|Hn']);
      [..|by apply elem_of_nil in Hn']; evaluated. }
  assert (Eall : (a1 ++ sp :: w) ++ dq :: rest = P' ++ dq :: (v ++ dq :: B)).
  { rewrite <- app_assoc. cbn [app]. rewrite <- E, app_assoc, <- Ea, EA.
    rewrite <- !app_assoc. cbn [app]. by rewrite <- !app_assoc. }
  apply first_dq in Eall as [[EU _]|(U' & EU & Erest)]; [| |done].
  - (* the quote is the opening quote of the line *)
    assert (Hany : anywhere (attrAt name) (P' ++ [dq]) = true).
    { rewrite <- EU, <- app_assoc. cbn [app].
      destruct (anywhere (attrAt name) (a1 ++ sp :: w ++ [dq])) eqn:F; [done|].
      rewrite anywhere_false in F.
      pose proof (F a1 _ eq_refl) as Hf.
      by rewrite attrAt_intro in Hf. }
    revert Hany. unfold P', targets in *.
    repeat (apply elem_of_cons in Hn as [->|Hn]);
      [..|by apply elem_of_nil in Hn];
      repeat (apply elem_of_cons in Hn' as [->|Hn']);
      try (by apply elem_of_nil in Hn'); try done; by vm_compute.
  - apply first_dq in Erest as [[EU' _]|(U'' & EU' & _)]; [| |done].
    + (* the quote is the closing quote of the line *)
      subst U'. apply (f_equal last) in EU.
      rewrite last_app_cons, last_cons, Hw_last in EU.
      rewrite last_app_cons, last_cons in EU.
      destruct (last v) eqn:Elast; [by rewrite EU in Hlast|done].
    + (* the quote stands after the line *)
      subst U'.
      assert (E2 : a2 ++ U'' = sp :: w).
      { apply (app_inv_head a1). rewrite app_assoc, <- Ea, EA, EU.
        rewrite <- !app_assoc. cbn [app]. by rewrite <- !app_assoc. }
      apply Hsp_w. rewrite <- E2.
      destruct (exists_last Ha2) as (a2' & c & ->).
      assert (c = dq) as ->.
      { rewrite EA in Ea.
        replace (P' ++ dq :: v ++ [dq]) with ((P' ++ dq :: v) ++ [dq]) in Ea
          by (by rewrite <- app_assoc).
        rewrite (app_assoc a1) in Ea. by apply app_inj_tail in Ea as [_ ->]. }
      rewrite !elem_of_app. left. right. by left.
Qed.

Lemma newlineAttrs_lines (longName value region : jsstring) :
  newlineAttrs longName value region
  = attrLine "long-name" (escapeQuotes longName)
    ++ attrLine "value" (escapeQuotes value)
    ++ attrLine "region" (escapeQuotes region).
Proof.
  unfold newlineAttrs, attrLine. rewrite !sanitizeAttrValue_escape.
  by rewrite <- !app_assoc.
Qed.

Lemma escapeQuotes_app (s t : jsstring) :
  escapeQuotes (s ++ t) = escapeQuotes s ++ escapeQuotes t.
Proof. unfold escapeQuotes. by rewrite map_app, concat_app. Qed.

Lemma escapeQuotes_last (x : jsstring) :
  last x <> Some (chr "=") -> last (escapeQuotes x) <> Some (chr "=").
Proof.
  destruct x as [|c x _] using rev_ind; [done|].
  rewrite last_snoc, escapeQuotes_app. intros Hc.
  change (escapeQuotes [c]) with ((if c =? dq then str "&quot;" else [c]) ++ []).
  rewrite app_nil_r. destruct (c =? dq).
  - by rewrite last_app.
  - by rewrite last_snoc.
Qed.

(** The strip pass takes the three lines out of a merged tag: it gives
    back the stripped tag they were inserted into. *)
Lemma strip_merged (X tail longName value region : jsstring) :
  Forall (fun name => anywhere (attrAt name) (X ++ tail) = false) targets ->
  (forall X' c, X = X' ++ [c] -> isSpace c = false) ->
  Forall (fun x => last x <> Some (chr "=")) [longName; value; region] ->
  strip (X ++ newlineAttrs longName value region ++ tail) = X ++ tail.
Proof.
  intros Hq Hend Hv.
  apply Forall_cons in Hq as [Q1 Hq]. apply Forall_cons in Hq as [Q2 Hq].
  apply Forall_cons in Hq as [Q3 _].
  apply Forall_cons in Hv as [V1 Hv]. apply Forall_cons in Hv as [V2 Hv].
  apply Forall_cons in Hv as [V3 _].
  apply escapeQuotes_last in V1, V2, V3.
  pose proof (escapeQuotes_no_quote longName) as D1.
  pose proof (escapeQuotes_no_quote value) as D2.
  pose proof (escapeQuotes_no_quote region) as D3.
  assert (T1 : "long-name"%string ∈ targets) by (by left).
  assert (T2 : "value"%string ∈ targets) by (right; by left).
  assert (T3 : "region"%string ∈ targets) by (right; right; by left).
  unfold strip. rewrite newlineAttrs_lines, <- !app_assoc.
  rewrite (strip_pass "long-name"); try done.
  - rewrite (strip_pass "value"); try done.
    + rewrite (strip_pass "region"); try done.
      * by eapply anywhere_prefix.
      * by eapply anywhere_suffix.
    + by eapply anywhere_prefix.
    + apply anywhere_app; [by apply line_quiet|by eapply anywhere_suffix].
  - by eapply anywhere_prefix.
  - apply anywhere_app; [by apply line_quiet|].
    apply anywhere_app; [by apply line_quiet|by eapply anywhere_suffix].
Qed.

(** ** Merging a merged tag again *)

Lemma editTag_strip (lookup : Lookup) (t tag : jsstring) :
  strip t = strip tag -> editTag lookup t = editTag lookup tag.
Proof. unfold editTag. by intros ->. Qed.

Lemma newlineAttrs_keeps (P : N -> Prop) (longName value region : jsstring) :
  Forall P (str " =&quot;-abcdefghijklmnopqrstuvwxyz" ++ [lf; dq]) ->
  Forall P longName -> Forall P value -> Forall P region ->
  Forall P (newlineAttrs longName value region).
Proof.
  intros HP H1 H2 H3. rewrite newlineAttrs_lines. unfold attrLine.
  assert (Hq : Forall P (str "&quot;")).
  { rewrite Forall_forall in HP |- *. intros c Hc. apply HP.
    revert c Hc. apply Forall_forall. by apply (bool_decide_unpack _). }
  assert (Hc : forall s : string,
             Forall (fun c => c ∈ str " =&quot;-abcdefghijklmnopqrstuvwxyz"
                                  ++ [lf; dq]) (str s) ->
             Forall P (str s)).
  { intros s Hs. rewrite Forall_forall in HP, Hs |- *. intros c Hc.
    by apply HP, Hs. }
  repeat (apply Forall_app; split);
    try (by apply escapeQuotes_keeps);
    try (apply Hc; by apply (bool_decide_unpack _));
    rewrite Forall_forall in HP; repeat constructor; apply HP;
    by apply (bool_decide_unpack _).
Qed.

Lemma newlineAttrs_dollar (longName value region : jsstring) :
  dollar ∉ longName -> dollar ∉ value -> dollar ∉ region ->
  dollar ∉ newlineAttrs longName value region.
Proof.
  intros H1 H2 H3.
  assert (Hf : forall s, dollar ∉ s <-> Forall (fun c => c <> dollar) s).
  { intros s. rewrite Forall_forall. split.
    - intros H c Hc ->. done.
    - intros H Hin. by apply (H dollar). }
  rewrite Hf in *. apply newlineAttrs_keeps; try done.
  by apply (bool_decide_unpack _).
Qed.

(** White space followed by id= and a quote is a match of the pattern of
    the insertion. *)
Lemma exec_idInsert_intro (p : option N) (sp : N) (ws w post : jsstring) :
  isSpace sp = true -> Forall (fun c => isSpace c = true) ws ->
  sameLetters w (str "id=" ++ [dq]) ->
  exists ps, exec true (atoms idInsertRegex) p (sp :: ws ++ w ++ post) = Some ps.
Proof.
  intros Hs Hws Hw. rewrite atoms_idInsertRegex. cbn [exec inSet].
  rewrite Hs.
  assert (Hk : forall p c s, inSet true Space c = true ->
                 exec true (map Lit (str "id=" ++ [dq]) ++ [Close]) p (c :: s)
                 = None).
  { intros p0 c s Hc. apply exec_Lit_fail. by apply space_not_letter. }
  rewrite (many_greedy _ true Space Hk ws _ _ Hws).
  - rewrite (exec_lits_intro true _ _ _ w post Hw). cbn. eauto.
  - intros c s E. cbn [inSet].
    destruct (isSpace c) eqn:Hc; [|done]. exfalso.
    apply (space_not_letter c 105 Hc eq_refl).
    exact (letters_head true w 105 [100; 61; dq] post c s Hw E).
Qed.

(** Where the merger cuts the stripped tag, when the lines hold no dollar
    sign: into the text before the lines, which does not end with white
    space (for a tag without id, provided none stands before the closing
    angle bracket), and the text after them, which ends with the closing
    angle bracket and, unless it is that bracket alone, starts with white
    space. *)
Lemma editTag_cut (lookup : Lookup) (tag longName value region : jsstring) :
  soleClose tag ->
  resolve lookup (group1 (firstMatch labelRegex (strip tag)))
    (group1 (firstMatch idRegex (strip tag)))
  = Ok (longName, value, region) ->
  dollar ∉ newlineAttrs longName value region ->
  (firstMatch idRegex (strip tag) = None ->
   spaceBeforeLast (strip tag) = false) ->
  exists X tail0,
    strip tag = X ++ tail0 ++ [chr ">"]
    /\ editTag lookup tag
       = Ok (X ++ newlineAttrs longName value region ++ tail0 ++ [chr ">"])
    /\ (forall X' c, X = X' ++ [c] -> isSpace c = false)
    /\ (chr ">" ∉ X ++ tail0)
    /\ (tail0 = [] \/ exists sp t, tail0 = sp :: t /\ isSpace sp = true).
Proof.
  intros Hsole Hres Hd Hclose.
  pose proof (editTag_unfold lookup tag longName value region Hres) as Hedit.
  destruct (strip_soleClose tag Hsole) as (body & Hb & Hgt).
  change (str ">") with [chr ">"] in *.
  destruct (firstMatch idRegex (strip tag)) as [mi|] eqn:Hid.
  - destruct (replace_idInsert (strip tag) _ mi Hid Hd)
      as (pre & ws & w & post & Hc & Hne & Hws & Hw & Hfirst & Hrep).
    rewrite Hrep in Hedit.
    assert (Hpost : exists tail0, ws ++ w ++ post = tail0 ++ [chr ">"]
                                  /\ body = pre ++ tail0).
    { rewrite Hb in Hc.
      destruct (ws ++ w ++ post) as [|c r _] eqn:E using rev_ind.
      - by destruct ws.
      - rewrite app_assoc in Hc. apply app_inj_tail in Hc as [-> ->].
        by exists r. }
    destruct Hpost as (tail0 & Ht & ->).
    exists pre, tail0. rewrite <- Ht. split; [done|]. split; [done|].
    split; [|split; [done|]].
    + intros X' c ->.
      destruct (isSpace c) eqn:Hs; [exfalso|done].
      specialize (Hfirst X' [c] eq_refl ltac:(done)).
      destruct ws as [|sp0 ws]; [done|].
      destruct (exec_idInsert_intro (prevAfter None X') c (sp0 :: ws) w post)
        as [ps Hps]; try done.
      cbn [app] in Hfirst, Hps. by rewrite Hps in Hfirst.
    + right. destruct ws as [|sp ws]; [done|].
      apply Forall_cons in Hws as [Hs _].
      destruct tail0 as [|c t].
      * exfalso. apply (f_equal length) in Ht. rewrite !length_app in Ht.
        apply Forall2_length in Hw. simpl in Ht, Hw. lia.
      * injection Ht as <- _. by exists sp, t.
  - rewrite Hb, replace_close in Hedit by done.
    exists body, []. cbn [app]. rewrite app_nil_r.
    split; [done|]. split; [done|]. split; [|split; [done|by left]].
    intros X' c ->. specialize (Hclose eq_refl). rewrite Hb in Hclose.
    unfold spaceBeforeLast in Hclose.
    by rewrite !rev_app_distr in Hclose.
Qed.

(** Merging a merged tag again changes nothing, when the stripped tag
    holds no start of any of the three attributes, the three values hold
    no dollar sign and do not end with an equals sign, and, for a tag
    without id, no white space stands before the closing angle bracket. *)
Theorem editTag_idempotent (lookup : Lookup)
  (tag longName value region : jsstring) :
  soleClose tag ->
  resolve lookup (group1 (firstMatch labelRegex (strip tag)))
    (group1 (firstMatch idRegex (strip tag)))
  = Ok (longName, value, region) ->
  Forall (fun name => anywhere (attrAt name) (strip tag) = false) targets ->
  Forall plain [longName; value; region] ->
  (firstMatch idRegex (strip tag) = None ->
   spaceBeforeLast (strip tag) = false) ->
  exists t, editTag lookup tag = Ok t /\ editTag lookup t = Ok t.
Proof.
  intros Hsole Hres Hquiet Hplain Hclose.
  assert (Hlast : Forall (fun x => last x <> Some (chr "="))
                    [longName; value; region]).
  { eapply Forall_impl; [exact Hplain|]. by intros x [_ H]. }
  assert (Hd : dollar ∉ newlineAttrs longName value region).
  { apply Forall_cons in Hplain as [[D1 _] Hplain].
    apply Forall_cons in Hplain as [[D2 _] Hplain].
    apply Forall_cons in Hplain as [[D3 _] _].
    by apply newlineAttrs_dollar. }
  destruct (editTag_cut lookup tag longName value region Hsole Hres Hd Hclose)
    as (X & tail0 & Hc & Hedit & Hend & _).
  eexists. split; [exact Hedit|].
  rewrite (editTag_strip lookup _ tag); [exact Hedit|].
  rewrite Hc. apply strip_merged; [by rewrite <- Hc|done..].
Qed.

Lemma editTag_idempotent_witness :
  exists t, editTag lookupNorte tagNorte = Ok t /\ editTag lookupNorte t = Ok t.
Proof.
  apply (editTag_idempotent lookupNorte tagNorte
           (str "North") (str "7") (str "2")).
  - exists (removelast tagNorte). split; [vm_compute; reflexivity|evaluated].
  - vm_compute. reflexivity.
  - repeat constructor.
  - repeat constructor; try evaluated; discriminate.
  - vm_compute. discriminate.
Defined.

(** ** Where the tag pattern matches *)

Lemma exec_WordBoundary_cond (ic : bool) (r : list atom) (p : option N)
  (s : jsstring) (ps : list jsstring) :
  exec ic (WordBoundary :: r) p s = Some ps ->
  xorb (wordBefore p) (wordAt s) = true.
Proof. cbn [exec]. by destruct (xorb _ _). Qed.

Lemma sameLetters_length (s t : jsstring) :
  sameLetters s t -> length s = length t.
Proof. apply Forall2_length. Qed.

Lemma path_last (w : jsstring) :
  sameLetters w (str "<path") ->
  length w = 5%nat /\ wordBefore (prevAfter None w) = true
  /\ forall p, prevAfter p w = prevAfter None w.
Proof.
  intros Hw. split; [by apply sameLetters_length in Hw|].
  change (str "<path") with [60; 112; 97; 116; 104] in Hw.
  repeat (apply Forall2_cons_inv_r in Hw as (? & ? & ? & Hw & ->)).
  apply Forall2_nil_inv_r in Hw as ->.
  split; [|done]. cbn.
  match goal with H : foldEq ?c 104 |- _ =>
    by rewrite (isWordChar_fold c 104 H) end.
Qed.

(** The tag pattern matches at the front of a text exactly when
    [pathHead] says so. *)
Lemma exec_path_head (p : option N) (s : jsstring) (ps : list jsstring) :
  exec true (atoms pathRegex) p s = Some ps -> pathHead s = true.
Proof.
  rewrite atoms_pathRegex. intros H.
  apply exec_lits_inv in H as (w & rest & ps1 & -> & Hw & -> & H).
  destruct (path_last w Hw) as (Hlen & Hword & Hprev).
  pose proof (exec_WordBoundary_cond _ _ _ _ _ H) as Hb.
  rewrite Hprev, Hword in Hb.
  apply exec_WordBoundary_inv in H as (ps2 & -> & H).
  apply exec_Star_inv in H as (body & rest2 & ps3 & -> & Hbody & -> & H).
  apply exec_Lit_inv in H as (c & rest3 & ps4 & -> & Hc & -> & H).
  apply canonicalize_gt in Hc as ->.
  unfold pathHead. rewrite foldPrefix_letters by done.
  rewrite <- Hlen, drop_app_length.
  destruct (wordAt (body ++ chr ">" :: rest3)); [done|]. cbn [andb negb].
  apply bool_decide_eq_true_2. rewrite elem_of_app. right. by left.
Qed.

Lemma pathHead_exec (p : option N) (s : jsstring) :
  pathHead s = true ->
  exists w u rest,
    s = w ++ u ++ chr ">" :: rest /\ sameLetters w (str "<path")
    /\ (chr ">" ∉ u)
    /\ exists ps, exec true (atoms pathRegex) p s = Some ps
                  /\ concat ps = w ++ u ++ [chr ">"].
Proof.
  unfold pathHead. intros [[Hp Hb]%andb_true_iff Hgt]%andb_true_iff.
  apply foldPrefix_inv in Hp as (w & rest0 & -> & Hw).
  destruct (path_last w Hw) as (Hlen & Hword & Hprev).
  rewrite <- Hlen, drop_app_length in Hb, Hgt.
  apply bool_decide_eq_true_1 in Hgt.
  apply list_elem_of_split_l in Hgt as (u & rest & -> & Hu).
  exists w, u, rest. repeat split; try done.
  rewrite atoms_pathRegex, (exec_lits_intro true _ _ _ w _ Hw).
  cbn [exec]. rewrite Hprev, Hword.
  apply negb_true_iff in Hb. rewrite Hb. cbn [xorb].
  assert (Hk : forall p c s, inSet true (NotChar (chr ">")) c = true ->
                 exec true [Lit (chr ">")] p (c :: s) = None).
  { intros p0 c s Hc. apply exec_Lit_fail. intros E.
    apply canonicalize_gt in E as ->. done. }
  assert (Hin : Forall (fun c => inSet true (NotChar (chr ">")) c = true) u).
  { apply Forall_forall. intros c Hc. cbn [inSet].
    apply negb_true_iff, N.eqb_neq. intros E.
    apply canonicalize_gt in E as ->. done. }
  change (exec true [Lit (chr ">")]) with
    (fun p s => exec true [Lit (chr ">")] p s).
  rewrite (many_greedy _ true (NotChar (chr ">")) Hk u _ _ Hin).
  2:{ by intros c s [= <- <-]. }
  cbn. eexists. split; [reflexivity|].
  rewrite concat_app, concat_singletons. cbn [concat].
  by rewrite app_nil_r.
Qed.

Lemma exec_path_None (p : option N) (s : jsstring) :
  pathHead s = false -> exec true (atoms pathRegex) p s = None.
Proof.
  intros H. destruct (exec _ _ _ s) as [ps|] eqn:E; [|done].
  apply exec_path_head in E. congruence.
Qed.

(** A text that the tag pattern matches as a whole is matched so
    wherever it stands. *)
Lemma exec_path_whole (p : option N) (t rest : jsstring) :
  pathHead t = true -> soleClose t ->
  exists ps, exec true (atoms pathRegex) p (t ++ rest) = Some ps
             /\ concat ps = t.
Proof.
  intros Hh (body & -> & Hgt).
  destruct (pathHead_exec p _ Hh) as (w & u & r & E & Hw & Hu & ps & He & Hps).
  assert (r = []) as ->.
  { destruct r as [|c r _] using rev_ind; [done|]. exfalso.
    replace (w ++ u ++ chr ">" :: r ++ [c])
      with ((w ++ u ++ chr ">" :: r) ++ [c]) in E
      by (by rewrite <- !app_assoc).
    apply app_inj_tail in E as [-> _]. apply Hgt.
    rewrite !elem_of_app. right. right. by left. }
  exists ps. split; [|by rewrite Hps, E].
  rewrite <- app_assoc. cbn [app]. by rewrite exec_path_first.
Qed.

(** ** Merging a merged document again *)

Lemma path_letters (w : jsstring) :
  sameLetters w (str "<path") ->
  Forall (fun c => isSpace c = false) w /\ last w <> Some (chr ">").
Proof.
  intros Hw. change (str "<path") with [60; 112; 97; 116; 104] in Hw.
  repeat (apply Forall2_cons_inv_r in Hw as (? & ? & ? & Hw & ->)).
  apply Forall2_nil_inv_r in Hw as ->.
  split.
  - repeat constructor;
      match goal with H : foldEq ?c ?x |- isSpace ?c = false =>
        by rewrite (isSpace_fold c x H) end.
  - cbn. intros E. injection E as E. subst.
    match goal with H : foldEq _ 104 |- _ => by vm_compute in H end.
Qed.

(** A strip pass leaves a text that starts with no white space its first
    units. *)
Lemma replace_strip_head (name : string) (w rest : jsstring) :
  Forall (fun c => isSpace c = false) w ->
  exists rest', replace (stripRegex name) [] (w ++ rest) = w ++ rest'.
Proof.
  intros Hw. unfold replace, replaceWith, segments.
  rewrite render_delete, scan_gaps_then.
  - rewrite map_app, concat_app, gapText_gaps. eauto.
  - intros x1 [|c x2] -> Hx2; [done|].
    apply Forall_app in Hw as [_ Hw]. apply Forall_cons in Hw as [Hc _].
    rewrite atoms_stripRegex. cbn [app exec inSet]. by rewrite Hc.
Qed.

Lemma strip_head (w rest : jsstring) :
  Forall (fun c => isSpace c = false) w ->
  exists rest', strip (w ++ rest) = w ++ rest'.
Proof.
  intros Hw. unfold strip.
  destruct (replace_strip_head "long-name" w rest Hw) as [r1 ->].
  destruct (replace_strip_head "value" w r1 Hw) as [r2 ->].
  apply (replace_strip_head "region" w r2 Hw).
Qed.

(** What the tag pattern matched is matched as a whole. *)
Lemma exec_path_tag (p : option N) (s : jsstring) (ps : list jsstring) :
  exec true (atoms pathRegex) p s = Some ps ->
  pathHead (concat ps) = true /\ soleClose (concat ps).
Proof.
  intros H. split; [|by eapply pathRegex_soleClose].
  pose proof (exec_path_head _ _ _ H) as Hh.
  destruct (pathHead_exec p s Hh)
    as (w & u & rest & -> & Hw & Hu & ps' & He & Hps).
  rewrite H in He. injection He as <-. rewrite Hps.
  destruct (path_last w Hw) as (Hlen & _).
  unfold pathHead in *. rewrite <- Hlen, drop_app_length in Hh |- *.
  apply andb_true_iff in Hh as [[Hp Hb]%andb_true_iff _].
  rewrite foldPrefix_letters by done.
  replace (wordAt (u ++ [chr ">"])) with (wordAt (u ++ chr ">" :: rest))
    by (by destruct u).
  rewrite Hb. apply bool_decide_eq_true_2.
  rewrite elem_of_app. right. by left.
Qed.

(** What the merge makes of a tag on which it can be repeated: a text
    that the next merge leaves as it is, that the tag pattern matches as
    a whole, and that starts with the same five units. *)
Lemma editTag_mergeable (lookup : Lookup) (tag : jsstring) :
  pathHead tag = true -> soleClose tag -> mergeable lookup tag ->
  exists t,
    editTag lookup tag = Ok t /\ editTag lookup t = Ok t
    /\ pathHead t = true /\ soleClose t /\ take 5 t = take 5 tag.
Proof.
  intros Hh Hsole (Hquiet & Hword & Hclose & Hvalues).
  destruct (resolve_ok lookup (group1 (firstMatch labelRegex (strip tag)))
              (group1 (firstMatch idRegex (strip tag))))
    as [[[longName value] region] Hres].
  specialize (Hvalues _ _ _ Hres).
  assert (Hplain : Forall plain [longName; value; region]).
  { eapply Forall_impl; [exact Hvalues|]. by intros x [H _]. }
  assert (Hlast : Forall (fun x => last x <> Some (chr "="))
                    [longName; value; region]).
  { eapply Forall_impl; [exact Hplain|]. by intros x [_ H]. }
  assert (Hd : dollar ∉ newlineAttrs longName value region).
  { apply Forall_cons in Hplain as [[D1 _] Hplain].
    apply Forall_cons in Hplain as [[D2 _] Hplain].
    apply Forall_cons in Hplain as [[D3 _] _].
    by apply newlineAttrs_dollar. }
  assert (Hgt : chr ">" ∉ newlineAttrs longName value region).
  { assert (Hf : forall s, chr ">" ∉ s <-> Forall (fun c => c <> chr ">") s).
    { intros s. rewrite Forall_forall. split.
      - intros H c Hc ->. done.
      - intros H Hin. by apply (H (chr ">")). }
    apply Forall_cons in Hvalues as [[_ G1] Hvalues].
    apply Forall_cons in Hvalues as [[_ G2] Hvalues].
    apply Forall_cons in Hvalues as [[_ G3] _].
    rewrite Hf in *. apply newlineAttrs_keeps; try done.
    by apply (bool_decide_unpack _). }
  destruct (editTag_cut lookup tag longName value region Hsole Hres Hd Hclose)
    as (X & tail0 & Hc & Hedit & Hend & Hbody & Htail).
  (* the first five units *)
  destruct (pathHead_exec None tag Hh) as (w & u & r & Etag & Hw & _).
  destruct (path_letters w Hw) as [Hw_plain Hw_last].
  destruct (path_last w Hw) as (Hlen & _).
  destruct (strip_head w (u ++ chr ">" :: r) Hw_plain) as [r5 Hs5].
  rewrite <- Etag in Hs5.
  assert (HX : exists k, X = w ++ k).
  { rewrite Hs5 in Hc. symmetry in Hc.
    apply app_eq_inv in Hc as [(k & Ek & _)|(k & Ew & Ek)]; [by exists k|].
    destruct k as [|c k].
    { exists []. by rewrite Ew, !app_nil_r. }
    exfalso. rewrite Ew in Hw_plain, Hw_last.
    destruct Htail as [->|(sp & t0 & -> & Hs)].
    - injection Ek as <- Ek. destruct k; [|by destruct k].
      apply Hw_last. by rewrite last_snoc.
    - injection Ek as <- _. apply Forall_app in Hw_plain as [_ Hk].
      apply Forall_cons in Hk as [Hk _]. congruence. }
  destruct HX as [k ->].
  eexists. split; [exact Hedit|]. split; [|split; [|split]].
  - rewrite (editTag_strip lookup _ tag); [exact Hedit|].
    rewrite Hc. apply strip_merged; [by rewrite <- Hc|done..].
  - unfold pathHead. rewrite <- !app_assoc.
    rewrite foldPrefix_letters by done.
    rewrite <- Hlen, drop_app_length.
    rewrite Hc, <- !app_assoc, <- Hlen, drop_app_length in Hword.
    replace (wordAt (k ++ newlineAttrs longName value region
                       ++ tail0 ++ [chr ">"])) with false.
    + apply bool_decide_eq_true_2. rewrite !elem_of_app.
      right. right. right. by left.
    + destruct k as [|c k]; [done|]. by rewrite <- Hword.
  - exists ((w ++ k) ++ newlineAttrs longName value region ++ tail0).
    split; [by rewrite <- !app_assoc|].
    rewrite !elem_of_app in *. intros [H|[H|H]]; [|done|]; apply Hbody; auto.
  - rewrite Etag, <- !app_assoc, <- Hlen.
    by rewrite !take_app_length.
Qed.

Lemma foldPrefix_take (xs s : jsstring) :
  foldPrefix xs (take (length xs) s) = foldPrefix xs s.
Proof.
  revert s. induction xs as [|x xs IH]; intros s; [done|].
  destruct s as [|c s]; [done|]. cbn [length take foldPrefix]. by rewrite IH.
Qed.

(** Whether the tag pattern matches at the front of a text depends on
    the first six units of the text and on whether a closing angle
    bracket follows the first five. *)
Lemma pathHead_agree (x x' : jsstring) :
  take 6 x = take 6 x' ->
  (chr ">" ∈ drop 5 x <-> chr ">" ∈ drop 5 x') ->
  pathHead x = pathHead x'.
Proof.
  intros Ht Hgt. unfold pathHead.
  assert (E5 : take 5 x = take 5 x').
  { apply (f_equal (take 5)) in Ht. by rewrite !take_take in Ht. }
  rewrite <- (foldPrefix_take _ x), <- (foldPrefix_take _ x').
  change (length (str "<path")) with 5%nat. rewrite E5.
  assert (Ew : wordAt (drop 5 x) = wordAt (drop 5 x')).
  { apply (f_equal (drop 5)) in Ht. rewrite !skipn_firstn_comm in Ht.
    change (6 - 5)%nat with 1%nat in Ht.
    destruct (drop 5 x), (drop 5 x'); try done. by injection Ht as ->. }
  rewrite Ew. f_equal. by apply bool_decide_ext.
Qed.

Lemma pathHead_long (t : jsstring) :
  pathHead t = true ->
  (5 < length t)%nat /\ forall k, (k <= 5)%nat -> chr ">" ∈ drop k t.
Proof.
  intros H. destruct (pathHead_exec None t H) as (w & u & r & -> & Hw & _).
  destruct (path_last w Hw) as (Hlen & _). split.
  - rewrite !length_app. simpl. lia.
  - intros k Hk. rewrite drop_app_le by lia.
    rewrite !elem_of_app. right. right. by left.
Qed.

Lemma merged_agree (lookup : Lookup) (s s' : jsstring) :
  merged lookup s s' ->
  take 5 s = take 5 s'
  /\ forall k, (k <= 5)%nat -> (chr ">" ∈ drop k s <-> chr ">" ∈ drop k s').
Proof.
  induction 1 as [|c s s' _ _ [IHt IHd]
                  |tag t s s' Htag Ht _ _ E5 _ _ _]; [done|..].
  - split.
    + cbn [take]. f_equal.
      apply (f_equal (take 4)) in IHt. by rewrite !take_take in IHt.
    + intros [|k] Hk; cbn [drop].
      * rewrite !elem_of_cons. by rewrite (IHd 0%nat) by lia.
      * apply IHd. lia.
  - destruct (pathHead_long tag Htag) as [Ltag Gtag].
    destruct (pathHead_long t Ht) as [Lt Gt].
    split.
    + by rewrite !take_app_le by lia.
    + intros k Hk. rewrite !drop_app_le by lia.
      rewrite !elem_of_app. split; intros _; left; auto.
Qed.

Lemma merged_head (lookup : Lookup) (c : N) (s s' : jsstring) :
  merged lookup s s' -> pathHead (c :: s') = pathHead (c :: s).
Proof.
  intros [Ht Hd]%merged_agree. apply pathHead_agree.
  - cbn [take]. by rewrite Ht.
  - cbn [drop]. symmetry. apply Hd. lia.
Qed.

(** The merge of a merged document gives it back. *)
Lemma merged_again (lookup : Lookup) (s s' : jsstring) :
  merged lookup s s' ->
  forall p subject pos,
    renderM pathRegex (fun m => editTag lookup (m_text m)) subject pos
      (scan pathRegex true 0 p s') = Ok s'.
Proof.
  induction 1 as [|c s s' Hc Hm IH|tag t s s' _ Ht _ Hsole _ Hedit _ IH];
    intros p subject pos.
  - rewrite scan_end; [done|]. by apply exec_path_None.
  - rewrite scan_miss.
    + cbn [renderM]. by rewrite IH.
    + apply exec_path_None. by rewrite (merged_head lookup c s s').
  - destruct (exec_path_whole p t s' Ht Hsole) as (ps & He & Hps).
    rewrite (scan_hit pathRegex p t s' ps); try done.
    + cbn [renderM infoAt m_text]. rewrite Hps, Hedit. cbn [mbind Exc_bind].
      by rewrite IH.
    + destruct Hsole as (b & -> & _). by destruct b.
Qed.

(** The merge of a document whose tags are all mergeable, and the merged
    document. *)
Lemma merged_first (lookup : Lookup) (n : nat) : forall s p subject pos,
  (length s <= n)%nat ->
  Forall (fun g => match g with
                   | Hit ps => mergeable lookup (concat ps)
                   | Gap _ => True
                   end) (scan pathRegex true 0 p s) ->
  exists out,
    renderM pathRegex (fun m => editTag lookup (m_text m)) subject pos
      (scan pathRegex true 0 p s) = Ok out
    /\ merged lookup s out.
Proof.
  induction n as [|n IH]; intros s p subject pos Hn Hall.
  - destruct s; [|simpl in Hn; lia]. exists [].
    rewrite scan_end; [split; [done|constructor]|].
    by apply exec_path_None.
  - destruct s as [|c s].
    { exists []. rewrite scan_end; [split; [done|constructor]|].
      by apply exec_path_None. }
    simpl in Hn.
    destruct (exec true (atoms pathRegex) p (c :: s)) as [ps|] eqn:E.
    + destruct (exec_path_tag _ _ _ E) as [Hh Hsole].
      destruct (exec_prefix _ _ _ _ _ E) as [s2 Es].
      assert (Hne : concat ps <> []).
      { destruct Hsole as (b & -> & _). by destruct b. }
      rewrite Es in E, Hall |- *.
      rewrite (scan_hit pathRegex p (concat ps) s2 ps) in Hall |- * by done.
      apply Forall_cons in Hall as [Htag Hall].
      destruct (editTag_mergeable lookup (concat ps) Hh Hsole Htag)
        as (t & Hedit & Hagain & Ht & Htsole & E5).
      destruct (IH s2 (prevAfter p (concat ps)) subject
                  (pos + length (concat ps))%nat) as (out & Hr & Hm);
        [|done|].
      { apply (f_equal length) in Es. rewrite length_app in Es. simpl in Es.
        destruct (concat ps); [done|]. simpl in Es. lia. }
      exists (t ++ out). split.
      * cbn [renderM infoAt m_text]. rewrite Hedit. cbn [mbind Exc_bind].
        by rewrite Hr.
      * by constructor.
    + rewrite (scan_miss pathRegex p c s) in Hall |- * by done.
      apply Forall_cons in Hall as [_ Hall].
      destruct (IH s (Some c) subject (S pos)) as (out & Hr & Hm);
        [lia|done|].
      exists (c :: out). split.
      * cbn [renderM]. by rewrite Hr.
      * constructor; [|done].
        destruct (pathHead (c :: s)) eqn:Hh; [|done].
        destruct (pathHead_exec p _ Hh) as (?&?&?&_&_&_&ps&He&_).
        congruence.
Qed.

(** Merging a merged document again changes nothing, when every path tag
    of the document is one on which the merge can be repeated. *)
Theorem editSvg_idempotent (svgStr : jsstring) (lookup : Lookup) :
  Forall (fun g => match g with
                   | Hit ps => mergeable lookup (concat ps)
                   | Gap _ => True
                   end) (segments pathRegex svgStr) ->
  exists out,
    editSvg svgStr lookup = Ok out /\ editSvg out lookup = Ok out.
Proof.
  intros Hall.
  destruct (merged_first lookup (length svgStr) svgStr None svgStr 0%nat)
    as (out & Hr & Hm); [done|exact Hall|].
  exists out. split; [exact Hr|].
  apply (merged_again lookup svgStr out Hm).
Qed.

Lemma editSvg_idempotent_witness :
  exists out,
    editSvg svgTwoTags lookupNorte = Ok out
    /\ editSvg out lookupNorte = Ok out.
Proof.
  apply editSvg_idempotent.
  assert (Hm : forall tag l v r,
             bool_decide
               (Forall (fun name => anywhere (attrAt name) (strip tag) = false)
                  targets) = true ->
             wordAt (drop 5 (strip tag)) = false ->
             spaceBeforeLast (strip tag) = false ->
             resolve lookupNorte (group1 (firstMatch labelRegex (strip tag)))
               (group1 (firstMatch idRegex (strip tag))) = Ok (l, v, r) ->
             bool_decide
               (Forall (fun x => plain x /\ (chr ">" ∉ x)) [l; v; r]) = true ->
             mergeable lookupNorte tag).
  { intros tag l v r H1 H2 H3 H4 H5. repeat split; try done.
    - by apply bool_decide_eq_true_1 in H1.
    - intros l' v' r' H. rewrite H4 in H. injection H as <- <- <-.
      by apply bool_decide_eq_true_1 in H5. }
  vm_compute segments.
  repeat (apply Forall_cons; split; [exact I|]).
  apply Forall_cons; split.
  { apply (Hm _ (str "North") (str "7") (str "2")); vm_compute; reflexivity. }
  repeat (apply Forall_cons; split; [exact I|]).
  apply Forall_cons; split.
  { apply (Hm _ (str "None") (str "0") (str "0")); vm_compute; reflexivity. }
  repeat (apply Forall_cons; split; [exact I|]).
  by apply Forall_nil.
Defined.

(** ** One match of each strip pattern *)

Lemma countAttr_one (name : string) (s X Z : jsstring) (ps : list jsstring) :
  segments (stripRegex name) s = map Gap X ++ Hit ps :: map Gap Z ->
  countAttr name s = 1%nat.
Proof.
  intros E. unfold countAttr. rewrite E, List.filter_app. cbn [List.filter].
  assert (Hg : forall g, List.filter
                 (fun g => match g with Hit _ => true | Gap _ => false end)
                 (map Gap g) = []).
  { induction g as [|c g IH]; [done|]. by cbn. }
  by rewrite !Hg.
Qed.

(** A start of the attribute cannot lie across the end of a text and the
    line feed that follows it. *)
Lemma attrAt_before (name : string) (X L : jsstring) :
  name ∈ targets ->
  anywhere (attrAt name) X = false ->
  head L = Some lf ->
  forall x1 x2, X = x1 ++ x2 -> x2 <> [] -> attrAt name (x2 ++ L) = false.
Proof.
  intros Hn HX HL x1 x2 -> Hx2.
  destruct (attrAt name (x2 ++ L)) eqn:E; [exfalso|done].
  apply attrAt_inv in E as (sp & w & rest & E & Hs & Hw).
  destruct (target_letters name w Hn Hw) as [Hplain _].
  replace (sp :: w ++ dq :: rest) with ((sp :: w ++ [dq]) ++ rest) in E
    by (cbn [app]; by rewrite <- app_assoc).
  rewrite anywhere_false in HX.
  apply app_eq_inv in E as [(k & Ek & _)|(k & Ek & Hk)].
  - pose proof (HX x1 x2 eq_refl) as Hf. rewrite Ek in Hf.
    cbn [app] in Hf. rewrite <- app_assoc in Hf.
    cbn [app] in Hf. by rewrite attrAt_intro in Hf.
  - destruct k as [|c k].
    + pose proof (HX x1 x2 eq_refl) as Hf. rewrite app_nil_r in Ek.
      rewrite <- Ek in Hf. cbn [app] in Hf. by rewrite attrAt_intro in Hf.
    + destruct L as [|l L]; [done|]. injection HL as ->. injection Hk as <- _.
      destruct x2 as [|d x2]; [done|]. injection Ek as _ Ek.
      assert (Hin : lf ∈ w ++ [dq]) by (rewrite Ek, elem_of_app; right; by left).
      apply elem_of_app in Hin as [Hin|Hin].
      * rewrite Forall_forall in Hplain. by destruct (Hplain lf Hin).
      * by apply list_elem_of_singleton in Hin.
Qed.

Lemma line_alone_quiet (name name' : string) (v : jsstring) :
  name ∈ targets -> name' ∈ targets -> name <> name' ->
  dq ∉ v -> last v <> Some (chr "=") ->
  anywhere (attrAt name) (attrLine name' v) = false.
Proof.
  intros Hn Hn' Hne Hv Hl. rewrite <- (app_nil_r (attrLine name' v)).
  apply anywhere_app; [by apply line_quiet|done].
Qed.

Lemma line_end (X : jsstring) (name : string) (v : jsstring) :
  forall X' c, X ++ attrLine name v = X' ++ [c] -> isSpace c = false.
Proof.
  intros X' c E. unfold attrLine in E. rewrite !app_assoc in E.
  by apply app_inj_tail in E as [_ <-].
Qed.

(** On a merged tag each strip pattern finds one match, under the
    conditions under which the merge can be repeated. *)
Lemma editTag_one_match (lookup : Lookup)
  (tag longName value region : jsstring) :
  soleClose tag ->
  resolve lookup (group1 (firstMatch labelRegex (strip tag)))
    (group1 (firstMatch idRegex (strip tag)))
  = Ok (longName, value, region) ->
  Forall (fun name => anywhere (attrAt name) (strip tag) = false) targets ->
  Forall plain [longName; value; region] ->
  (firstMatch idRegex (strip tag) = None ->
   spaceBeforeLast (strip tag) = false) ->
  exists t,
    editTag lookup tag = Ok t
    /\ Forall (fun name => countAttr name t = 1%nat) targets.
Proof.
  intros Hsole Hres Hquiet Hplain Hclose.
  assert (Hd : dollar ∉ newlineAttrs longName value region).
  { apply Forall_cons in Hplain as [[D1 _] Hplain].
    apply Forall_cons in Hplain as [[D2 _] Hplain].
    apply Forall_cons in Hplain as [[D3 _] _].
    by apply newlineAttrs_dollar. }
  destruct (editTag_cut lookup tag longName value region Hsole Hres Hd Hclose)
    as (X & tail0 & Hc & Hedit & Hend & _).
  eexists. split; [exact Hedit|].
  rewrite Hc in Hquiet. clear Hc Hedit Hres Hclose Hsole Hd.
  set (tail := tail0 ++ [chr ">"]) in *.
  apply Forall_cons in Hquiet as [Q1 Hq]. apply Forall_cons in Hq as [Q2 Hq].
  apply Forall_cons in Hq as [Q3 _].
  apply Forall_cons in Hplain as [[_ V1] Hv].
  apply Forall_cons in Hv as [[_ V2] Hv].
  apply Forall_cons in Hv as [[_ V3] _].
  apply escapeQuotes_last in V1, V2, V3.
  pose proof (escapeQuotes_no_quote longName) as D1.
  pose proof (escapeQuotes_no_quote value) as D2.
  pose proof (escapeQuotes_no_quote region) as D3.
  assert (T1 : "long-name"%string ∈ targets) by (by left).
  assert (T2 : "value"%string ∈ targets) by (right; by left).
  assert (T3 : "region"%string ∈ targets) by (right; right; by left).
  rewrite newlineAttrs_lines, <- !app_assoc.
  repeat constructor.
  - destruct (scan_pass "long-name" X (escapeQuotes longName)
                (attrLine "value" (escapeQuotes value)
                 ++ attrLine "region" (escapeQuotes region) ++ tail))
      as [ps Hps]; try done.
    + by eapply anywhere_prefix.
    + apply anywhere_app; [by apply line_quiet|].
      apply anywhere_app; [by apply line_quiet|by eapply anywhere_suffix].
    + by eapply countAttr_one.
  - destruct (scan_pass "value" (X ++ attrLine "long-name" (escapeQuotes longName))
                (escapeQuotes value)
                (attrLine "region" (escapeQuotes region) ++ tail))
      as [ps Hps]; try done.
    + apply anywhere_app; [|by apply line_alone_quiet].
      apply attrAt_before; [done| |done]. by eapply anywhere_prefix.
    + apply line_end.
    + apply anywhere_app; [by apply line_quiet|by eapply anywhere_suffix].
    + rewrite <- !app_assoc in Hps. by eapply countAttr_one.
  - destruct (scan_pass "region"
                (X ++ attrLine "long-name" (escapeQuotes longName)
                   ++ attrLine "value" (escapeQuotes value))
                (escapeQuotes region) tail)
      as [ps Hps]; try done.
    + apply anywhere_app.
      * apply attrAt_before; [done| |done]. by eapply anywhere_prefix.
      * apply anywhere_app; [by apply line_quiet|by apply line_alone_quiet].
    + rewrite app_assoc. apply line_end.
    + by eapply anywhere_suffix.
    + rewrite <- !app_assoc in Hps. by eapply countAttr_one.
Qed.

(** ** No other attribute of a written name *)

Lemma eqAfter_space (c : N) (s : jsstring) :
  isSpace c = true -> eqAfter (c :: s) = eqAfter s.
Proof. intros H. unfold eqAfter. cbn [dropSpace]. by rewrite H. Qed.

Lemma eqAfter_other (c : N) (s : jsstring) :
  isSpace c = false -> eqAfter (c :: s) = bool_decide (c = chr "=").
Proof.
  intros H. unfold eqAfter. cbn [dropSpace]. rewrite H. cbn [head].
  apply bool_decide_ext. split; [by intros [= ->]|by intros ->].
Qed.

Lemma eqAfter_cut (u ws : jsstring) (c : N) (R : jsstring) :
  Forall (fun w => isSpace w = true) ws -> isSpace c = false ->
  c <> chr "=" ->
  eqAfter (u ++ ws ++ c :: R) = eqAfter u.
Proof.
  intros Hws Hc Hne. induction u as [|a u IH].
  - cbn [app]. induction Hws as [|w ws Hw _ IH]; cbn [app].
    + rewrite eqAfter_other by done. by apply bool_decide_eq_false.
    + by rewrite eqAfter_space.
  - cbn [app]. destruct (isSpace a) eqn:Ha.
    + by rewrite !eqAfter_space.
    + by rewrite !eqAfter_other.
Qed.

Lemma eqAfter_app (s t : jsstring) :
  eqAfter s = true -> eqAfter (s ++ t) = true.
Proof.
  induction s as [|a s IH]; [done|]. cbn [app].
  destruct (isSpace a) eqn:Ha.
  - rewrite !eqAfter_space by done. exact IH.
  - by rewrite !eqAfter_other.
Qed.

Lemma prefix_cut (xs : jsstring) (ws : jsstring) (c : N) (R : jsstring) :
  forallb (fun x => negb (isSpace x)) xs = true ->
  Forall (fun w => isSpace w = true) ws -> isSpace c = false ->
  c <> chr "=" ->
  (ws = [] ->
   forallb (fun x => negb (asciiUpper c =? asciiUpper x)) xs = true) ->
  forall u,
    foldPrefix xs (u ++ ws ++ c :: R)
    && eqAfter (drop (length xs) (u ++ ws ++ c :: R))
    = foldPrefix xs u && eqAfter (drop (length xs) u).
Proof.
  intros Hxs Hws Hc Hne Hcx.
  induction xs as [|x xs IH]; intros u.
  - cbn [foldPrefix length drop andb]. by apply eqAfter_cut.
  - cbn [forallb] in Hxs. apply andb_true_iff in Hxs as [Hx Hxs].
    apply negb_true_iff in Hx.
    destruct u as [|a u].
    + cbn [app foldPrefix andb]. destruct ws as [|w ws']; cbn [app foldPrefix].
      * specialize (Hcx eq_refl). cbn [forallb] in Hcx.
        apply andb_true_iff in Hcx as [Hcx _]. apply negb_true_iff in Hcx.
        by rewrite Hcx.
      * replace (asciiUpper w =? asciiUpper x) with false; [done|].
        symmetry. apply N.eqb_neq. intros E.
        apply Forall_inv in Hws. by rewrite (isSpace_fold w x E), Hx in Hws.
    + cbn [app foldPrefix length drop]. rewrite <- !andb_assoc. f_equal.
      apply IH; [done|].
      intros E. specialize (Hcx E). cbn [forallb] in Hcx.
      by apply andb_true_iff in Hcx as [_ Hcx].
Qed.

Lemma nameEq_cut (name : string) (u ws : jsstring) (c : N) (R : jsstring) :
  forallb (fun x => negb (isSpace x)) (str name) = true ->
  Forall (fun w => isSpace w = true) ws -> isSpace c = false ->
  c <> chr "=" ->
  (ws = [] ->
   forallb (fun x => negb (asciiUpper c =? asciiUpper x)) (str name) = true) ->
  nameEq name (u ++ ws ++ c :: R) = nameEq name u.
Proof. intros. unfold nameEq. by apply prefix_cut. Qed.

Lemma foldPrefix_drop (xs s t : jsstring) :
  foldPrefix xs s = true ->
  drop (length xs) (s ++ t) = drop (length xs) s ++ t.
Proof.
  revert s. induction xs as [|x xs IH]; intros s; [done|].
  destruct s as [|a s]; [done|]. cbn [foldPrefix app length drop].
  intros [_ H]%andb_true_iff. by apply IH.
Qed.

Lemma nameEq_app (name : string) (s t : jsstring) :
  nameEq name s = true -> nameEq name (s ++ t) = true.
Proof.
  unfold nameEq. intros [Hp He]%andb_true_iff.
  rewrite foldPrefix_app, foldPrefix_drop by done.
  by rewrite eqAfter_app.
Qed.

Lemma nameEq_nil (name : string) : nameEq name [] = false.
Proof. unfold nameEq. rewrite drop_nil. apply andb_false_r. Qed.

Lemma occurrences_zero (P : jsstring -> bool) (s : jsstring) :
  occurrences P s = 0%nat <-> anywhere P s = false.
Proof.
  induction s as [|c s IH]; cbn [occurrences anywhere].
  - destruct (P []); cbn; [split; [lia|done]|done].
  - destruct (P (c :: s)); cbn [orb]; [split; [lia|done]|].
    by rewrite <- IH.
Qed.

Lemma anywhere_nameEq_prefix (name : string) (A B : jsstring) :
  anywhere (nameEq name) (A ++ B) = false -> anywhere (nameEq name) A = false.
Proof.
  rewrite !anywhere_false. intros H g1 g2 ->.
  destruct (nameEq name g2) eqn:E; [|done].
  apply (nameEq_app name g2 B) in E.
  rewrite (H g1 (g2 ++ B)) in E; [done|by rewrite <- app_assoc].
Qed.

(** The places of a text before a unit at which no attribute start can
    go on are the places of the text alone. *)
Lemma occurrences_cut (name : string) (ws : jsstring) (c : N) (R : jsstring) :
  forallb (fun x => negb (isSpace x)) (str name) = true ->
  Forall (fun w => isSpace w = true) ws -> isSpace c = false ->
  c <> chr "=" ->
  (ws = [] ->
   forallb (fun x => negb (asciiUpper c =? asciiUpper x)) (str name) = true) ->
  forall A,
    occurrences (nameEq name) (A ++ ws ++ c :: R)
    = (occurrences (nameEq name) A
       + occurrences (nameEq name) (ws ++ c :: R))%nat.
Proof.
  intros Hn Hws Hc Hne Hcx. induction A as [|a A IH].
  - cbn [app occurrences]. by rewrite nameEq_nil.
  - cbn [app occurrences]. rewrite IH.
    change (a :: A ++ ws ++ c :: R) with ((a :: A) ++ ws ++ c :: R).
    rewrite nameEq_cut by done. lia.
Qed.

(** What the three names have in common for this count: no white space,
    and none of the units that end a value or belong to the entity. *)
Lemma target_units (name : string) :
  name ∈ targets ->
  forallb (fun x => negb (isSpace x)) (str name) = true
  /\ Forall (fun c =>
       isSpace c = false /\ c <> chr "="
       /\ forallb (fun x => negb (asciiUpper c =? asciiUpper x)) (str name)
          = true) [dq; chr "&"; chr ";"].
Proof.
  unfold targets. intros H.
  repeat (apply elem_of_cons in H as [->|H]); [..|by apply elem_of_nil in H];
    (split; [reflexivity|by repeat constructor]).
Qed.

Lemma nameEq_stop (name : string) (c : N) (R : jsstring) :
  name ∈ targets -> c ∈ [dq; chr "&"; chr ";"] ->
  forall u, nameEq name (u ++ c :: R) = nameEq name u.
Proof.
  intros Hn Hc u. destruct (target_units name Hn) as [Hs Hu].
  rewrite Forall_forall in Hu. destruct (Hu c Hc) as (H1 & H2 & H3).
  by apply (nameEq_cut name u [] c R).
Qed.

Lemma occurrences_stop (name : string) (c : N) (R : jsstring) :
  name ∈ targets -> c ∈ [dq; chr "&"; chr ";"] ->
  forall A,
    occurrences (nameEq name) (A ++ c :: R)
    = (occurrences (nameEq name) A + occurrences (nameEq name) R)%nat.
Proof.
  intros Hn Hc A. destruct (target_units name Hn) as [Hs Hu].
  rewrite Forall_forall in Hu. destruct (Hu c Hc) as (H1 & H2 & H3).
  rewrite (occurrences_cut name [] c R) by done.
  cbn [app occurrences].
  pose proof (nameEq_stop name c R Hn Hc []) as E. cbn [app] in E.
  by rewrite E, nameEq_nil.
Qed.

Lemma nameEq_escape (name : string) (s : jsstring) :
  name ∈ targets -> nameEq name (escapeQuotes s) = nameEq name s.
Proof.
  intros Hn. destruct (decide (dq ∈ s)) as [Hin|Hout].
  - apply list_elem_of_split_l in Hin as (u & s' & -> & Hu).
    rewrite escapeQuotes_app, (escapeQuotes_id u), escapeQuotes_cons by done.
    change (if dq =? dq then str "&quot;" else [dq])
      with (chr "&" :: str "quot;").
    cbn [app]. rewrite !nameEq_stop; try done.
    + by left.
    + right. by left.
  - by rewrite escapeQuotes_id.
Qed.

(** Escaping the double quotes of a value makes no place at which an
    attribute of one of the three names starts, and takes none away. *)
Lemma occurrences_escape (name : string) (x : jsstring) :
  name ∈ targets ->
  occurrences (nameEq name) (escapeQuotes x) = occurrences (nameEq name) x.
Proof.
  intros Hn. induction x as [|c x IH]; [done|].
  cbn [occurrences]. rewrite <- IH, <- (nameEq_escape name (c :: x)) by done.
  rewrite escapeQuotes_cons. destruct (N.eqb_spec c dq) as [->|Hc].
  - change (str "&quot;" ++ escapeQuotes x)
      with (str "&quot" ++ chr ";" :: escapeQuotes x).
    rewrite (occurrences_stop name (chr ";")), (nameEq_stop name (chr ";"));
      try done; try (right; right; by left).
    assert (H0 : occurrences (nameEq name) (str "&quot") = 0%nat).
    { unfold targets in Hn.
      repeat (apply elem_of_cons in Hn as [->|Hn]);
        [..|by apply elem_of_nil in Hn]; by vm_compute. }
    rewrite H0. pose proof H0 as H1.
    apply occurrences_zero in H1. rewrite anywhere_false in H1.
    by rewrite (H1 [] (str "&quot")).
  - reflexivity.
Qed.

Lemma attrAt_nameEq (name : string) (s : jsstring) :
  attrAt name s = true -> anywhere (nameEq name) s = true.
Proof.
  destruct s as [|sp s]; [done|]. cbn [attrAt anywhere].
  intros [_ Hp]%andb_true_iff. apply orb_true_iff. right.
  assert (E : nameEq name s = true); [|by destruct s; cbn; rewrite E].
  unfold nameEq. revert s Hp.
  induction (str name) as [|x xs IH]; intros s Hp.
  - cbn [foldPrefix length drop andb]. destruct s as [|c s]; [done|].
    cbn in Hp. apply andb_true_iff in Hp as [Hc _].
    apply N.eqb_eq in Hc.
    assert (c = chr "=") as ->.
    { pose proof (foldEq_low c (chr "=") (chr "=") Hc eq_refl) as E.
      rewrite N.eqb_refl in E. by apply N.eqb_eq in E. }
    reflexivity.
  - destruct s as [|c s]; [done|]. cbn [app foldPrefix] in Hp.
    apply andb_true_iff in Hp as [Hc Hp]. cbn [foldPrefix length drop].
    rewrite Hc. cbn [andb]. by apply IH.
Qed.

Lemma nameEq_quiet (name : string) (s : jsstring) :
  anywhere (nameEq name) s = false -> anywhere (attrAt name) s = false.
Proof.
  intros H. rewrite anywhere_false in H |- *. intros g1 g2 ->.
  destruct (attrAt name g2) eqn:E; [|done].
  apply attrAt_nameEq in E.
  assert (F : anywhere (nameEq name) g2 = false); [|by rewrite F in E].
  apply anywhere_false. intros h1 h2 ->. apply (H (g1 ++ h1)).
  by rewrite <- app_assoc.
Qed.

(** In a merged tag each of the three names is followed by an equals
    sign at one place only: in the line written for it. *)
Lemma occurrences_merged (name : string) (X T longName value region : jsstring) :
  name ∈ targets ->
  anywhere (nameEq name) (X ++ T) = false ->
  Forall (fun x => anywhere (nameEq name) x = false) [longName; value; region] ->
  occurrences (nameEq name) (X ++ newlineAttrs longName value region ++ T)
  = 1%nat.
Proof.
  intros Hn HXT Hv.
  apply Forall_cons in Hv as [V1 Hv]. apply Forall_cons in Hv as [V2 Hv].
  apply Forall_cons in Hv as [V3 _].
  apply occurrences_zero in V1, V2, V3.
  rewrite <- (occurrences_escape name) in V1, V2, V3 by done.
  pose proof (anywhere_nameEq_prefix name X T HXT) as HX.
  pose proof (anywhere_suffix _ X T HXT) as HT.
  apply occurrences_zero in HX, HT.
  destruct (target_units name Hn) as [Hs _].
  assert (Q : forall c, c ∈ [dq] -> c ∈ [dq; chr "&"; chr ";"]).
  { intros c ->%list_elem_of_singleton. by left. }
  assert (E : X ++ newlineAttrs longName value region ++ T
              = X ++ (lf :: indent) ++ chr "l" ::
                (str "ong-name=" ++ dq ::
                 (escapeQuotes longName ++ dq ::
                  ((lf :: indent ++ str "value=") ++ dq ::
                   (escapeQuotes value ++ dq ::
                    ((lf :: indent ++ str "region=") ++ dq ::
                     (escapeQuotes region ++ dq :: T))))))).
  { rewrite newlineAttrs_lines. unfold attrLine. rewrite <- !app_assoc.
    reflexivity. }
  rewrite E. clear E.
  rewrite (occurrences_cut name (lf :: indent) (chr "l")); try done;
    [|by repeat constructor].
  rewrite HX.
  change ((lf :: indent) ++ chr "l" :: str "ong-name=" ++ ?R)
    with ((lf :: indent ++ str "long-name=") ++ R).
  rewrite !(occurrences_stop name dq) by (done || by left).
  rewrite V1, V2, V3, HT. unfold targets in Hn.
  repeat (apply elem_of_cons in Hn as [->|Hn]); [..|by apply elem_of_nil in Hn];
    by vm_compute.
Qed.

(** Each written name occurs once.  Take a tag that ends with its only
    closing angle bracket.  Suppose that after the strip pass it reads
    none of the three names, in any letter case, followed by optional
    white space and an equals sign; that the values resolved for it do
    not read so either, hold no dollar sign and do not end with an equals
    sign; and that, when the tag has no id attribute, no white space
    stands before its closing angle bracket.  Then the merged tag is the
    stripped tag with the three lines put in, and it reads each of the
    three names followed by an equals sign at exactly one place: beside
    the line written for a name, no other attribute of that name stands
    in the merged tag, however it is quoted or spaced.  And the strip
    pass of a later merge finds exactly one match for each name. *)
Theorem editTag_names_once (lookup : Lookup)
  (tag longName value region : jsstring) :
  soleClose tag ->
  resolve lookup (group1 (firstMatch labelRegex (strip tag)))
    (group1 (firstMatch idRegex (strip tag)))
  = Ok (longName, value, region) ->
  Forall (fun name => anywhere (nameEq name) (strip tag) = false) targets ->
  Forall (fun x =>
            plain x
            /\ Forall (fun name => anywhere (nameEq name) x = false) targets)
    [longName; value; region] ->
  (firstMatch idRegex (strip tag) = None ->
   spaceBeforeLast (strip tag) = false) ->
  exists t X tail,
    editTag lookup tag = Ok t
    /\ strip tag = X ++ tail
    /\ t = X ++ newlineAttrs longName value region ++ tail
    /\ Forall (fun name =>
                 occurrences (nameEq name) t = 1%nat
                 /\ countAttr name t = 1%nat) targets.
Proof.
  intros Hsole Hres Hquiet Hvals Hclose.
  assert (Hplain : Forall plain [longName; value; region]).
  { eapply Forall_impl; [exact Hvals|]. by intros x [? _]. }
  assert (Hquiet' : Forall (fun name => anywhere (attrAt name) (strip tag) = false)
                      targets).
  { eapply Forall_impl; [exact Hquiet|]. intros name. apply nameEq_quiet. }
  destruct (editTag_one_match lookup tag longName value region
              Hsole Hres Hquiet' Hplain Hclose) as (t & Ht & Hcount).
  assert (Hd : dollar ∉ newlineAttrs longName value region).
  { apply Forall_cons in Hplain as [[D1 _] Hplain].
    apply Forall_cons in Hplain as [[D2 _] Hplain].
    apply Forall_cons in Hplain as [[D3 _] _].
    by apply newlineAttrs_dollar. }
  destruct (editTag_cut lookup tag longName value region Hsole Hres Hd Hclose)
    as (X & tail0 & Hc & Hedit & _).
  rewrite Hedit in Ht. injection Ht as <-.
  eexists _, X, (tail0 ++ [chr ">"]).
  split; [exact Hedit|]. split; [exact Hc|]. split; [reflexivity|].
  rewrite Hc in Hquiet.
  rewrite Forall_forall in Hquiet, Hcount |- *. intros name Hn.
  split; [|by apply Hcount].
  apply occurrences_merged; [done|by apply Hquiet|].
  eapply Forall_impl; [exact Hvals|]. intros x [_ Hx].
  rewrite Forall_forall in Hx. by apply Hx.
Qed.

Lemma editTag_names_once_witness :
  exists t X tail,
    editTag lookupNorte tagNorte = Ok t
    /\ strip tagNorte = X ++ tail
    /\ t = X ++ newlineAttrs (str "North") (str "7") (str "2") ++ tail
    /\ Forall (fun name =>
                 occurrences (nameEq name) t = 1%nat
                 /\ countAttr name t = 1%nat) targets.
Proof.
  apply (editTag_names_once lookupNorte tagNorte
           (str "North") (str "7") (str "2")).
  - exists (removelast tagNorte). split; [vm_compute; reflexivity|evaluated].
  - vm_compute. reflexivity.
  - repeat constructor.
  - repeat constructor; try evaluated; discriminate.
  - vm_compute. discriminate.
Defined.

(** ** Spellings in any letter case *)

Lemma sameLetters_avoid (c : N) (w xs : jsstring) :
  (forall d, foldEq c d -> d ∉ xs) -> sameLetters w xs -> c ∉ w.
Proof.
  intros Hc Hw Hin. induction Hw as [|d x w xs Hd _ IH]; [by apply elem_of_nil in Hin|].
  apply elem_of_cons in Hin as [->|Hin].
  - apply (Hc x Hd). by left.
  - apply IH; [|done]. intros e He Hin'. apply (Hc e He). by right.
Qed.

Lemma findFirst_intro (re : regex) (X R : jsstring) (ps : list jsstring) :
  forall p,
    (forall x1 x2, X = x1 ++ x2 -> x2 <> [] ->
       exec (ignoreCase re) (atoms re) (prevAfter p x1) (x2 ++ R) = None) ->
    exec (ignoreCase re) (atoms re) (prevAfter p X) R = Some ps ->
    findFirst re p (X ++ R) = Some (X, ps).
Proof.
  induction X as [|c X IH]; intros p Hno He.
  - cbn [app]. destruct R; cbn [findFirst]; change (prevAfter p []) with p in He;
      by rewrite He.
  - pose proof (Hno [] (c :: X) eq_refl ltac:(done)) as H0.
    change (prevAfter p []) with p in H0. cbn [app] in H0 |- *.
    cbn [findFirst]. rewrite H0.
    rewrite (IH (Some c)); [done| |by rewrite <- (prevAfter_cons p)].
    intros x1 x2 -> Hx2. rewrite <- (prevAfter_cons p).
    exact (Hno (c :: x1) x2 eq_refl Hx2).
Qed.

Lemma captures_lits (xs : jsstring) (r : list atom) (ps : list jsstring) :
  forall w, length w = length xs ->
    captures (map Lit xs ++ r) (map (fun c => [c]) w ++ ps) None
    = captures r ps None.
Proof.
  induction xs as [|x xs IH]; intros [|c w] Hl; try done.
  cbn. apply IH. by injection Hl.
Qed.

(** The group of a quoted value: a text without double quote and the
    quote that closes it. *)
Lemma exec_group (p : option N) (v Z : jsstring) :
  dq ∉ v ->
  exec true [Open; Star (NotChar dq); Close; Lit dq] p (v ++ dq :: Z)
  = Some [[]; v; []; [dq]].
Proof.
  intros Hv. cbn [exec fmap option_fmap option_map].
  assert (Hk : forall p c s, inSet true (NotChar dq) c = true ->
                 exec true [Close; Lit dq] p (c :: s) = None).
  { intros p0 c s Hc.
    destruct (exec true [Close; Lit dq] p0 (c :: s)) as [qs|] eqn:E; [|done].
    apply exec_Close_inv in E as (ps' & -> & E).
    apply exec_Lit_inv in E as (c' & s' & ps'' & [= <- <-] & Hq & _).
    apply canonicalize_dq in Hq as ->. done. }
  assert (Hin : Forall (fun c => inSet true (NotChar dq) c = true) v).
  { apply Forall_forall. intros c Hc. cbn [inSet].
    apply negb_true_iff, N.eqb_neq. intros E.
    apply canonicalize_dq in E as ->. done. }
  change (exec true [Close; Lit dq])
    with (fun p s => exec true [Close; Lit dq] p s).
  rewrite (many_greedy _ true (NotChar dq) Hk v _ _ Hin).
  2:{ by intros c s [= <- <-]. }
  reflexivity.
Qed.

Lemma exec_Lit_ok (ic : bool) (x : N) (r : list atom) (p : option N)
  (c : N) (s : jsstring) :
  canonicalize ic c = canonicalize ic x ->
  exec ic (Lit x :: r) p (c :: s) = cons [c] <$> exec ic r (Some c) s.
Proof. intros H. cbn [exec]. by rewrite H, N.eqb_refl. Qed.

Lemma foldEq_dq (d : N) : foldEq dq d -> d = dq.
Proof. intros H. apply sameLetters_dq. unfold foldEq in *. by symmetry. Qed.

Lemma sameLetters_no_dq (w xs : jsstring) :
  dq ∉ xs -> sameLetters w xs -> dq ∉ w.
Proof.
  intros Hx. apply sameLetters_avoid. by intros d ->%foldEq_dq.
Qed.

Lemma sameLetters_quoted (w xs : jsstring) :
  sameLetters w xs -> sameLetters (w ++ [dq]) (xs ++ [dq]).
Proof. intros H. apply Forall2_app; [done|]. by repeat constructor. Qed.

(** ** The style-label in any letter case *)

Lemma atoms_labelRegex :
  atoms labelRegex
  = map Lit (str "inkscape:label=")
    ++ [Lit dq; Open; Star (NotChar dq); Close; Lit dq].
Proof. reflexivity. Qed.

Lemma exec_label_spelled (p : option N) (n v Z : jsstring) :
  sameLetters n (str "inkscape:label=") -> dq ∉ v ->
  exec true (atoms labelRegex) p (n ++ dq :: v ++ dq :: Z)
  = Some (map (fun c => [c]) n ++ [[dq]; []; v; []; [dq]]).
Proof.
  intros Hn Hv.
  rewrite atoms_labelRegex, (exec_lits_intro true _ _ _ n _ Hn).
  rewrite exec_Lit_ok by done. by rewrite exec_group.
Qed.

Lemma exec_label_prefix (p : option N) (s : jsstring) (ps : list jsstring) :
  exec true (atoms labelRegex) p s = Some ps ->
  foldPrefix (str "inkscape:label=" ++ [dq]) s = true.
Proof.
  rewrite atoms_labelRegex. intros H.
  apply exec_lits_inv in H as (w & rest & ps1 & -> & Hw & -> & H).
  apply exec_Lit_inv in H as (c & s' & ps2 & -> & Hc & _).
  replace (w ++ c :: s') with ((w ++ [c]) ++ s') by (by rewrite <- app_assoc).
  apply foldPrefix_letters. apply Forall2_app; [done|]. by repeat constructor.
Qed.

(** Before a name in some spelling that an opening quote follows, in a
    text where the name followed by a quote does not occur, it does not
    occur either. *)
Lemma quoted_name_before (pat X n R : jsstring) :
  dq ∉ pat -> sameLetters n pat ->
  anywhere (foldPrefix (pat ++ [dq])) X = false ->
  forall x1 x2, X = x1 ++ x2 -> x2 <> [] ->
    foldPrefix (pat ++ [dq]) (x2 ++ n ++ dq :: R) = false.
Proof.
  intros Hpat Hn HX x1 x2 -> Hx2.
  destruct (foldPrefix _ _) eqn:E; [exfalso|done].
  apply foldPrefix_inv in E as (w' & rest & E & Hw').
  apply Forall2_app_inv_r in Hw' as (w & wq & Hw & Hq & ->).
  apply Forall2_cons_inv_r in Hq as (c & wq' & Hc & Hq & ->).
  apply Forall2_nil_inv_r in Hq as ->. apply sameLetters_dq in Hc as ->.
  pose proof (sameLetters_no_dq w pat Hpat Hw) as Hwq.
  pose proof (sameLetters_no_dq n pat Hpat Hn) as Hnq.
  rewrite anywhere_false in HX.
  assert (Hin : forall k, x2 = w ++ dq :: k -> False).
  { intros k ->. pose proof (HX x1 _ eq_refl) as Hf.
    replace (w ++ dq :: k) with ((w ++ [dq]) ++ k) in Hf
      by (by rewrite <- app_assoc).
    rewrite foldPrefix_letters in Hf; [done|]. by apply sameLetters_quoted. }
  rewrite app_assoc, <- (app_assoc w) in E. cbn [app] in E.
  apply first_dq in E as [[E _]|(U' & E & _)]; [| |done].
  - apply (f_equal length) in E. rewrite length_app in E.
    apply sameLetters_length in Hw, Hn. destruct x2; [done|]. simpl in E. lia.
  - apply app_eq_inv in E as [(k & Ek & Hk)|(k & Ek & Hk)].
    + destruct k as [|d k].
      * apply Hnq. cbn [app] in Hk. rewrite <- Hk. by left.
      * injection Hk as <- _. by apply (Hin k).
    + apply Hnq. rewrite Hk, elem_of_app. right. by left.
Qed.

Lemma group1_label_spelled (X n v Z : jsstring) :
  sameLetters n (str "inkscape:label=") ->
  anywhere (foldPrefix (str "inkscape:label=" ++ [dq])) X = false ->
  dq ∉ v ->
  group1 (firstMatch labelRegex (X ++ n ++ dq :: v ++ dq :: Z)) = Some v.
Proof.
  intros Hn HX Hv. rewrite firstMatch_findFirst by done.
  assert (Hq : dq ∉ str "inkscape:label=") by evaluated.
  rewrite (findFirst_intro labelRegex X _
             (map (fun c => [c]) n ++ [[dq]; []; v; []; [dq]])).
  - cbn [fmap option_fmap option_map group1 mbind option_bind infoAt m_groups].
    rewrite atoms_labelRegex, captures_lits; [done|].
    by apply sameLetters_length in Hn.
  - intros x1 x2 E Hx2.
    destruct (exec _ _ _ _) as [ps|] eqn:Ex; [|done].
    apply exec_label_prefix in Ex.
    by rewrite (quoted_name_before _ X n _ Hq Hn HX x1 x2) in Ex.
  - by apply exec_label_spelled.
Qed.

(** ** Attributes in any letter case *)

Lemma space_not_plain (c x : N) :
  isSpace c = true -> isSpace x = false ->
  canonicalize true c <> canonicalize true x.
Proof. intros Hc Hx E. by rewrite (isSpace_fold c x E), Hx in Hc. Qed.

(** Before white space, in a text that holds no start of the attribute,
    no attribute of the name starts. *)
Lemma attrAt_before_space (name : string) (X L : jsstring) (c0 : N) :
  Forall (fun x => isSpace x = false /\ x <> dq) (str name ++ str "=") ->
  anywhere (attrAt name) X = false ->
  head L = Some c0 -> isSpace c0 = true ->
  forall x1 x2, X = x1 ++ x2 -> x2 <> [] -> attrAt name (x2 ++ L) = false.
Proof.
  intros Hname HX HL Hc0 x1 x2 -> Hx2.
  destruct (attrAt name (x2 ++ L)) eqn:E; [exfalso|done].
  apply attrAt_inv in E as (sp & w & rest & E & Hs & Hw).
  pose proof (sameLetters_plain w _ Hw Hname) as Hplain.
  replace (sp :: w ++ dq :: rest) with ((sp :: w ++ [dq]) ++ rest) in E
    by (cbn [app]; by rewrite <- app_assoc).
  rewrite anywhere_false in HX.
  apply app_eq_inv in E as [(k & Ek & _)|(k & Ek & Hk)].
  - pose proof (HX x1 x2 eq_refl) as Hf. rewrite Ek in Hf.
    cbn [app] in Hf. rewrite <- app_assoc in Hf.
    cbn [app] in Hf. by rewrite attrAt_intro in Hf.
  - destruct k as [|c k].
    + pose proof (HX x1 x2 eq_refl) as Hf. rewrite app_nil_r in Ek.
      rewrite <- Ek in Hf. cbn [app] in Hf. by rewrite attrAt_intro in Hf.
    + destruct L as [|l L]; [done|]. injection HL as ->. injection Hk as <- _.
      destruct x2 as [|d x2]; [done|]. injection Ek as _ Ek.
      assert (Hin : c0 ∈ w ++ [dq]) by (rewrite Ek, elem_of_app; right; by left).
      apply elem_of_app in Hin as [Hin|Hin].
      * rewrite Forall_forall in Hplain. destruct (Hplain c0 Hin) as [F _].
        by rewrite F in Hc0.
      * apply list_elem_of_singleton in Hin as ->. done.
Qed.

(** The id attribute in any letter case. *)
Lemma exec_id_spelled (p : option N) (sp : N) (n v Z : jsstring) :
  isSpace sp = true -> sameLetters n (str "id=") -> dq ∉ v ->
  exec true (atoms idRegex) p (sp :: n ++ dq :: v ++ dq :: Z)
  = Some ([sp] :: map (fun c => [c]) (n ++ [dq]) ++ [[]; v; []; [dq]]).
Proof.
  intros Hs Hn Hv. rewrite atoms_idRegex. cbn [exec inSet]. rewrite Hs.
  replace (n ++ dq :: v ++ dq :: Z) with ((n ++ [dq]) ++ v ++ dq :: Z)
    by (by rewrite <- app_assoc).
  rewrite (exec_lits_intro true _ _ _ (n ++ [dq]) _ (sameLetters_quoted _ _ Hn)).
  by rewrite exec_group.
Qed.

Lemma exec_id_attrAt (p : option N) (s : jsstring) (ps : list jsstring) :
  exec true (atoms idRegex) p s = Some ps -> attrAt "id" s = true.
Proof.
  rewrite atoms_idRegex. intros H.
  apply exec_Cls_inv in H as (c & s1 & ps1 & -> & Hc & -> & H).
  apply exec_lits_inv in H as (w & rest & ps2 & -> & Hw & -> & H).
  cbn [attrAt]. cbn [inSet] in Hc. rewrite Hc. cbn [andb].
  by apply foldPrefix_letters.
Qed.

Lemma group1_id_spelled (X n v Z : jsstring) (sp : N) :
  isSpace sp = true -> sameLetters n (str "id=") ->
  anywhere (attrAt "id") X = false ->
  dq ∉ v ->
  group1 (firstMatch idRegex (X ++ sp :: n ++ dq :: v ++ dq :: Z)) = Some v.
Proof.
  intros Hs Hn HX Hv. rewrite firstMatch_findFirst by done.
  rewrite (findFirst_intro idRegex X _
             ([sp] :: map (fun c => [c]) (n ++ [dq]) ++ [[]; v; []; [dq]])).
  - cbn [fmap option_fmap option_map group1 mbind option_bind infoAt m_groups].
    rewrite atoms_idRegex. cbn [captures]. rewrite captures_lits; [done|].
    rewrite !length_app. apply sameLetters_length in Hn. by rewrite Hn.
  - intros x1 x2 E Hx2.
    destruct (exec _ _ _ _) as [ps|] eqn:Ex; [|done].
    apply exec_id_attrAt in Ex.
    assert (Hid : Forall (fun x => isSpace x = false /\ x <> dq)
                    (str "id" ++ str "=")) by (by repeat constructor).
    by rewrite (attrAt_before_space "id" X (sp :: n ++ dq :: v ++ dq :: Z) sp
                  Hid HX eq_refl Hs x1 x2 E Hx2) in Ex.
  - by apply exec_id_spelled.
Qed.

(** The strip pattern matches an attribute of its name in any letter
    case after any white space, and all of it. *)
Lemma exec_strip_spelled (name : string) (ws n v rest : jsstring)
  (p : option N) :
  name ∈ targets ->
  ws <> [] -> Forall (fun c => isSpace c = true) ws ->
  sameLetters n (str name ++ str "=") -> dq ∉ v ->
  exists ps,
    exec true (atoms (stripRegex name)) p (ws ++ n ++ dq :: v ++ dq :: rest)
    = Some ps
    /\ concat ps = ws ++ n ++ dq :: v ++ [dq].
Proof.
  intros Ht Hne Hws Hn Hv.
  destruct (target_head name Ht) as (x & xs & Hx & Hword).
  destruct (target_letters name n Ht Hn) as [Hplain _].
  destruct ws as [|sp ws]; [done|]. apply Forall_cons in Hws as [Hsp Hws].
  rewrite atoms_stripRegex. cbn [app exec inSet]. rewrite Hsp.
  assert (Hk : forall p c s, inSet true Space c = true ->
                 exec true (map Lit (str name ++ str "=" ++ [dq])
                            ++ [Star (NotChar dq); Lit dq]) p (c :: s) = None).
  { intros p0 c s Hc. rewrite Hx. apply exec_Lit_fail.
    by apply space_not_letter. }
  rewrite (many_greedy _ true Space Hk ws).
  2:{ done. }
  2:{ intros c s E. cbn [inSet].
      destruct n as [|c' n']; [rewrite Hx in Hn; inversion Hn|].
      injection E as <- _. apply Forall_cons in Hplain as [[F _] _]. exact F. }
  replace (n ++ dq :: v ++ dq :: rest)
    with ((n ++ [dq]) ++ v ++ dq :: rest) by (by rewrite <- !app_assoc).
  assert (Hn' : sameLetters (n ++ [dq]) (str name ++ str "=" ++ [dq]))
    by (rewrite app_assoc; by apply sameLetters_quoted).
  rewrite (exec_lits_intro true _ _ _ (n ++ [dq]) _ Hn').
  cbn [exec].
  assert (Hk2 : forall p c s, inSet true (NotChar dq) c = true ->
                  exec true [Lit dq] p (c :: s) = None).
  { intros p0 c s Hc. apply exec_Lit_fail. intros E.
    apply canonicalize_dq in E as ->. done. }
  assert (Hin : Forall (fun c => inSet true (NotChar dq) c = true) v).
  { apply Forall_forall. intros c Hc. cbn [inSet].
    apply negb_true_iff, N.eqb_neq. intros E.
    apply canonicalize_dq in E as ->. done. }
  change (exec true [Lit dq]) with (fun p s => exec true [Lit dq] p s).
  rewrite (many_greedy _ true (NotChar dq) Hk2 v _ _ Hin).
  2:{ by intros c s [= <- <-]. }
  cbn. eexists. split; [reflexivity|].
  cbn [concat]. rewrite concat_app, concat_singletons. cbn [concat].
  by rewrite <- !app_assoc, app_nil_r.
Qed.

(** Before white space, in a text that holds no start of the attribute
    and does not end with white space, the strip pattern finds nothing. *)
Lemma strip_before_space (name : string) (X L Z : jsstring) (p : option N)
  (c0 : N) :
  name ∈ targets ->
  anywhere (attrAt name) X = false ->
  (forall X' c, X = X' ++ [c] -> isSpace c = false) ->
  head L = Some c0 -> isSpace c0 = true ->
  forall x1 x2, X = x1 ++ x2 -> x2 <> [] ->
    exec true (atoms (stripRegex name)) p (x2 ++ L ++ Z) = None.
Proof.
  intros Hn HX Hend HL Hc0 x1 x2 -> Hx2.
  destruct (exec _ _ _ _) as [ps|] eqn:E; [exfalso|done].
  apply exec_strip_attrAt in E as (ws & sp & rest & E & Hws & Ha).
  destruct (exists_last Hx2) as (x0 & c & ->).
  assert (Hc : isSpace c = false)
    by (apply (Hend (x1 ++ x0)); by rewrite <- app_assoc).
  assert (Hcws : c ∉ ws).
  { intros Hin. rewrite Forall_forall in Hws. by rewrite (Hws c Hin) in Hc. }
  apply app_eq_inv in E as [(k & Ek & Hk)|(k & Ek & _)].
  2:{ apply Hcws. rewrite Ek, !elem_of_app. left. right. by left. }
  destruct k as [|d k].
  { apply Hcws. rewrite app_nil_r in Ek. rewrite <- Ek, elem_of_app.
    right. by left. }
  rewrite Hk in Ha.
  assert (Hq : Forall (fun x => isSpace x = false /\ x <> dq)
                 (str name ++ str "=")) by (by apply target_plain).
  assert (HL' : head (L ++ Z) = Some c0) by (by destruct L).
  rewrite (attrAt_before_space name _ (L ++ Z) c0 Hq HX HL' Hc0
             (x1 ++ ws) (d :: k)) in Ha; [done| |done].
  by rewrite Ek, <- !app_assoc.
Qed.

(** One strip pass over a text with one attribute of its name, in any
    letter case: the attribute with the white space before it is the only
    match. *)
Lemma scan_spelled (name : string) (X ws n v Z : jsstring) :
  name ∈ targets ->
  anywhere (attrAt name) X = false ->
  (forall X' c, X = X' ++ [c] -> isSpace c = false) ->
  ws <> [] -> Forall (fun c => isSpace c = true) ws ->
  sameLetters n (str name ++ str "=") -> dq ∉ v ->
  anywhere (attrAt name) Z = false ->
  exists ps,
    segments (stripRegex name) (X ++ (ws ++ n ++ dq :: v ++ [dq]) ++ Z)
    = map Gap X ++ Hit ps :: map Gap Z.
Proof.
  intros Ht HX Hend Hne Hws Hn Hv HZ. unfold segments.
  destruct ws as [|sp ws']; [done|].
  pose proof (Forall_inv Hws) as Hsp.
  rewrite scan_gaps_then.
  2:{ intros x1 x2 E Hx2.
      exact (strip_before_space name X ((sp :: ws') ++ n ++ dq :: v ++ [dq])
               Z _ sp Ht HX Hend eq_refl Hsp x1 x2 E Hx2). }
  destruct (exec_strip_spelled name (sp :: ws') n v Z (prevAfter None X)
              Ht Hne Hws Hn Hv) as (ps & He & Hps).
  exists ps.
  rewrite (scan_hit _ _ ((sp :: ws') ++ n ++ dq :: v ++ [dq]) Z ps); try done.
  - rewrite scan_gaps; [done|].
    intros g1 g2 E. by eapply exec_strip_quiet.
  - rewrite <- He. change (ignoreCase (stripRegex name)) with true.
    f_equal. by simplify_list_eq.
Qed.

Lemma replace_spelled (name : string) (X ws n v Z : jsstring) :
  name ∈ targets ->
  anywhere (attrAt name) X = false ->
  (forall X' c, X = X' ++ [c] -> isSpace c = false) ->
  ws <> [] -> Forall (fun c => isSpace c = true) ws ->
  sameLetters n (str name ++ str "=") -> dq ∉ v ->
  anywhere (attrAt name) Z = false ->
  replace (stripRegex name) [] (X ++ (ws ++ n ++ dq :: v ++ [dq]) ++ Z)
  = X ++ Z.
Proof.
  intros Ht HX Hend Hne Hws Hn Hv HZ.
  destruct (scan_spelled name X ws n v Z Ht HX Hend Hne Hws Hn Hv HZ)
    as [ps Hps].
  unfold replace, replaceWith. rewrite render_delete, Hps.
  rewrite map_app, concat_app. cbn [map concat gapText app].
  by rewrite !gapText_gaps.
Qed.

Lemma target_lengths (name name' : string) :
  name ∈ targets -> name' ∈ targets ->
  length (str name) = length (str name') -> name = name'.
Proof.
  unfold targets. intros H H'.
  repeat (apply elem_of_cons in H as [->|H]); [..|by apply elem_of_nil in H];
    repeat (apply elem_of_cons in H' as [->|H']);
    try (by apply elem_of_nil in H'); try done; by vm_compute.
Qed.

(** In an attribute of another of the three names, in any letter case,
    whose value holds no double quote and does not end with an equals
    sign, no attribute of the name starts, whatever follows. *)
Lemma spelled_quiet (name name' : string) (ws n' v B : jsstring) :
  name ∈ targets -> name' ∈ targets -> name <> name' ->
  Forall (fun c => isSpace c = true) ws ->
  sameLetters n' (str name' ++ str "=") ->
  dq ∉ v -> last v <> Some (chr "=") ->
  forall a1 a2, ws ++ n' ++ dq :: v ++ [dq] = a1 ++ a2 -> a2 <> [] ->
    attrAt name (a2 ++ B) = false.
Proof.
  intros Hn Hn' Hne Hws Hspell Hv Hlast a1 a2 Ea Ha2.
  destruct (attrAt name (a2 ++ B)) eqn:E; [exfalso|done].
  apply attrAt_inv in E as (sp & w & rest & E & Hs & Hw).
  destruct (target_letters name w Hn Hw) as [Hplain Hw_last].
  destruct (target_letters name' n' Hn' Hspell) as [Hplain' _].
  rewrite Forall_forall in Hplain, Hplain', Hws.
  assert (Hsp_w : dq ∉ sp :: w).
  { intros [E0|Hin]%elem_of_cons; [by subst sp|]. by destruct (Hplain dq Hin). }
  set (P' := ws ++ n').
  assert (EA : ws ++ n' ++ dq :: v ++ [dq] = P' ++ dq :: v ++ [dq])
    by (unfold P'; by rewrite <- !app_assoc).
  assert (HP' : dq ∉ P').
  { unfold P'. intros [Hin|Hin]%elem_of_app.
    - by pose proof (Hws dq Hin).
    - by destruct (Hplain' dq Hin). }
  assert (Eall : (a1 ++ sp :: w) ++ dq :: rest = P' ++ dq :: (v ++ dq :: B)).
  { rewrite <- app_assoc. cbn [app]. rewrite <- E, app_assoc, <- Ea, EA.
    rewrite <- !app_assoc. cbn [app]. by rewrite <- !app_assoc. }
  apply first_dq in Eall as [[EU _]|(U' & EU & Erest)]; [| |done].
  - (* the quote is the opening quote of the attribute *)
    unfold P' in EU.
    apply app_eq_inv in EU as [(k & Ek & Hk)|(k & Ek & Hk)].
    + assert (Hin : sp ∈ n') by (rewrite Hk, elem_of_app; right; by left).
      destruct (Hplain' sp Hin) as [F _]. by rewrite F in Hs.
    + destruct k as [|d k].
      * cbn [app] in Hk. assert (Hin : sp ∈ n') by (rewrite <- Hk; by left).
        destruct (Hplain' sp Hin) as [F _]. by rewrite F in Hs.
      * injection Hk as <- Hk. destruct k as [|e k].
        -- cbn [app] in Hk. subst w. apply Hne, target_lengths; try done.
           apply sameLetters_length in Hw, Hspell.
           rewrite Hw, !length_app in Hspell. simpl in Hspell. lia.
        -- assert (He : e ∈ w) by (rewrite Hk; by left).
           destruct (Hplain e He) as [F _].
           assert (He' : e ∈ ws).
           { rewrite Ek, !elem_of_app. right. right. by left. }
           by rewrite (Hws e He') in F.
  - apply first_dq in Erest as [[EU' _]|(U'' & EU' & _)]; [| |done].
    + (* the quote is the closing quote of the attribute *)
      subst U'. apply (f_equal last) in EU.
      rewrite last_app_cons, last_cons, Hw_last in EU.
      rewrite last_app_cons, last_cons in EU.
      destruct (last v) eqn:Elast; [by rewrite EU in Hlast|done].
    + (* the quote stands after the attribute *)
      subst U'.
      assert (E2 : a2 ++ U'' = sp :: w).
      { apply (app_inv_head a1). rewrite app_assoc, <- Ea, EA, EU.
        rewrite <- !app_assoc. cbn [app]. by rewrite <- !app_assoc. }
      apply Hsp_w. rewrite <- E2.
      destruct (exists_last Ha2) as (a2' & c & ->).
      assert (c = dq) as ->.
      { rewrite EA in Ea.
        replace (P' ++ dq :: v ++ [dq]) with ((P' ++ dq :: v) ++ [dq]) in Ea
          by (by rewrite <- app_assoc).
        rewrite (app_assoc a1) in Ea. by apply app_inj_tail in Ea as [_ ->]. }
      rewrite !elem_of_app. left. right. by left.
Qed.

Lemma spelled_whole_quiet (name name' : string) (X ws n v Z : jsstring) :
  name ∈ targets -> name' ∈ targets -> name' <> name ->
  sameLetters n (str name ++ str "=") ->
  ws <> [] -> Forall (fun c => isSpace c = true) ws ->
  dq ∉ v -> last v <> Some (chr "=") ->
  anywhere (attrAt name') (X ++ Z) = false ->
  anywhere (attrAt name') (X ++ (ws ++ n ++ dq :: v ++ [dq]) ++ Z) = false.
Proof.
  intros Ht Ht' Hne Hn Hws0 Hws Hv Hlast Hq.
  apply anywhere_app.
  - destruct ws as [|sp ws']; [done|].
    apply (attrAt_before_space name' X _ sp); try done.
    + by apply target_plain.
    + by eapply anywhere_prefix.
    + by apply Forall_inv in Hws.
  - apply anywhere_app; [|by eapply anywhere_suffix].
    by apply (spelled_quiet name' name).
Qed.

(** The strip pass takes an attribute of one of the three names out of
    a tag, in whatever letter case the name is written. *)
Lemma strip_spelled (name : string) (X ws n v Z : jsstring) :
  name ∈ targets ->
  sameLetters n (str name ++ str "=") ->
  ws <> [] -> Forall (fun c => isSpace c = true) ws ->
  dq ∉ v -> last v <> Some (chr "=") ->
  (forall X' c, X = X' ++ [c] -> isSpace c = false) ->
  Forall (fun name' => anywhere (attrAt name') (X ++ Z) = false) targets ->
  strip (X ++ ws ++ n ++ dq :: v ++ dq :: Z) = X ++ Z.
Proof.
  intros Ht Hn Hws0 Hws Hv Hlast Hend Hq.
  replace (X ++ ws ++ n ++ dq :: v ++ dq :: Z)
    with (X ++ (ws ++ n ++ dq :: v ++ [dq]) ++ Z)
    by (rewrite <- !app_assoc; cbn [app]; by rewrite <- !app_assoc).
  apply Forall_cons in Hq as [Q1 Hq]. apply Forall_cons in Hq as [Q2 Hq].
  apply Forall_cons in Hq as [Q3 _].
  assert (T1 : "long-name"%string ∈ targets) by (by left).
  assert (T2 : "value"%string ∈ targets) by (right; by left).
  assert (T3 : "region"%string ∈ targets) by (right; right; by left).
  unfold strip, targets in *.
  repeat (apply elem_of_cons in Ht as [->|Ht]); [..|by apply elem_of_nil in Ht].
  - rewrite (replace_spelled "long-name"); try done;
      [|by eapply anywhere_prefix|by eapply anywhere_suffix].
    rewrite (replace_quiet "value") by done.
    by rewrite (replace_quiet "region").
  - rewrite (replace_quiet "long-name")
      by (by apply (spelled_whole_quiet "value")).
    rewrite (replace_spelled "value"); try done;
      [|by eapply anywhere_prefix|by eapply anywhere_suffix].
    by rewrite (replace_quiet "region").
  - rewrite (replace_quiet "long-name")
      by (by apply (spelled_whole_quiet "region")).
    rewrite (replace_quiet "value")
      by (by apply (spelled_whole_quiet "region")).
    rewrite (replace_spelled "region"); try done;
      [by eapply anywhere_prefix|by eapply anywhere_suffix].
Qed.

(** ** Path tags in any letter case *)

Lemma spelled_tag (w u : jsstring) :
  sameLetters w (str "<path") -> wordAt u = false -> chr ">" ∉ u ->
  pathHead (w ++ u ++ [chr ">"]) = true /\ soleClose (w ++ u ++ [chr ">"]).
Proof.
  intros Hw Hu Hgt.
  assert (Hwgt : chr ">" ∉ w).
  { eapply sameLetters_avoid; [|exact Hw].
    intros d Hd Hin. unfold foldEq in Hd. symmetry in Hd.
    apply canonicalize_gt in Hd as ->. revert Hin. evaluated. }
  split.
  - unfold pathHead. rewrite foldPrefix_letters by exact Hw.
    rewrite drop_app_length' by (by apply sameLetters_length in Hw).
    replace (wordAt (u ++ [chr ">"])) with false by (by destruct u).
    cbn [negb andb]. apply bool_decide_eq_true.
    rewrite elem_of_app. right. by left.
  - exists (w ++ u). split; [by rewrite <- app_assoc|].
    by intros [?|?]%elem_of_app.
Qed.

(** A start of the tag pattern cannot lie across the end of a text
    that holds none and the opening angle bracket that follows it. *)
Lemma path_start_before (g tag : jsstring) :
  anywhere (foldPrefix (str "<path")) g = false ->
  head tag = Some (chr "<") ->
  forall x1 x2, g = x1 ++ x2 -> x2 <> [] ->
    foldPrefix (str "<path") (x2 ++ tag) = false.
Proof.
  intros Hg Ht x1 x2 -> Hx2. rewrite anywhere_false in Hg.
  pose proof (Hg x1 x2 eq_refl) as Hf.
  destruct tag as [|c tag]; [done|]. injection Ht as ->.
  change (str "<path") with [60; 112; 97; 116; 104] in *.
  change (chr "<") with 60.
  destruct x2 as [|c1 [|c2 [|c3 [|c4 [|c5 x2]]]]]; [done|..];
    cbn [app foldPrefix] in *; [..|exact Hf];
    repeat match goal with
      | |- context [asciiUpper ?c =? _] =>
          is_var c; destruct (asciiUpper c =? _)
      end; reflexivity.
Qed.

(** A text that holds no start of the tag pattern, then one path tag:
    the text stays and the tag is rewritten. *)
Lemma editSvg_one_tag (g tag : jsstring) (lookup : Lookup) :
  anywhere (foldPrefix (str "<path")) g = false ->
  pathHead tag = true -> soleClose tag ->
  editSvg (g ++ tag) lookup = t ← editTag lookup tag; Ok (g ++ t).
Proof.
  intros Hg Hh Hs. unfold editSvg, replaceWithM, segments.
  assert (Hlt : head tag = Some (chr "<")).
  { unfold pathHead in Hh. apply andb_true_iff in Hh as [Hh _].
    apply andb_true_iff in Hh as [Hh _].
    destruct tag as [|c tag]; [done|].
    change (str "<path") with [60; 112; 97; 116; 104] in Hh.
    cbn [foldPrefix] in Hh. apply andb_true_iff in Hh as [Hc _].
    apply N.eqb_eq in Hc. cbn [head]. f_equal.
    pose proof (foldEq_low c (chr "<") (chr "<") Hc eq_refl) as E.
    rewrite N.eqb_refl in E. by apply N.eqb_eq in E. }
  rewrite scan_gaps_then.
  2:{ intros x1 x2 E Hx2. apply exec_path_None. unfold pathHead.
      by rewrite (path_start_before g tag Hg Hlt x1 x2 E Hx2). }
  destruct (exec_path_whole (prevAfter None g) tag [] Hh Hs) as (ps & He & Hps).
  assert (Hne : tag <> []).
  { destruct Hs as (t & -> & _). by destruct t. }
  replace (scan pathRegex true 0 (prevAfter None g) tag)
    with (scan pathRegex true 0 (prevAfter None g) (tag ++ []))
    by (by rewrite app_nil_r).
  rewrite (scan_hit pathRegex _ tag [] ps); try done.
  rewrite scan_end by (by apply exec_path_None).
  rewrite renderM_app, renderM_gaps. cbn [mbind Exc_bind renderM].
  cbn [infoAt m_text]. rewrite Hps.
  destruct (editTag lookup tag) as [|t]; [done|].
  cbn [mbind Exc_bind]. by rewrite app_nil_r.
Qed.

(** A path tag in any letter case is matched and rewritten where it
    stands: after a text that is empty or ends a tag and a text that
    holds no start of the tag pattern. *)
Lemma editSvg_spelled (a g w u post : jsstring) (lookup : Lookup) :
  a = [] \/ last a = Some (chr ">") ->
  anywhere (foldPrefix (str "<path")) g = false ->
  sameLetters w (str "<path") -> wordAt u = false -> chr ">" ∉ u ->
  exists x t y,
    editSvg a lookup = Ok x
    /\ editTag lookup (w ++ u ++ [chr ">"]) = Ok t
    /\ editSvg post lookup = Ok y
    /\ editSvg (a ++ g ++ w ++ u ++ chr ">" :: post) lookup
       = Ok (x ++ g ++ t ++ y).
Proof.
  intros Ha Hg Hw Hu Hgt.
  destruct (spelled_tag w u Hw Hu Hgt) as [Hh Hs].
  destruct (editSvg_ok a lookup) as [x Hx].
  destruct (editTag_ok lookup (w ++ u ++ [chr ">"])) as [t Ht].
  destruct (editSvg_ok post lookup) as [y Hy].
  exists x, t, y. repeat split; try done.
  rewrite editSvg_app_bind, Hx by done. cbn [mbind Exc_bind].
  replace (g ++ w ++ u ++ chr ">" :: post)
    with ((g ++ w ++ u ++ [chr ">"]) ++ post) by (by simplify_list_eq).
  rewrite editSvg_app_bind.
  2:{ right. by rewrite !app_assoc, last_snoc. }
  rewrite (editSvg_one_tag g _ lookup Hg Hh Hs), Ht, Hy.
  cbn [mbind Exc_bind]. by rewrite <- !app_assoc.
Qed.

Lemma endsInSpace_false (X : jsstring) :
  endsInSpace X = false -> forall X' c, X = X' ++ [c] -> isSpace c = false.
Proof. intros H X' c ->. unfold endsInSpace in H. by rewrite last_snoc in H. Qed.

(** C9.  Letter case does not matter to what the merger matches.

    Tags: take the five units of the opening of a path tag in any letter
    case, then a text without closing angle bracket that does not start
    with a word character, then a closing angle bracket.  Where such a tag
    stands after a text that is empty or ends with a closing angle
    bracket and a text that holds no start of the tag pattern, the merge
    of the document is the merge of what stands before, the text between
    as it is, what the replacer makes of the tag, and the merge of what
    follows.

    Strip pass: an attribute of one of the three names, the name written
    in any letter case, is taken out of a tag together with the white
    space before it, when its value holds no double quote and does not
    end with an equals sign, the text before it does not end with white
    space, and the rest of the tag holds no start of one of the three
    attributes.

    Style-label and id: the value of the first attribute inkscape:label,
    and of the first attribute id after a unit of white space, is read
    whatever the letter case of the name.

    Behind this: every regular expression the merger uses on letters
    carries the i flag, and under that flag the scan cuts two texts that
    differ only in the case of ASCII letters at the same places, so that
    the tags found, what the strip pass keeps and the label and the id
    read do not depend on letter case, up to the case of their own
    letters.  Two tags of the examples, one in upper case with an id and
    one in mixed case with only a style-label, are rewritten as their
    lower-case spellings would be. *)
Theorem matching_ignores_case :
  (forall lookup a g w u post,
     a = [] \/ last a = Some (chr ">") ->
     anywhere (foldPrefix (str "<path")) g = false ->
     sameLetters w (str "<path") -> wordAt u = false -> chr ">" ∉ u ->
     exists x t y,
       editSvg a lookup = Ok x
       /\ editTag lookup (w ++ u ++ [chr ">"]) = Ok t
       /\ editSvg post lookup = Ok y
       /\ editSvg (a ++ g ++ w ++ u ++ chr ">" :: post) lookup
          = Ok (x ++ g ++ t ++ y))
  /\ (forall name X ws n v Z,
        name ∈ targets -> sameLetters n (str name ++ str "=") ->
        ws <> [] -> Forall (fun c => isSpace c = true) ws ->
        dq ∉ v -> last v <> Some (chr "=") ->
        endsInSpace X = false ->
        Forall (fun name' => anywhere (attrAt name') (X ++ Z) = false)
          targets ->
        strip (X ++ ws ++ n ++ dq :: v ++ dq :: Z) = X ++ Z)
  /\ (forall X n v Z,
        sameLetters n (str "inkscape:label=") ->
        anywhere (foldPrefix (str "inkscape:label=" ++ [dq])) X = false ->
        dq ∉ v ->
        group1 (firstMatch labelRegex (X ++ n ++ dq :: v ++ dq :: Z))
        = Some v)
  /\ (forall X sp n v Z,
        isSpace sp = true -> sameLetters n (str "id=") ->
        anywhere (attrAt "id") X = false -> dq ∉ v ->
        group1 (firstMatch idRegex (X ++ sp :: n ++ dq :: v ++ dq :: Z))
        = Some v)
  /\ Forall (fun re => ignoreCase re = true)
       [pathRegex; stripRegex "long-name"; stripRegex "value";
        stripRegex "region"; labelRegex; idRegex; idInsertRegex]
  /\ (forall re s t,
        ignoreCase re = true -> sameLetters s t ->
        Forall2 sameSegment (segments re s) (segments re t))
  /\ (forall s t,
        sameLetters s t ->
        sameLetters (strip s) (strip t)
        /\ option_Forall2 sameLetters
             (group1 (firstMatch labelRegex s)) (group1 (firstMatch labelRegex t))
        /\ option_Forall2 sameLetters
             (group1 (firstMatch idRegex s)) (group1 (firstMatch idRegex t)))
  /\ editSvg tagUpper lookupNorte = Ok tagUpperMerged
  /\ editSvg tagMixed lookupNorte = Ok tagMixedMerged.
Proof.
  repeat apply conj.
  - intros. by apply editSvg_spelled.
  - intros name X ws n v Z Ht Hn Hne Hws Hv Hlast Hend Hq.
    apply (strip_spelled name); try done. by apply endsInSpace_false.
  - intros. by apply group1_label_spelled.
  - intros. by apply group1_id_spelled.
  - repeat constructor.
  - intros re s t Hic Hst. unfold segments.
    apply scan_fold; [done|done|constructor].
  - intros s t Hst. split; [by apply strip_fold|].
    split; by apply group1_fold.
  - vm_compute. reflexivity.
  - vm_compute. reflexivity.
Qed.

(** A tag in mixed case after a group tag and a line feed, a stale
    attribute Value, and attributes Inkscape:Label and ID. *)
Lemma matching_ignores_case_witness :
  (exists x t y,
     editSvg (str "<g>") lookupNorte = Ok x
     /\ editTag lookupNorte (str "<Path" ++ str " D=" ++ q "M0" ++ [chr ">"])
        = Ok t
     /\ editSvg (str "</g>") lookupNorte = Ok y
     /\ editSvg (str "<g>" ++ [lf] ++ str "<Path" ++ str " D=" ++ q "M0"
                 ++ chr ">" :: str "</g>") lookupNorte
        = Ok (x ++ [lf] ++ t ++ y))
  /\ strip (str "<Path" ++ str " " ++ str "Value=" ++ dq :: str "old"
            ++ dq :: str " Inkscape:Label=" ++ q "Norte" ++ str "/>")
     = str "<Path" ++ str " Inkscape:Label=" ++ q "Norte" ++ str "/>"
  /\ group1 (firstMatch labelRegex
               (str "<Path " ++ str "Inkscape:Label=" ++ dq :: str "Norte"
                ++ dq :: str "/>"))
     = Some (str "Norte")
  /\ group1 (firstMatch idRegex
               (str "<PATH" ++ chr " " :: str "ID=" ++ dq :: str "p1"
                ++ dq :: str "/>"))
     = Some (str "p1").
Proof.
  destruct matching_ignores_case as (Htag & Hstrip & Hlabel & Hid & _).
  split; [|split; [|split]].
  - apply (Htag lookupNorte (str "<g>") [lf] (str "<Path")
             (str " D=" ++ q "M0") (str "</g>")).
    + right. reflexivity.
    + reflexivity.
    + repeat constructor.
    + reflexivity.
    + evaluated.
  - apply (Hstrip "value"%string (str "<Path") (str " ") (str "Value=")
             (str "old") (str " Inkscape:Label=" ++ q "Norte" ++ str "/>")).
    + evaluated.
    + repeat constructor.
    + discriminate.
    + repeat constructor.
    + evaluated.
    + discriminate.
    + reflexivity.
    + repeat constructor.
  - apply (Hlabel (str "<Path ") (str "Inkscape:Label=") (str "Norte")
             (str "/>")).
    + repeat constructor.
    + reflexivity.
    + evaluated.
  - apply (Hid (str "<PATH") (chr " ") (str "ID=") (str "p1") (str "/>")).
    + reflexivity.
    + repeat constructor.
    + reflexivity.
    + evaluated.
Defined.

(** ** A table written out and read back *)









(** ** Where the merger departs from the specification *)

(** C1 (the code departs from the claim).  The tag has no id and a space
    before its closing angle bracket.  The first merge inserts the three
    lines after that space; the strip pass of the second merge removes
    the space together with the long-name line, so the second merge does
    not give the result of the first.  With a label that holds $1 the
    same happens for a tag with an id. *)
Theorem editSvg_twice_differs (lookup : Lookup) :
  editSvg svgSpace lookup = Ok svgSpaceOnce
  /\ editSvg svgSpaceOnce lookup = Ok svgSpaceTwice
  /\ svgSpaceOnce <> svgSpaceTwice
  /\ (forall unicodeLower,
        run unicodeLower svgDollar csvDollar = Ok svgDollarOnce
        /\ run unicodeLower svgDollarOnce csvDollar = Ok svgDollarTwice
        /\ svgDollarOnce <> svgDollarTwice).
Proof. vm_compute. repeat split; discriminate. Qed.

(** C3 (the code departs from the claim).  The tag has the id p1 and the
    table gives row p1 the label US$1.  The resolved values are US$1, 7
    and 2 and the stripped tag has an id attribute, but what the tag
    becomes is not the stripped tag with the three attribute lines of
    these values before the id attribute: the lines go through a
    replacement template, in which $1 stands for the first capture
    group. *)
Theorem editTag_insertion_garbled :
  let lookup := buildLookup (parseCSV noUnicode csvDollar) in
  let clean := strip svgDollar in
  resolve lookup (group1 (firstMatch labelRegex clean))
    (group1 (firstMatch idRegex clean))
  = Ok (str "US$1", str "7", str "2")
  /\ clean = str "<path" ++ str " id=" ++ q "p1" ++ str "/>"
  /\ editTag lookup svgDollar = Ok svgDollarOnce
  /\ svgDollarOnce <> svgDollarExpected.
Proof. vm_compute. repeat split. discriminate. Qed.

(** C4 (the code departs from the claim).  Stripping the value attribute
    of this tag joins the text on either side of it into a new value
    attribute, which stays; the merged tag carries two. *)
Theorem editSvg_two_values :
  editSvg svgSplitValue emptyLookup = Ok svgSplitValueMerged
  /\ countAttr "value" svgSplitValueMerged = 2%nat.
Proof. vm_compute. split; reflexivity. Qed.

(** C10 (the code departs from the claim).  The tag has an empty id and a
    style-label that holds $1.  The id tier is skipped and the values are
    the label, 0 and 0; the id branch of the insertion is taken, and
    what the tag becomes is not the stripped tag with the three attribute
    lines of these values before the id attribute. *)
Theorem editTag_empty_id_garbled :
  let clean := strip tagEmptyId in
  group1 (firstMatch idRegex clean) = Some []
  /\ resolve emptyLookup (group1 (firstMatch labelRegex clean))
       (group1 (firstMatch idRegex clean))
     = Ok (str "US$1", str "0", str "0")
  /\ editTag emptyLookup tagEmptyId = Ok tagEmptyIdMerged
  /\ tagEmptyIdMerged <> tagEmptyIdExpected.
Proof. vm_compute. repeat split. discriminate. Qed.
